(** * nsf/eventsource: the line reader and the Server-Sent Events client

    A shallow embedding of [buffer/buffer.go] (the growable line reader) and
    of [eventsource.go] (field parser, message assembler and reconnect loop),
    with the properties of the specification proved about it.  The programs
    come first, then the notions the properties are stated with, then the
    proofs.

    Conventions of the embedding:
    - a Go [[]byte] that is only read is a [list byte]; the field buffers of
      the client, whose nil-ness and capacity the code depends on, are
      values of the type [gslice];
    - [len], [cap] and the cursors of the reader are [nat]: they are never
      negative, and allocation keeps them far below the point where [int]
      arithmetic on them could wrap; a negative capacity, at which [make]
      panics, is a panic of the caller;
    - a slice expression [l[lo:hi]] is the total function [slice]; the
      cursor invariant [r <= w <= len(buf)], proved for every state of the
      reader, keeps the bounds in order, and the one slice whose bounds
      depend on a loop variable is checked where it is taken;
    - the configured limits of the client are Go [int]s that may be negative
      and are [Z];
    - a Go [error] is a value of the inductive type [error]; the nil error is
      [None];
    - the sentinel [-1] of an index search is [None]. *)

From Stdlib Require Import String Strings.Byte.
From Stdlib Require Import List Arith ZArith Lia Bool.
Import ListNotations.
Open Scope list_scope.

Set Implicit Arguments.

(** * The programs *)

(** ** Bytes, errors, slices *)

Definition LF : byte := x0a.

Definition CR : byte := x0d.

Definition bytes (s : string) : list byte := list_byte_of_string s.

(** The errors that flow through the two packages.  [Wrap msg e] is the value
    of [fmt.Errorf(msg + ": %w", e)]. *)
Inductive error : Type :=
| ErrBufferFull
| ErrNoProgress
| EOF
| Canceled
| ErrInvalidStatus
| ErrInvalidContentType
| ErrOther (msg : string)
| Wrap (msg : string) (e : error).

Definition error_eq_dec (a b : error) : {a = b} + {a <> b}.
Proof. decide equality; apply string_dec. Defined.

(** [errors.Is]: walks the chain of wrapped errors. *)
Fixpoint errors_Is (e target : error) : bool :=
  if error_eq_dec e target then true
  else match e with
       | Wrap _ e' => errors_Is e' target
       | _ => false
       end.

(** [l[lo:hi]] *)
Definition slice (l : list byte) (lo hi : nat) : list byte :=
  firstn (hi - lo) (skipn lo l).

(** The builtin [copy(dst, src)]: the content of [dst] afterwards. *)
Definition copy (dst src : list byte) : list byte :=
  let n := Nat.min (length dst) (length src) in
  firstn n src ++ skipn n dst.

(** [make([]byte, n)] *)
Definition make (n : nat) : list byte := repeat x00 n.

(** ** Package buffer *)

Module Buffer.

Definition minReadBufferSize : nat := 16.

Definition defaultBufSize : nat := 4096.

Definition maxConsecutiveEmptyReads : nat := 100.

(** [io.Reader].  [Read rd n] is a call [rd.Read(p)] with [len(p) = n]: the
    bytes written to the front of [p], the error, and the reader afterwards.
    The count returned by Go is the length of the byte list, so it is never
    negative, and the law says that it is at most [len(p)]. *)
Class Reader (R : Type) : Type := {
  Read : R -> nat -> list byte * option error * R;
  Read_len : forall rd n, length (fst (fst (Read rd n))) <= n
}.

Record ReadBuffer (R : Type) : Type := mkReadBuffer {
  buf : list byte;
  rd : R;
  r : nat;
  w : nat;
  err : option error;
  maxSize : nat;
  crLine : bool
}.

Section WithReader.

Context {R : Type} `{Reader R}.

(** [New]: the buffer starts with [min(maxSize, defaultBufSize)] bytes. *)
Definition New (rd0 : R) (maxSize0 : nat) : ReadBuffer R :=
  let bufSize := Nat.min maxSize0 defaultBufSize in
  {| buf := make bufSize; rd := rd0; r := 0; w := 0; err := None;
     maxSize := maxSize0; crLine := false |}.

(** [grow]: doubles the buffer, up to [maxSize]; [false] when it is at
    [maxSize] already. *)
Definition grow (b : ReadBuffer R) : bool * ReadBuffer R :=
  if maxSize b <=? length (buf b) then (false, b)
  else
    let newSize := Nat.min (maxSize b) (length (buf b) * 2) in
    let newBuf := copy (make newSize) (buf b) in
    (true,
     {| buf := newBuf; rd := rd b; r := r b; w := w b; err := err b;
        maxSize := maxSize b; crLine := crLine b |}).

(** The read loop of [fill]: [i] attempts are left. *)
Fixpoint fill_read (i : nat) (b : ReadBuffer R) : ReadBuffer R :=
  match i with
  | 0 =>
      {| buf := buf b; rd := rd b; r := r b; w := w b; err := Some ErrNoProgress;
         maxSize := maxSize b; crLine := crLine b |}
  | S i' =>
      let '(p, e, rd') := Read (rd b) (length (buf b) - w b) in
      let n := length p in
      let b' :=
        {| buf := firstn (w b) (buf b) ++ copy (skipn (w b) (buf b)) p;
           rd := rd'; r := r b; w := w b + n; err := err b;
           maxSize := maxSize b; crLine := crLine b |} in
      match e with
      | Some e' =>
          {| buf := buf b'; rd := rd b'; r := r b'; w := w b'; err := Some e';
             maxSize := maxSize b'; crLine := crLine b' |}
      | None => if 0 <? n then b' else fill_read i' b'
      end
  end.

(** [fill]: moves the unread bytes to the front, grows the buffer when it
    is full, and reads. *)
Definition fill (b : ReadBuffer R) : ReadBuffer R :=
  let b1 :=
    if 0 <? r b then
      {| buf := copy (buf b) (slice (buf b) (r b) (w b)); rd := rd b;
         r := 0; w := w b - r b; err := err b;
         maxSize := maxSize b; crLine := crLine b |}
    else b in
  if length (buf b1) <=? w b1 then
    match grow b1 with
    | (false, _) =>
        {| buf := buf b1; rd := rd b1; r := r b1; w := w b1;
           err := Some ErrBufferFull;
           maxSize := maxSize b1; crLine := crLine b1 |}
    | (true, b2) => fill_read maxConsecutiveEmptyReads b2
    end
  else fill_read maxConsecutiveEmptyReads b1.

(** [findCRLF]: the index of the first carriage return or line feed. *)
Fixpoint findCRLF (l : list byte) : option nat :=
  match l with
  | [] => None
  | c :: t =>
      if Byte.eqb c CR || Byte.eqb c LF then Some 0
      else option_map S (findCRLF t)
  end.

(** The first block of the loop body of [ReadLine]: after a line that ended
    in a carriage return, a line feed at the front of the unread bytes is
    skipped. *)
Definition skip_lf (b : ReadBuffer R) : ReadBuffer R :=
  if crLine b then
    match slice (buf b) (r b) (w b) with
    | [] => b
    | c :: _ =>
        {| buf := buf b; rd := rd b;
           r := if Byte.eqb c LF then r b + 1 else r b;
           w := w b; err := err b; maxSize := maxSize b; crLine := false |}
    end
  else b.

(** The loop of [ReadLine], one unfolding per iteration; [s] is the local
    variable of the same name.  The result is [None] when the loop does not
    return a line: the fuel is used up, or the slice [b.buf[b.r+s : b.w]]
    has its bounds out of order, at which Go panics (the comment in the
    source argues that the line-feed block only runs with [s == 0], so that
    this does not happen). *)
Fixpoint ReadLine_loop (fuel s : nat) (b0 : ReadBuffer R)
  : option (list byte * option error * ReadBuffer R) :=
  match fuel with
  | 0 => None
  | S fuel' =>
      let b := skip_lf b0 in
      if w b <? r b + s then None
      else
        match findCRLF (slice (buf b) (r b + s) (w b)) with
        | Some i0 =>
            let i := i0 + s in
            Some (slice (buf b) (r b) (r b + i), None,
                  {| buf := buf b; rd := rd b; r := r b + i + 1; w := w b;
                     err := err b; maxSize := maxSize b;
                     crLine := Byte.eqb (nth (r b + i) (buf b) x00) CR |})
        | None =>
            match err b with
            | Some e =>
                Some (slice (buf b) (r b) (w b), Some e,
                      {| buf := buf b; rd := rd b; r := w b; w := w b;
                         err := None; maxSize := maxSize b;
                         crLine := crLine b |})
            | None => ReadLine_loop fuel' (w b - r b) (fill b)
            end
        end
  end.

(** [ReadLine]: the loop runs at most [maxSize + 3] times and never slices
    out of range (theorem [ReadLine_total] below), so the result is never
    [None]. *)
Definition ReadLine (b : ReadBuffer R)
  : option (list byte * option error * ReadBuffer R) :=
  ReadLine_loop (maxSize b + 3) 0 b.

(** [k] calls of [ReadLine] in a row: the results and the final reader. *)
Fixpoint read_n (k : nat) (b : ReadBuffer R)
  : option (list (list byte * option error) * ReadBuffer R) :=
  match k with
  | 0 => Some ([], b)
  | S k' =>
      match ReadLine b with
      | None => None
      | Some (l, e, b') =>
          match read_n k' b' with
          | None => None
          | Some (res, b'') => Some ((l, e) :: res, b'')
          end
      end
  end.

End WithReader.

(** A byte source that hands out [data] in pieces: the [k]-th call of [Read]
    returns at most [nth k sched] bytes, and as many as fit once the schedule
    is used up; at the end of the data it returns [0, io.EOF].  With the empty
    schedule this is [strings.Reader]. *)
Record ChunkReader : Type := mkChunkReader {
  data : list byte;
  sched : list nat
}.

Definition ChunkReader_Read (c : ChunkReader) (n : nat)
  : list byte * option error * ChunkReader :=
  match data c with
  | [] => ([], Some EOF, c)
  | _ :: _ =>
      let k := Nat.min n (hd n (sched c)) in
      (firstn k (data c), None,
       {| data := skipn k (data c); sched := tl (sched c) |})
  end.

Lemma ChunkReader_Read_len (c : ChunkReader) (n : nat) :
  length (fst (fst (ChunkReader_Read c n))) <= n.
Proof.
  unfold ChunkReader_Read. destruct (data c); simpl; [lia|].
  rewrite length_firstn. lia.
Qed.

#[export] Instance ChunkReader_Reader : Reader ChunkReader :=
  {| Read := ChunkReader_Read; Read_len := ChunkReader_Read_len |}.

Definition strings_NewReader (s : list byte) : ChunkReader :=
  {| data := s; sched := [] |}.

End Buffer.

(** ** Package eventsource *)

Module EventSource.

Import Buffer.

Local Open Scope Z_scope.

(** A byte slice of which the code observes more than the content: [GNil] is
    the nil slice, [GSlice elems cap] a slice with a backing array. *)
Inductive gslice : Type :=
| GNil
| GSlice (elems : list byte) (capacity : Z).

Definition elems (s : gslice) : list byte :=
  match s with GNil => [] | GSlice l _ => l end.

Definition len (s : gslice) : Z := Z.of_nat (length (elems s)).

Definition cap (s : gslice) : Z :=
  match s with GNil => 0 | GSlice _ c => c end.

(** [s[:0]]: the nil slice stays nil. *)
Definition reslice0 (s : gslice) : gslice :=
  match s with GNil => GNil | GSlice _ c => GSlice [] c end.

(** [append(s, ns...)].  Nothing to append gives [s] back; otherwise the
    bytes go into the backing array when they fit.  When they do not fit the
    runtime allocates a larger array of a size of its choosing, modelled by
    the smallest one; [appendLimit] never gets there (lemma
    [appendLimit_no_realloc]). *)
Definition append (s : gslice) (ns : list byte) : gslice :=
  match ns with
  | [] => s
  | _ :: _ =>
      let n := len s + Z.of_nat (length ns) in
      GSlice (elems s ++ ns) (if n <=? cap s then cap s else n)
  end.

(** A signed 64-bit integer: the value of [z] after wrap-around. *)
Definition wrap64 (z : Z) : Z := (z + 2 ^ 63) mod 2 ^ 64 - 2 ^ 63.

(** The value of a decimal digit. *)
Definition digit (c : byte) : option Z :=
  let n := Z.of_N (Byte.to_N c) in
  if (48 <=? n) && (n <=? 57) then Some (n - 48) else None.

Fixpoint parse_digits (acc : Z) (l : list byte) : option Z :=
  match l with
  | [] => Some acc
  | c :: t =>
      match digit c with
      | Some d => parse_digits (acc * 10 + d) t
      | None => None
      end
  end.

(** One or more decimal digits: their value. *)
Definition decimal (l : list byte) : option Z :=
  match l with
  | [] => None
  | _ :: _ => parse_digits 0 l
  end.

(** [strconv.ParseInt(s, 10, 64)] of the Go library, [None] when it returns
    an error: an optional sign followed by one or more decimal digits, the
    value within the range of [int64]. *)
Definition ParseInt (l : list byte) : option Z :=
  match l with
  | [] => None
  | c :: t =>
      let '(neg, ds) :=
        if Byte.eqb c "+"%byte then (false, t)
        else if Byte.eqb c "-"%byte then (true, t)
        else (false, l) in
      match decimal ds with
      | None => None
      | Some un =>
          if neg then (if un <=? 2 ^ 63 then Some (- un) else None)
          else (if un <? 2 ^ 63 then Some un else None)
      end
  end.

(** [bytes.Index(line, sep)] for a separator of one byte. *)
Fixpoint Index (line : list byte) (sep : byte) : option nat :=
  match line with
  | [] => None
  | c :: t => if Byte.eqb c sep then Some 0%nat else option_map S (Index t sep)
  end.

(** [bytes.Equal] *)
Definition Equal (a b : list byte) : bool :=
  if list_eq_dec Byte.byte_eq_dec a b then true else false.

Definition DefaultMaxID : Z := 256.

Definition DefaultMaxEvent : Z := 256.

Definition DefaultMaxData : Z := 4 * 1024 * 1024.

Record Message : Type := mkMessage {
  ID : gslice;
  Event : gslice;
  Data : gslice
}.

(** [Message{}] *)
Definition noMessage : Message := {| ID := GNil; Event := GNil; Data := GNil |}.

Definition knownFieldNameID : list byte := bytes "id".

Definition knownFieldNameEvent : list byte := bytes "event".

Definition knownFieldNameData : list byte := bytes "data".

Definition knownFieldNameRetry : list byte := bytes "retry".

Record BufferParameters : Type := mkBufferParameters {
  MaxID : Z;
  MaxEvent : Z;
  MaxData : Z;
  MaxReadBuffer : Z
}.

(** An [http.Request], as far as the client touches it: its header. *)
Definition Header : Type := list (string * list byte).

Fixpoint Header_Get (h : Header) (key : string) : option (list byte) :=
  match h with
  | [] => None
  | (k, v) :: t => if String.eqb k key then Some v else Header_Get t key
  end.

Definition Header_Set (h : Header) (key : string) (v : list byte) : Header :=
  (key, v) :: filter (fun kv => negb (String.eqb (fst kv) key)) h.

Record Request : Type := mkRequest { header : Header }.

(** What [es.client.Do(req)] returns: an error, or a response with its
    status code, its [Content-Type] header and its body. *)
Inductive DoResult (R : Type) : Type :=
| DoError (e : error)
| DoResponse (StatusCode : Z) (ContentType : string) (Body : R).

Arguments DoError {R} e.

Arguments DoResponse {R} StatusCode ContentType Body.

(** The fields of [EventSource] that the worker reads and writes.
    [callback] tells whether a callback is set; [retryTimeout] is a
    [time.Duration], a signed 64-bit count of nanoseconds.  The HTTP client
    is the environment of the worker and is passed to it. *)
Record EventSource : Type := mkEventSource {
  req : Request;
  callback : bool;
  bp : BufferParameters;
  idBuf : gslice;
  eventBuf : gslice;
  dataBuf : gslice;
  msgErr : option error;
  retryTimeout : Z
}.

Definition Millisecond : Z := 1000000.

Definition Second : Z := 1000 * Millisecond.

(** What the worker does to the outside: requests, calls of the callback,
    and the sleep before the next request. *)
Inductive event : Type :=
| Do (r : Request)
| Call (msg : Message) (e : option error)
| Sleep (d : Z).

Definition growMaybeLimit (s : gslice) (reqCap limit : Z) : gslice :=
  if cap s <? reqCap then
    let newCap := Z.min limit (Z.max reqCap (cap s * 2)) in
    GSlice (elems s) newCap
  else s.

Definition appendLimit (s : gslice) (ns : list byte) (limit : Z)
  : gslice * option error :=
  if negb (len s =? 0) then
    let nlen := len s + 1 + Z.of_nat (length ns) in
    if nlen >? limit then (GNil, Some ErrBufferFull)
    else
      let s := growMaybeLimit s nlen limit in
      let s := append s [LF] in
      let s := append s ns in
      (s, None)
  else
    let nlen := Z.of_nat (length ns) in
    if nlen >? limit then (GNil, Some ErrBufferFull)
    else
      let s := growMaybeLimit s nlen limit in
      let s := append s ns in
      (s, None).

Definition dispatch (es : EventSource) (msg : Message) (e : option error)
  : list event :=
  if callback es then [Call msg e] else [].

(** The value is [None] where the Go function returns a nil slice. *)
Definition splitLine (line : list byte) : list byte * option (list byte) :=
  match Index line ":"%byte with
  | None => (line, None)
  | Some i =>
      let key := firstn i line in
      let value := skipn (i + 1) line in
      if (i + 1 <? length line)%nat && Byte.eqb (nth (i + 1) line x00) " "%byte
      then (key, Some (skipn (i + 2) line))
      else (key, Some value)
  end.

(** The bytes of a possibly nil value. *)
Definition bytes_of (v : option (list byte)) : list byte :=
  match v with Some l => l | None => [] end.

Definition perMessageReset (es : EventSource) : EventSource :=
  {| req := req es; callback := callback es; bp := bp es;
     idBuf := reslice0 (idBuf es);
     eventBuf := reslice0 (eventBuf es);
     dataBuf := reslice0 (dataBuf es);
     msgErr := None; retryTimeout := retryTimeout es |}.

Definition perRequestReset (es : EventSource) : EventSource :=
  {| req := req es; callback := callback es; bp := bp es;
     idBuf := GNil; eventBuf := GNil; dataBuf := GNil;
     msgErr := None; retryTimeout := retryTimeout es |}.

Definition wrap_err (msg : string) (old : option error) (e : option error)
  : option error :=
  match e with
  | Some e' => Some (Wrap msg e')
  | None => old
  end.

(** "Handle all known fields": the chain of comparisons at the end of the
    loop body of [processRequest]. *)
Definition handle_field (es : EventSource) (key : list byte)
  (val : option (list byte)) : EventSource :=
  if Equal key knownFieldNameID then
    let '(b, e) :=
      appendLimit (reslice0 (idBuf es)) (bytes_of val) (MaxID (bp es)) in
    {| req := req es; callback := callback es; bp := bp es;
       idBuf := b; eventBuf := eventBuf es; dataBuf := dataBuf es;
       msgErr := wrap_err "eventsource: id field is too long" (msgErr es) e;
       retryTimeout := retryTimeout es |}
  else if Equal key knownFieldNameEvent then
    let '(b, e) :=
      appendLimit (reslice0 (eventBuf es)) (bytes_of val) (MaxEvent (bp es)) in
    {| req := req es; callback := callback es; bp := bp es;
       idBuf := idBuf es; eventBuf := b; dataBuf := dataBuf es;
       msgErr := wrap_err "eventsource: event field is too long" (msgErr es) e;
       retryTimeout := retryTimeout es |}
  else if Equal key knownFieldNameData then
    let '(b, e) :=
      appendLimit (dataBuf es) (bytes_of val) (MaxData (bp es)) in
    {| req := req es; callback := callback es; bp := bp es;
       idBuf := idBuf es; eventBuf := eventBuf es; dataBuf := b;
       msgErr := wrap_err "eventsource: data field is too long" (msgErr es) e;
       retryTimeout := retryTimeout es |}
  else if Equal key knownFieldNameRetry then
    match ParseInt (bytes_of val) with
    | Some ms =>
        {| req := req es; callback := callback es; bp := bp es;
           idBuf := idBuf es; eventBuf := eventBuf es;
           dataBuf := dataBuf es; msgErr := msgErr es;
           retryTimeout := wrap64 (ms * Millisecond) |}
    | None => es
    end
  else es.

(** The body of the read loop of [processRequest] for a line that
    [ReadLine] returned without error: the state afterwards and the calls
    of the callback. *)
Definition process_line (es : EventSource) (line : list byte)
  : EventSource * list event :=
  if (length line =? 0)%nat then
    (perMessageReset es,
     match msgErr es with
     | None =>
         dispatch es
           {| ID := idBuf es; Event := eventBuf es; Data := dataBuf es |} None
     | Some e => dispatch es noMessage (Some e)
     end)
  else
    match msgErr es with
    | Some _ => (es, [])
    | None =>
        let '(key, val) := splitLine line in
        if (length key =? 0)%nat then (es, [])
        else (handle_field es key val, [])
    end.

(** Several lines in a row. *)
Fixpoint process_lines (es : EventSource) (lines : list (list byte))
  : EventSource * list event :=
  match lines with
  | [] => (es, [])
  | line :: rest =>
      let '(es1, evs1) := process_line es line in
      let '(es2, evs2) := process_lines es1 rest in
      (es2, evs1 ++ evs2)
  end.

(** How a run of [processRequest] ends: it returns [true] or [false], or it
    panics, or the model runs out of fuel on a stream that does not end. *)
Inductive outcome : Type :=
| Returns (again : bool)
| Panics
| OutOfFuel.

Section WithBody.

Context {R : Type} `{Reader R}.

(** The read loop of [processRequest]. *)
Fixpoint read_loop (fuel : nat) (es : EventSource) (rb : ReadBuffer R)
  : outcome * EventSource * list event :=
  match fuel with
  | O => (OutOfFuel, es, [])
  | S fuel' =>
      match ReadLine rb with
      | None => (OutOfFuel, es, [])
      | Some (_, Some e, _) =>
          if errors_Is e Canceled then (Returns false, es, [])
          else if errors_Is e EOF then (Returns true, es, [])
          else
            (Returns true, es,
             dispatch es noMessage
               (Some (Wrap "eventsource: http response body read error" e)))
      | Some (line, None, rb') =>
          let '(es1, evs1) := process_line es line in
          let '(out, es2, evs2) := read_loop fuel' es1 rb' in
          (out, es2, evs1 ++ evs2)
      end
  end.

(** The request of the next attempt: the clone of the prototype, with the
    header [Last-Event-Id] when the identifier buffer is not empty. *)
Definition newRequest (es : EventSource) : Request :=
  if negb (len (idBuf es) =? 0)
  then {| header := Header_Set (header (req es)) "Last-Event-Id" (elems (idBuf es)) |}
  else req es.

(** [processRequest]; [client] is [es.client.Do].  The deferred sleep comes
    last and takes the delay the state has by then. *)
Definition processRequest (fuel : nat) (es : EventSource)
  (client : Request -> DoResult R) : outcome * EventSource * list event :=
  let rq := newRequest es in
  match client rq with
  | DoError e =>
      if errors_Is e Canceled
      then (Returns false, es, [Do rq; Sleep (retryTimeout es)])
      else
        (Returns true, es,
         Do rq
           :: dispatch es noMessage
                (Some (Wrap "eventsource: http response error" e))
           ++ [Sleep (retryTimeout es)])
  | DoResponse status ctype body =>
      if negb (status =? 200) then
        (Returns true, es,
         Do rq :: dispatch es noMessage (Some ErrInvalidStatus)
           ++ [Sleep (retryTimeout es)])
      else if negb (String.eqb ctype "text/event-stream") then
        (Returns true, es,
         Do rq :: dispatch es noMessage (Some ErrInvalidContentType)
           ++ [Sleep (retryTimeout es)])
      else
        let es := perRequestReset es in
        if MaxReadBuffer (bp es) <? 0 then
          (Panics, es, [Do rq; Sleep (retryTimeout es)])
        else
          let rb := Buffer.New body (Z.to_nat (MaxReadBuffer (bp es))) in
          let '(out, es', evs) := read_loop fuel es rb in
          (out, es', Do rq :: evs ++ [Sleep (retryTimeout es')])
  end.

(** The worker started by [New]: [for es.processRequest() {}], against the
    successive behaviours of the HTTP client. *)
Fixpoint worker (fuel : nat) (es : EventSource)
  (clients : list (Request -> DoResult R)) : outcome * EventSource * list event :=
  match clients with
  | [] => (OutOfFuel, es, [])
  | client :: rest =>
      let '(out, es1, evs1) := processRequest fuel es client in
      match out with
      | Returns true =>
          let '(out2, es2, evs2) := worker fuel es1 rest in
          (out2, es2, evs1 ++ evs2)
      | _ => (out, es1, evs1)
      end
  end.

End WithBody.

(** [New], without the start of the worker: the state after the options
    and the defaults.  [req0] is the request prototype, [cb] tells whether
    a callback was given, [bp0] holds the buffer parameters (all 0 when
    none were given); 9 is [len("event: \r\n")]. *)
Definition New (req0 : Request) (cb : bool) (bp0 : BufferParameters)
  : EventSource :=
  let maxID := if MaxID bp0 =? 0 then DefaultMaxID else MaxID bp0 in
  let maxEvent := if MaxEvent bp0 =? 0 then DefaultMaxEvent else MaxEvent bp0 in
  let maxData := if MaxData bp0 =? 0 then DefaultMaxData else MaxData bp0 in
  let maxRead :=
    if MaxReadBuffer bp0 =? 0
    then wrap64 (Z.max (Z.max maxID maxEvent) maxData + 9 + 1)
    else MaxReadBuffer bp0 in
  {| req := req0; callback := cb;
     bp := {| MaxID := maxID; MaxEvent := maxEvent; MaxData := maxData;
              MaxReadBuffer := maxRead |};
     idBuf := GNil; eventBuf := GNil; dataBuf := GNil; msgErr := None;
     retryTimeout := 1 * Second |}.

End EventSource.

(** * The notions of the specification *)

(** ** For the line reader *)

Module BufferSpec.

Import Buffer.

Section WithReader.

Context {R : Type} `{Reader R}.

(** [r <= w <= len(buf) <= maxSize]; the buffer of a reader of positive
    capacity is never empty, and [crLine] is only ever set by a reader of
    positive capacity. *)
Record Inv (b : ReadBuffer R) : Prop := mkInv {
  inv_rw : r b <= w b;
  inv_wlen : w b <= length (buf b);
  inv_len : length (buf b) <= maxSize b;
  inv_pos : 0 < maxSize b -> 0 < length (buf b);
  inv_cr : crLine b = true -> 0 < maxSize b
}.

(** The number of iterations the loop of [ReadLine] may still need. *)
Definition mu (b : ReadBuffer R) : nat :=
  maxSize b - (w b - r b) + (if crLine b then 1 else 0).

(** The states of a reader created by [New] between two calls of
    [ReadLine]. *)
Inductive reachable (rd0 : R) (n : nat) : ReadBuffer R -> Prop :=
| reach_New : reachable rd0 n (New rd0 n)
| reach_ReadLine : forall b l e b',
    reachable rd0 n b -> ReadLine b = Some (l, e, b') -> reachable rd0 n b'.

(** All the states it passes through, those inside a call included: after
    the line-feed block, after [grow] and after [fill]. *)
Inductive transient (rd0 : R) (n : nat) : ReadBuffer R -> Prop :=
| trans_New : transient rd0 n (New rd0 n)
| trans_ReadLine : forall b l e b',
    transient rd0 n b -> ReadLine b = Some (l, e, b') -> transient rd0 n b'
| trans_skip_lf : forall b, transient rd0 n b -> transient rd0 n (skip_lf b)
| trans_grow : forall b, transient rd0 n b -> transient rd0 n (snd (grow b))
| trans_fill : forall b, transient rd0 n b -> transient rd0 n (fill b).

End WithReader.

(** The unread bytes of the buffer, and the bytes still to come. *)
Definition pending (b : ReadBuffer ChunkReader) : list byte :=
  slice (buf b) (r b) (w b).

Definition stream (b : ReadBuffer ChunkReader) : list byte :=
  pending b ++ data (rd b).

(** Every read of the source makes progress. *)
Definition positive_sched (c : ChunkReader) : Prop :=
  Forall (fun k => 0 < k) (sched c).

(** Between two calls of [ReadLine]. *)
Record InvC (b : ReadBuffer ChunkReader) : Prop := mkInvC {
  invc_inv : Inv b;
  invc_err : err b = None;
  invc_sched : positive_sched (rd b)
}.

(** The line reader as the specification words it, on the bytes that are
    still to come ([S]) and the flag "the last terminator was a bare carriage
    return" ([cr]): a line feed right after that carriage return belongs to
    the same terminator ([drop_lf]); a line is the run of bytes before the
    first carriage return or line feed; a run of [N] bytes without
    terminator is cut off with the buffer-full condition; the run before the
    end of the stream comes with the end-of-stream condition ([scan]). *)
Definition drop_lf (cr : bool) (S : list byte) : bool * list byte :=
  if cr then
    match S with
    | [] => (true, [])
    | c :: t => (false, if Byte.eqb c LF then t else S)
    end
  else (false, S).

Definition scan (N : nat) (cr1 : bool) (S1 : list byte)
  : list byte * option error * bool * list byte :=
  match findCRLF (firstn N S1) with
  | Some i =>
      (firstn i S1, None, Byte.eqb (nth i S1 x00) CR, skipn (i + 1) S1)
  | None =>
      if N <=? length S1
      then (firstn N S1, Some ErrBufferFull, cr1, skipn N S1)
      else (S1, Some EOF, cr1, [])
  end.

Definition next_line (N : nat) (cr : bool) (S : list byte)
  : list byte * option error * bool * list byte :=
  let '(cr1, S1) := drop_lf cr S in scan N cr1 S1.

(** The first [k] lines of a stream. *)
Fixpoint lines_n (k N : nat) (cr : bool) (S : list byte)
  : list (list byte * option error) :=
  match k with
  | 0 => []
  | S k' =>
      let '(l, e, cr', S') := next_line N cr S in
      (l, e) :: lines_n k' N cr' S'
  end.

(** A line holds neither a carriage return nor a line feed. *)
Definition no_terminator (l : list byte) : Prop :=
  Forall (fun c => c <> CR /\ c <> LF) l.

(** The three terminators of the wire format. *)
Inductive terminator : list byte -> Prop :=
| term_LF : terminator [LF]
| term_CR : terminator [CR]
| term_CRLF : terminator [CR; LF].

(** The byte sequence of the lines [ls], each followed by [t]. *)
Definition encode (t : list byte) (ls : list (list byte)) : list byte :=
  concat (map (fun l => l ++ t) ls).

(** What [k] reads give on the lines [ls], each with its terminator,
    followed by the unterminated run [tail], whatever the terminator: a line
    shorter than the capacity comes whole, a longer one in pieces of [N]
    bytes with the buffer-full condition; the tail comes with the end of the
    stream, in pieces first when it does not fit, and after it every read
    reports the end of the stream with the empty line (a reader of capacity
    0 never gets that far). *)
Fixpoint lines_abs (k N : nat) (ls : list (list byte)) (tail : list byte)
  : list (list byte * option error) :=
  match k with
  | 0 => []
  | S k' =>
      match ls with
      | [] =>
          if length tail <? N then (tail, Some EOF) :: lines_abs k' N [] []
          else (firstn N tail, Some ErrBufferFull)
                 :: lines_abs k' N [] (skipn N tail)
      | l :: rest =>
          if length l <? N then (l, None) :: lines_abs k' N rest tail
          else (firstn N l, Some ErrBufferFull)
                 :: lines_abs k' N (skipn N l :: rest) tail
      end
  end.

(** The stream [S] with flag [cr] stands for the lines [ls] followed by the
    terminator [t], and then [tail]: it is their encoding once the line feed
    of a pending carriage-return/line-feed pair is dropped. *)
Definition stands_for (t : list byte) (ls : list (list byte))
  (tail : list byte) (cr : bool) (S : list byte) : Prop :=
  snd (drop_lf cr S) = encode t ls ++ tail.

(** The decidable forms of the side conditions. *)
Definition unterminated (l : list byte) : bool :=
  match findCRLF l with None => true | Some _ => false end.

Definition progressing (sc : list nat) : bool := forallb (Nat.ltb 0) sc.

End BufferSpec.

(** ** For the client *)

Module EventSourceSpec.

Import Buffer EventSource.

Local Open Scope Z_scope.

(** The length [appendLimit] checks against the limit. *)
Definition needed (s : gslice) (ns : list byte) : Z :=
  if len s =? 0 then Z.of_nat (length ns)
  else len s + 1 + Z.of_nat (length ns).

(** A line with a field for which [appendLimit] has no room: the value of
    an [id] or [event] field is longer than its cap, or the data collected
    so far with the new value is. *)
Definition field_too_long (es : EventSource) (line : list byte) : bool :=
  let '(key, val) := splitLine line in
  if Equal key knownFieldNameID then
    needed (reslice0 (idBuf es)) (bytes_of val) >? MaxID (bp es)
  else if Equal key knownFieldNameEvent then
    needed (reslice0 (eventBuf es)) (bytes_of val) >? MaxEvent (bp es)
  else if Equal key knownFieldNameData then
    needed (dataBuf es) (bytes_of val) >? MaxData (bp es)
  else false.

(** Two states that differ at most in the nil-ness and the capacity of
    their field buffers. *)
Definition same_content (a b : EventSource) : Prop :=
  req a = req b /\ callback a = callback b /\ bp a = bp b /\
  elems (idBuf a) = elems (idBuf b) /\
  elems (eventBuf a) = elems (eventBuf b) /\
  elems (dataBuf a) = elems (dataBuf b) /\
  msgErr a = msgErr b /\ retryTimeout a = retryTimeout b.

(** Two events that differ at most in the nil-ness and the capacity of the
    fields of a message. *)
Definition same_event (x y : event) : Prop :=
  match x, y with
  | Do r1, Do r2 => r1 = r2
  | Sleep d1, Sleep d2 => d1 = d2
  | Call m1 e1, Call m2 e2 =>
      elems (ID m1) = elems (ID m2) /\ elems (Event m1) = elems (Event m2) /\
      elems (Data m1) = elems (Data m2) /\ e1 = e2
  | _, _ => False
  end.

(** The reading of the [retry] field in the words of the specification: a
    non-negative integer, that is one or more decimal digits, changes the
    delay; anything else leaves the state as it is. *)
Definition retry_as_specified (es : EventSource) (v : list byte) : EventSource :=
  match decimal v with
  | Some ms =>
      {| req := req es; callback := callback es; bp := bp es;
         idBuf := idBuf es; eventBuf := eventBuf es; dataBuf := dataBuf es;
         msgErr := msgErr es; retryTimeout := ms * Millisecond |}
  | None => es
  end.

(** A client with the default parameters and a callback. *)
Definition client0 : EventSource :=
  New (mkRequest []) true (mkBufferParameters 0 0 0 0).

(** A server that answers with the given body, and a transport that reports
    the cancellation of the context. *)
Definition serve (body : list byte) : Request -> DoResult ChunkReader :=
  fun _ => DoResponse 200 "text/event-stream" (strings_NewReader body).

Definition cancelled : Request -> DoResult ChunkReader :=
  fun _ => DoError Canceled.

Definition trace (x : outcome * EventSource * list event) : list event := snd x.

End EventSourceSpec.

(** ** For the trace of the client *)

Module TraceSpec.

Import Buffer EventSource EventSourceSpec.

Local Open Scope Z_scope.

(** An event that is a call of the callback. *)
Definition is_call (x : event) : bool :=
  match x with Call _ _ => true | _ => false end.

(** A blank line, the boundary between two messages. *)
Definition blank (l : list byte) : bool := (length l =? 0)%nat.

(** A slice that respects a limit, in length and in capacity.  A negative
    limit leaves room for the slice without backing array only. *)
Definition within (s : gslice) (limit : Z) : Prop :=
  len s <= cap s /\ cap s <= Z.max 0 limit.

(** The field buffers of a client respect the limits of its parameters. *)
Definition bounded (es : EventSource) : Prop :=
  within (idBuf es) (MaxID (bp es)) /\
  within (eventBuf es) (MaxEvent (bp es)) /\
  within (dataBuf es) (MaxData (bp es)).

(** A call of the callback whose message respects the limits [p]. *)
Definition bounded_event (p : BufferParameters) (x : event) : Prop :=
  match x with
  | Call m _ =>
      within (ID m) (MaxID p) /\ within (Event m) (MaxEvent p) /\
      within (Data m) (MaxData p)
  | _ => True
  end.

(** A call of the callback hands over a message or an error, never both. *)
Definition message_or_error (x : event) : Prop :=
  match x with
  | Call m e => e = None \/ m = noMessage
  | _ => True
  end.

(** What holds of the state after a line and of the calls it makes. *)
Definition line_facts (es es' : EventSource) (evs : list event) : Prop :=
  req es' = req es /\ callback es' = callback es /\ bp es' = bp es /\
  forallb is_call evs = true /\
  Forall message_or_error evs /\
  (callback es = false -> evs = []) /\
  (bounded es -> bounded es' /\ Forall (bounded_event (bp es)) evs).

(** The ways an attempt fails before the body is read, each with the
    error the callback gets: the transport reports an error that is not the
    cancellation of the context, the status is not 200, or the content type
    is not [text/event-stream]. *)
Inductive fails {R : Type} : DoResult R -> error -> Prop :=
| fails_transport : forall e,
    errors_Is e Canceled = false ->
    fails (DoError e) (Wrap "eventsource: http response error" e)
| fails_status : forall status ctype body,
    status <> 200 -> fails (DoResponse status ctype body) ErrInvalidStatus
| fails_content_type : forall ctype body,
    ctype <> "text/event-stream"%string ->
    fails (DoResponse 200 ctype body) ErrInvalidContentType.

(** The line of a field, written with a space after the colon. *)
Definition field_line (f : list byte * list byte) : list byte :=
  fst f ++ bytes ": " ++ snd f.

(** The values of the fields named [key], in order. *)
Definition values_of (key : list byte) (fs : list (list byte * list byte))
  : list (list byte) :=
  map snd (filter (fun f => Equal (fst f) key) fs).

(** The values joined by line feeds. *)
Definition join (vs : list (list byte)) : list byte :=
  match vs with
  | [] => []
  | v :: rest => v ++ flat_map (cons LF) rest
  end.

(** Without the empty values at the front. *)
Fixpoint drop_empty (vs : list (list byte)) : list (list byte) :=
  match vs with
  | [] :: rest => drop_empty rest
  | _ => vs
  end.

(** What one [data] field makes of the data collected so far. *)
Definition data_step (acc v : list byte) : list byte :=
  match acc with
  | [] => v
  | _ :: _ => acc ++ LF :: v
  end.

(** A limit that is a Go [int] and leaves room for the ten bytes [New]
    adds to the largest one. *)
Definition roomy (z : Z) : Prop := - 2 ^ 63 <= z < 2 ^ 63 - 10.

(** A response body whose transport fails: [Read] hands out the bytes that
    are left, and reports the error [failure] once there is none. *)
Record FailingBody : Type := mkFailingBody {
  left : list byte;
  failure : error
}.

Definition FailingBody_Read (c : FailingBody) (n : nat)
  : list byte * option error * FailingBody :=
  match left c with
  | [] => ([], Some (failure c), c)
  | _ :: _ =>
      (firstn n (left c), None,
       {| left := skipn n (left c); failure := failure c |})
  end.

Lemma FailingBody_Read_len (c : FailingBody) (n : nat) :
  (length (fst (fst (FailingBody_Read c n))) <= n)%nat.
Proof.
  unfold FailingBody_Read. destruct (left c); cbn [fst length]; [lia|].
  rewrite length_firstn. lia.
Qed.

#[export] Instance FailingBody_Reader : Reader FailingBody :=
  {| Read := FailingBody_Read; Read_len := FailingBody_Read_len |}.

End TraceSpec.

(** * The proofs *)

(** Splits conjunctions only (records such as invariants stay whole). *)
Ltac split_and := repeat match goal with |- _ /\ _ => split end.

(** ** The line reader *)

Module BufferProofs.

Import Buffer BufferSpec.

(** *** The cursor invariant, for every reader *)

Section Invariant.

Context {R : Type} `{Reader R}.

Lemma length_make (n : nat) : length (make n) = n.
Proof. apply repeat_length. Qed.

Lemma length_copy (dst src : list byte) : length (copy dst src) = length dst.
Proof.
  unfold copy. rewrite length_app, length_firstn, length_skipn. lia.
Qed.

Lemma length_slice (l : list byte) (lo hi : nat) :
  length (slice l lo hi) = Nat.min (hi - lo) (length l - lo).
Proof. unfold slice. now rewrite length_firstn, length_skipn. Qed.

Lemma New_Inv (rd0 : R) (n : nat) : Inv (New rd0 n).
Proof.
  unfold New, defaultBufSize.
  constructor; simpl; rewrite ?length_make; try lia; discriminate.
Qed.

Lemma grow_spec (b : ReadBuffer R) :
  Inv b ->
  let '(ok, b') := grow b in
  Inv b' /\ r b' = r b /\ w b' = w b /\ err b' = err b /\ rd b' = rd b /\
  maxSize b' = maxSize b /\ crLine b' = crLine b /\
  (ok = true -> length (buf b) < length (buf b')) /\
  (ok = false -> b' = b /\ length (buf b) = maxSize b) /\
  (forall n, n <= length (buf b) -> firstn n (buf b') = firstn n (buf b)).
Proof.
  intros [Hrw Hwl Hl Hp Hc]. unfold grow.
  destruct (Nat.leb_spec (maxSize b) (length (buf b))) as [Hge|Hlt].
  - split_and; auto; try discriminate; try lia.
    + constructor; auto.
    + intros _. split; [reflexivity | lia].
  - simpl. rewrite length_copy, length_make.
    split_and; auto; try lia; try discriminate.
    + constructor; simpl; rewrite ?length_copy, ?length_make; auto; lia.
    + intros n Hn. unfold copy. rewrite length_make.
      replace (Nat.min (Nat.min (maxSize b) (length (buf b) * 2)) (length (buf b)))
        with (length (buf b)) by lia.
      rewrite firstn_all, firstn_app.
      replace (n - length (buf b)) with 0 by lia.
      cbn [firstn]. apply app_nil_r.
Qed.

Lemma fill_read_spec (i : nat) : forall b : ReadBuffer R,
  Inv b ->
  let b' := fill_read i b in
  Inv b' /\ r b' = r b /\ w b <= w b' /\ maxSize b' = maxSize b /\
  crLine b' = crLine b /\ length (buf b') = length (buf b) /\
  (err b' = None -> err b = None /\ w b < w b').
Proof.
  induction i as [|i IH]; intros b HI; cbn [fill_read]; cbv zeta.
  - destruct HI. split_and; simpl; auto; try discriminate.
    constructor; auto.
  - pose proof (Read_len (rd b) (length (buf b) - w b)) as Hn.
    destruct (Read (rd b) (length (buf b) - w b)) as [[p e] rd']. simpl in Hn.
    destruct HI as [Hrw Hwl Hl Hp Hc].
    assert (Hlen : length (firstn (w b) (buf b) ++ copy (skipn (w b) (buf b)) p)
                   = length (buf b)).
    { rewrite length_app, length_copy, length_firstn, length_skipn. lia. }
    destruct e as [e'|].
    + split_and; simpl; rewrite ?Hlen; auto; try lia; try discriminate.
      constructor; simpl; rewrite ?Hlen; auto; lia.
    + destruct (Nat.ltb_spec 0 (length p)) as [Hpos|Hz].
      * split_and; simpl; rewrite ?Hlen; auto; try lia.
        -- constructor; simpl; rewrite ?Hlen; auto; lia.
        -- intros He. split; [exact He | lia].
      * match goal with |- context [fill_read i ?b0] =>
          assert (HI' : Inv b0) by
            (constructor; simpl; rewrite ?Hlen; auto; lia);
          specialize (IH b0 HI'); cbv zeta in IH; cbn [r w err maxSize crLine buf] in IH
        end.
        destruct IH as (I1 & I2 & I3 & I4 & I5 & I6 & I7).
        split_and; auto; try lia; try congruence.
        intros He. apply I7 in He. split; [tauto | lia].
Qed.

(** What [fill] does to the cursors: the invariant is kept, the flag and the
    capacity are untouched, and when no error is left behind at least one
    new byte is waiting. *)
Lemma fill_spec (b : ReadBuffer R) :
  Inv b ->
  let b' := fill b in
  Inv b' /\ maxSize b' = maxSize b /\ crLine b' = crLine b /\
  w b - r b <= w b' - r b' /\
  (err b' = None -> err b = None /\ w b - r b < w b' - r b').
Proof.
  intros HI. unfold fill.
  set (b1 := if 0 <? r b then _ else b).
  assert (H1 : Inv b1 /\ r b1 = 0 /\ w b1 = w b - r b /\
               maxSize b1 = maxSize b /\ crLine b1 = crLine b /\
               err b1 = err b).
  { subst b1. destruct HI as [Hrw Hwl Hl Hp Hc].
    destruct (Nat.ltb_spec 0 (r b)).
    - split_and; simpl; auto; try lia.
      constructor; simpl; rewrite ?length_copy; auto; lia.
    - split_and; auto; try lia. constructor; auto. }
  clearbody b1. destruct H1 as (HI1 & Hr1 & Hw1 & Hm1 & Hc1 & He1).
  destruct (Nat.leb_spec (length (buf b1)) (w b1)) as [Hfull|Hroom].
  - pose proof (grow_spec HI1) as Hg.
    destruct (grow b1) as [[|] b2].
    + destruct Hg as (HI2 & G1 & G2 & G3 & G4 & G5 & G6 & G7 & G8 & _).
      pose proof (fill_read_spec maxConsecutiveEmptyReads HI2) as Hf.
      cbv zeta in Hf. destruct Hf as (F1 & F2 & F3 & F4 & F5 & F6 & F7).
      split_and; auto; try congruence; try lia.
      intros He. apply F7 in He. split; [destruct He; congruence | lia].
    + destruct Hg as (_ & _ & _ & _ & _ & _ & _ & _ & G8 & _).
      destruct HI1. split_and; simpl; auto; try lia; try discriminate.
      constructor; auto.
  - pose proof (fill_read_spec maxConsecutiveEmptyReads HI1) as Hf.
    cbv zeta in Hf. destruct Hf as (F1 & F2 & F3 & F4 & F5 & F6 & F7).
    split_and; auto; try congruence; try lia.
    intros He. apply F7 in He. split; [destruct He; congruence | lia].
Qed.

Lemma findCRLF_Some_lt (l : list byte) : forall i,
  findCRLF l = Some i -> i < length l.
Proof.
  induction l as [|c t IH]; simpl; intros i Hf; [discriminate|].
  destruct (Byte.eqb c CR || Byte.eqb c LF).
  - injection Hf as <-. lia.
  - destruct (findCRLF t) as [j|]; [|discriminate].
    injection Hf as <-. specialize (IH j eq_refl). lia.
Qed.

Lemma skip_lf_spec (b : ReadBuffer R) :
  Inv b ->
  let b1 := skip_lf b in
  Inv b1 /\ maxSize b1 = maxSize b /\ err b1 = err b /\ buf b1 = buf b /\
  rd b1 = rd b /\ w b1 = w b /\ mu b1 <= mu b /\
  (crLine b = false -> b1 = b) /\
  (crLine b1 = true -> b1 = b /\ r b = w b).
Proof.
  intros HI. unfold skip_lf. destruct (crLine b) eqn:Hcr.
  - pose proof (length_slice (buf b) (r b) (w b)) as Hls.
    destruct (slice (buf b) (r b) (w b)) as [|c t].
    + cbn [length] in Hls. destruct HI as [Hrw Hwl Hl Hp Hc].
      split_and; auto; try discriminate.
      * constructor; auto.
      * intros _. split; [reflexivity | lia].
    + simpl in Hls. destruct HI as [Hrw Hwl Hl Hp Hc].
      unfold mu; simpl. rewrite Hcr.
      split_and; auto; try discriminate.
      * constructor; simpl; auto; try discriminate.
        destruct (Byte.eqb c LF); lia.
      * destruct (Byte.eqb c LF); lia.
  - split_and; auto. congruence.
Qed.

(** The loop of [ReadLine] ends within its fuel without slicing out of
    range, keeps the invariant, and the line it returns fits the capacity.
    The line-feed block moves the read cursor only when [s] is 0. *)
Lemma ReadLine_loop_total (fuel : nat) : forall (s : nat) (b : ReadBuffer R),
  Inv b ->
  r b + s <= w b ->
  (crLine b = true -> s = 0) ->
  1 <= fuel ->
  (err b = None -> mu b + 2 <= fuel) ->
  exists l e b',
    ReadLine_loop fuel s b = Some (l, e, b') /\
    Inv b' /\ maxSize b' = maxSize b /\ length l <= maxSize b.
Proof.
  induction fuel as [|fuel IH]; intros s b HI Hs Hcr0 H1 Hmu; [lia|].
  cbn [ReadLine_loop]. cbv zeta.
  destruct (skip_lf_spec HI)
    as (HI1 & Hm1 & He1 & Hb1 & Hrd1 & Hw1 & Hmu1 & Hid & Hcr1).
  assert (Hs1 : r (skip_lf b) + s <= w (skip_lf b)).
  { destruct (crLine b) eqn:Hcr.
    - rewrite (Hcr0 eq_refl). destruct HI1. lia.
    - now rewrite (Hid eq_refl). }
  set (b1 := skip_lf b) in *. clearbody b1.
  destruct (Nat.ltb_spec (w b1) (r b1 + s)) as [Hbad|_]; [lia|].
  destruct (findCRLF (slice (buf b1) (r b1 + s) (w b1))) as [i0|] eqn:Hf.
  - apply findCRLF_Some_lt in Hf. rewrite length_slice in Hf.
    destruct HI1 as [Hrw Hwl Hl Hp Hc].
    do 3 eexists. split; [reflexivity|]. split_and; simpl; auto.
    + constructor; simpl; auto; lia.
    + rewrite length_slice. lia.
  - destruct (err b1) as [e|] eqn:Herr.
    + destruct HI1 as [Hrw Hwl Hl Hp Hc].
      do 3 eexists. split; [reflexivity|]. split_and; simpl; auto.
      * constructor; simpl; auto; lia.
      * rewrite length_slice. lia.
    + destruct (fill_spec HI1) as (HI2 & Hm2 & Hc2 & Hge & Hprog).
      assert (Hmu0 : mu b + 2 <= S fuel) by (apply Hmu; congruence).
      destruct (IH (w b1 - r b1) (fill b1) HI2) as (l & e & b' & Hr & HI' & Hm' & Hl').
      * destruct HI2. lia.
      * intros Hcr2. rewrite Hc2 in Hcr2. destruct (Hcr1 Hcr2) as [-> Hrw].
        lia.
      * lia.
      * intros Hnone. apply Hprog in Hnone. destruct Hnone as [_ Hlt].
        unfold mu in *. rewrite Hc2, Hm2.
        destruct HI2 as [Hrw2 Hwl2 Hl2 _ _]. rewrite Hm2 in Hl2.
        destruct (crLine b1); lia.
      * exists l, e, b'. split_and; auto; congruence.
Qed.

Lemma mu_le (b : ReadBuffer R) : mu b <= maxSize b + 1.
Proof. unfold mu. destruct (crLine b); lia. Qed.

(** [ReadLine] returns on every reader that keeps the contract of
    [io.Reader], whatever it delivers. *)
Theorem ReadLine_total (b : ReadBuffer R) :
  Inv b ->
  exists l e b',
    ReadLine b = Some (l, e, b') /\
    Inv b' /\ maxSize b' = maxSize b /\ length l <= maxSize b.
Proof.
  intros HI. unfold ReadLine. apply ReadLine_loop_total; auto; try lia.
  - destruct HI. lia.
  - intros _. pose proof (mu_le b). lia.
Qed.

Lemma reachable_transient (rd0 : R) (n : nat) (b : ReadBuffer R) :
  reachable rd0 n b -> transient rd0 n b.
Proof.
  induction 1; [constructor | eapply trans_ReadLine; eassumption].
Qed.

Lemma transient_Inv (rd0 : R) (n : nat) (b : ReadBuffer R) :
  transient rd0 n b -> Inv b /\ maxSize b = n.
Proof.
  induction 1 as [|b l e b' Hr [HI Hm] Hrl|b Hr [HI Hm]|b Hr [HI Hm]|b Hr [HI Hm]].
  - split; [apply New_Inv | reflexivity].
  - destruct (ReadLine_total HI) as (l0 & e0 & b0 & Hrl0 & HI0 & Hm0 & _).
    rewrite Hrl in Hrl0. injection Hrl0 as -> -> ->.
    split; [assumption | congruence].
  - destruct (skip_lf_spec HI) as (HI1 & Hm1 & _). split; [assumption | congruence].
  - pose proof (grow_spec HI) as Hg. destruct (grow b) as [ok b2].
    destruct Hg as (HI2 & _ & _ & _ & _ & Hm2 & _).
    split; [assumption | cbn [snd]; congruence].
  - destruct (fill_spec HI) as (HI1 & Hm1 & _). split; [assumption | congruence].
Qed.

(** After a call the read cursor has moved or nothing is left unread. *)
Lemma ReadLine_loop_cursor (fuel : nat) :
  forall (s : nat) (b : ReadBuffer R) l e b',
  ReadLine_loop fuel s b = Some (l, e, b') -> 0 < r b' \/ r b' = w b'.
Proof.
  induction fuel as [|fuel IH]; intros s b l e b' Hrun; [discriminate|].
  cbn [ReadLine_loop] in Hrun. cbv zeta in Hrun.
  destruct (w (skip_lf b) <? r (skip_lf b) + s); [discriminate|].
  destruct (findCRLF _) as [i0|].
  - injection Hrun as <- <- <-. cbn [r]. left. lia.
  - destruct (err (skip_lf b)).
    + injection Hrun as <- <- <-. now right.
    + eapply IH; eassumption.
Qed.

End Invariant.

(** *** Slices and the terminator search *)

Lemma slice_skipn_firstn (l : list byte) (lo hi : nat) :
  lo <= hi -> slice l lo hi = skipn lo (firstn hi l).
Proof.
  intros Hle. unfold slice. rewrite skipn_firstn_comm. reflexivity.
Qed.

Lemma slice_empty (l : list byte) (n : nat) : slice l n n = [].
Proof. unfold slice. now rewrite Nat.sub_diag. Qed.

Lemma slice_shift (l : list byte) (lo s hi : nat) :
  slice l (lo + s) hi = skipn s (slice l lo hi).
Proof.
  unfold slice. rewrite skipn_firstn_comm, skipn_skipn.
  f_equal; [lia | f_equal; lia].
Qed.

Lemma slice_prefix (l : list byte) (lo i hi : nat) :
  lo + i <= hi -> slice l lo (lo + i) = firstn i (slice l lo hi).
Proof.
  intros Hle. unfold slice. rewrite firstn_firstn.
  f_equal. lia.
Qed.

Lemma nth_slice (l : list byte) (lo i hi : nat) :
  lo + i < hi -> nth (lo + i) l x00 = nth i (slice l lo hi) x00.
Proof.
  intros Hlt. unfold slice.
  rewrite nth_firstn.
  destruct (Nat.ltb_spec i (hi - lo)); [|lia].
  now rewrite nth_skipn.
Qed.

Lemma findCRLF_app (a b : list byte) :
  findCRLF (a ++ b) =
  match findCRLF a with
  | Some i => Some i
  | None => option_map (Nat.add (length a)) (findCRLF b)
  end.
Proof.
  induction a as [|c t IH]; simpl.
  - destruct (findCRLF b); reflexivity.
  - destruct (Byte.eqb c CR || Byte.eqb c LF); [reflexivity|].
    rewrite IH. destruct (findCRLF t); [reflexivity|].
    destruct (findCRLF b); reflexivity.
Qed.

Lemma findCRLF_split (l : list byte) (s : nat) :
  s <= length l ->
  findCRLF (firstn s l) = None ->
  findCRLF l = option_map (Nat.add s) (findCRLF (skipn s l)).
Proof.
  intros Hs Hn. rewrite <- (firstn_skipn s l) at 1.
  rewrite findCRLF_app, Hn, length_firstn.
  replace (Nat.min s (length l)) with s by lia. reflexivity.
Qed.

Lemma findCRLF_firstn_None (l : list byte) (n : nat) :
  findCRLF l = None -> findCRLF (firstn n l) = None.
Proof.
  revert n. induction l as [|c t IH]; intros [|n]; simpl; auto.
  destruct (Byte.eqb c CR || Byte.eqb c LF); [discriminate|].
  destruct (findCRLF t); [discriminate|]. intros _.
  now rewrite IH.
Qed.

(** *** The reader on a chunked source computes the lines of the stream *)

Lemma fill_read_chunk (i : nat) (b : ReadBuffer ChunkReader) :
  Inv b -> r b = 0 -> w b < length (buf b) -> positive_sched (rd b) ->
  let b' := fill_read (S i) b in
  r b' = 0 /\ positive_sched (rd b') /\
  ((err b' = Some EOF /\ pending b' = pending b /\ rd b' = rd b /\
    data (rd b) = []) \/
   (err b' = err b /\
    exists p, p <> [] /\ pending b' = pending b ++ p /\
              data (rd b) = p ++ data (rd b'))).
Proof.
  intros [Hrw Hwl Hl Hp Hc] Hr0 Hroom Hs.
  cbn [fill_read]. unfold Read, ChunkReader_Reader, ChunkReader_Read.
  unfold pending. rewrite Hr0.
  destruct (data (rd b)) as [|c t] eqn:Hd.
  - cbn [length err r w buf rd]. rewrite Nat.add_0_r.
    assert (Hb : firstn (w b) (buf b) ++ copy (skipn (w b) (buf b)) [] = buf b).
    { unfold copy. cbn [length]. rewrite Nat.min_0_r. cbn [firstn skipn app].
      apply firstn_skipn. }
    rewrite Hb. split_and; auto.
  - set (k := Nat.min (length (buf b) - w b) (hd (length (buf b) - w b) (sched (rd b)))).
    assert (Hk : 0 < k).
    { subst k. unfold positive_sched in Hs.
      destruct (sched (rd b)) as [|k0 ks]; cbn [hd]; [lia|].
      inversion Hs; subst. lia. }
    set (p := firstn k (c :: t)).
    assert (Hpl : 0 < length p /\ length p <= length (buf b) - w b).
    { subst p. rewrite length_firstn. cbn [length]. subst k. lia. }
    destruct (Nat.ltb_spec 0 (length p)) as [_|]; [|lia].
    cbn [length err r w buf rd data sched].
    split_and; auto.
    + unfold positive_sched in *. cbn [sched].
      destruct (sched (rd b)); cbn [tl]; [constructor|]. now inversion Hs.
    + right. split; [reflexivity|]. exists p. split_and.
      * intros Hnil. rewrite Hnil in Hpl. cbn in Hpl. lia.
      * unfold slice, copy. cbn [skipn]. rewrite !Nat.sub_0_r.
        rewrite length_skipn.
        replace (Nat.min (length (buf b) - w b) (length p)) with (length p) by lia.
        rewrite (firstn_all2 p) by lia.
        rewrite app_assoc.
        rewrite firstn_app.
        rewrite length_app, length_firstn.
        replace (Nat.min (w b) (length (buf b))) with (w b) by lia.
        replace (w b + length p - (w b + length p)) with 0 by lia.
        cbn [firstn]. rewrite app_nil_r.
        apply firstn_all2. rewrite length_app, length_firstn. lia.
      * subst p. symmetry. apply firstn_skipn.
Qed.

Lemma fill_chunk (b : ReadBuffer ChunkReader) :
  Inv b -> positive_sched (rd b) -> err b = None ->
  let b' := fill b in
  Inv b' /\ maxSize b' = maxSize b /\ crLine b' = crLine b /\ r b' = 0 /\
  positive_sched (rd b') /\
  ((err b' = Some ErrBufferFull /\ pending b' = pending b /\ rd b' = rd b /\
    length (pending b) = maxSize b) \/
   (err b' = Some EOF /\ pending b' = pending b /\ rd b' = rd b /\
    data (rd b) = [] /\ length (pending b) < maxSize b) \/
   (err b' = None /\
    exists p, p <> [] /\ pending b' = pending b ++ p /\
              data (rd b) = p ++ data (rd b'))).
Proof.
  intros HI Hs He.
  destruct (fill_spec HI) as (HI' & Hm' & Hc' & _ & _).
  split; [exact HI'|]. split; [exact Hm'|]. split; [exact Hc'|].
  clear HI' Hm' Hc'. unfold fill.
  set (b1 := if 0 <? r b then _ else b).
  assert (H1 : Inv b1 /\ r b1 = 0 /\ w b1 = length (pending b) /\
               pending b1 = pending b /\ rd b1 = rd b /\
               maxSize b1 = maxSize b /\ err b1 = None).
  { subst b1. destruct HI as [Hrw Hwl Hl Hp Hc].
    assert (Hpl : length (pending b) = w b - r b).
    { unfold pending. rewrite length_slice. lia. }
    destruct (Nat.ltb_spec 0 (r b)).
    - split_and; cbn [r w rd maxSize err]; auto.
      + constructor; cbn [r w buf maxSize crLine]; rewrite ?length_copy;
          auto; lia.
      + unfold pending at 1. cbn [r w buf]. fold (pending b).
        unfold slice, copy. cbn [skipn]. rewrite !Nat.sub_0_r.
        replace (Nat.min (length (buf b)) (length (pending b)))
          with (length (pending b)) by lia.
        rewrite (firstn_all2 (pending b)) by lia.
        rewrite firstn_app, <- Hpl, Nat.sub_diag. cbn [firstn].
        rewrite app_nil_r. apply firstn_all2. lia.
    - split_and; auto; try lia. constructor; auto. }
  clearbody b1. destruct H1 as (HI1 & Hr1 & Hw1 & Hp1 & Hrd1 & Hm1 & He1).
  assert (Hs1 : positive_sched (rd b1)) by now rewrite Hrd1.
  assert (Hstep : forall b2 : ReadBuffer ChunkReader,
            Inv b2 -> r b2 = 0 -> w b2 < length (buf b2) ->
            rd b2 = rd b1 -> err b2 = None -> pending b2 = pending b1 ->
            maxSize b2 = maxSize b1 -> length (pending b) < length (buf b2) ->
            let b' := fill_read maxConsecutiveEmptyReads b2 in
            r b' = 0 /\ positive_sched (rd b') /\
            ((err b' = Some ErrBufferFull /\ pending b' = pending b /\
              rd b' = rd b /\ length (pending b) = maxSize b) \/
             (err b' = Some EOF /\ pending b' = pending b /\ rd b' = rd b /\
              data (rd b) = [] /\ length (pending b) < maxSize b) \/
             (err b' = None /\
              exists p, p <> [] /\ pending b' = pending b ++ p /\
                        data (rd b) = p ++ data (rd b')))).
  { intros b2 HI2 Hr2 Hroom2 Hrd2 He2 Hp2 Hm2 Hlt2.
    assert (Hs2 : positive_sched (rd b2)) by now rewrite Hrd2.
    change maxConsecutiveEmptyReads with (S 99).
    destruct (fill_read_chunk 99 HI2 Hr2 Hroom2 Hs2) as (F1 & F2 & F3).
    cbv zeta. split; [exact F1|]. split; [exact F2|].
    destruct F3 as [(Fe & Fp & Frd & Fd) | (Fe & q & Fq & Fp & Fd)].
    - right; left. split_and; try congruence.
      destruct HI2 as [_ _ Hl2 _ _]. lia.
    - right; right. split; [congruence|].
      exists q. split_and; auto; congruence. }
  destruct (Nat.leb_spec (length (buf b1)) (w b1)) as [Hfull|Hroom].
  - pose proof (grow_spec HI1) as Hg.
    destruct (grow b1) as [[|] b2].
    + destruct Hg as (HI2 & G1 & G2 & G3 & G4 & G5 & G6 & G7 & _ & G9).
      specialize (G7 eq_refl).
      assert (Hwb : w b1 <= length (buf b1)) by (destruct HI1; assumption).
      apply Hstep; auto; try congruence; try lia.
      unfold pending. rewrite G1, G2, Hr1. unfold slice. cbn [skipn].
      apply G9. lia.
    + destruct Hg as (_ & _ & _ & _ & _ & _ & _ & _ & G8 & _).
      destruct (G8 eq_refl) as [_ Hmax].
      cbn [r rd err]. split; [exact Hr1|]. split; [exact Hs1|].
      left. split_and; auto.
      destruct HI1. lia.
  - apply Hstep; auto; lia.
Qed.

Lemma next_line_found (N : nat) (P D : list byte) (i : nat) :
  findCRLF P = Some i -> length P <= N ->
  next_line N false (P ++ D) =
  (firstn i P, None, Byte.eqb (nth i P x00) CR, skipn (i + 1) P ++ D).
Proof.
  intros Hf Hlen. pose proof (findCRLF_Some_lt _ Hf) as Hi.
  unfold next_line, drop_lf, scan.
  rewrite firstn_app, (firstn_all2 (n := N) P) by lia.
  rewrite findCRLF_app, Hf.
  rewrite firstn_app, skipn_app, app_nth1 by lia.
  replace (i - length P) with 0 by lia.
  replace (i + 1 - length P) with 0 by lia.
  cbn [firstn skipn]. now rewrite app_nil_r.
Qed.

Lemma next_line_full (N : nat) (P D : list byte) :
  findCRLF P = None -> length P = N ->
  next_line N false (P ++ D) = (P, Some ErrBufferFull, false, D).
Proof.
  intros Hf Hlen. unfold next_line, drop_lf, scan.
  rewrite firstn_app, skipn_app, length_app.
  rewrite (firstn_all2 (n := N) P), (skipn_all2 (n := N) P) by lia.
  replace (N - length P) with 0 by lia. cbn [firstn skipn app].
  rewrite app_nil_r, Hf.
  destruct (Nat.leb_spec N (length P + length D)); [reflexivity | lia].
Qed.

Lemma next_line_eof (N : nat) (cr : bool) (P : list byte) :
  findCRLF P = None -> length P < N -> (cr = true -> P = []) ->
  next_line N cr P = (P, Some EOF, cr, []).
Proof.
  intros Hf Hlen Hcr. unfold next_line, drop_lf, scan.
  destruct cr.
  - rewrite (Hcr eq_refl). rewrite firstn_nil. cbn [findCRLF length].
    destruct (Nat.leb_spec N 0); [lia | reflexivity].
  - rewrite firstn_all2 by lia. rewrite Hf.
    destruct (Nat.leb_spec N (length P)); [lia | reflexivity].
Qed.

Lemma pending_length (b : ReadBuffer ChunkReader) :
  Inv b -> length (pending b) = w b - r b.
Proof.
  intros [Hrw Hwl _ _ _]. unfold pending. rewrite length_slice. lia.
Qed.

(** The line-feed block of the loop, seen on the stream. *)
Lemma skip_lf_chunk (b : ReadBuffer ChunkReader) (s : nat) :
  InvC b ->
  s <= length (pending b) ->
  findCRLF (firstn s (pending b)) = None ->
  (crLine b = true -> s = 0) ->
  let b1 := skip_lf b in
  InvC b1 /\ maxSize b1 = maxSize b /\
  next_line (maxSize b) (crLine b1) (stream b1) =
    next_line (maxSize b) (crLine b) (stream b) /\
  (crLine b1 = true -> pending b1 = []) /\
  s <= length (pending b1) /\
  findCRLF (firstn s (pending b1)) = None.
Proof.
  intros [HI He Hs] Hle Hscan Hs0.
  destruct (skip_lf_spec HI) as (HI1 & Hm1 & He1 & _ & Hrd1 & _ & _).
  cbv zeta. split; [|split; [exact Hm1|]].
  { constructor; [exact HI1 | congruence | now rewrite Hrd1]. }
  clear HI1 Hm1 He1 Hrd1.
  unfold skip_lf, stream. fold (pending b).
  destruct (crLine b) eqn:Hcr.
  - specialize (Hs0 eq_refl). subst s.
    destruct (pending b) as [|c t] eqn:HP.
    + rewrite Hcr. unfold stream. rewrite HP. split_and; auto.
    + cbn [crLine rd]. unfold pending at 1 2 3. cbn [buf r w].
      assert (Ht : slice (buf b) (r b + 1) (w b) = t).
      { rewrite slice_shift. fold (pending b). now rewrite HP. }
      destruct (Byte.eqb c LF) eqn:Hc.
      * rewrite Ht. split_and; auto; try discriminate; try lia.
        unfold next_line, drop_lf, scan. cbn [app]. now rewrite Hc.
      * fold (pending b). rewrite HP. split_and; auto; try discriminate.
        unfold next_line, drop_lf, scan. cbn [app]. now rewrite Hc.
  - rewrite Hcr. unfold stream. split_and; auto. discriminate.
Qed.

(** An iteration that finds an error pending and nothing new to scan. *)
Lemma ReadLine_loop_err (f s : nat) (b : ReadBuffer ChunkReader) (e : error) :
  err b = Some e ->
  r b + s <= w b ->
  findCRLF (slice (buf b) (r b + s) (w b)) = None ->
  (crLine b = true -> pending b = []) ->
  ReadLine_loop (S f) s b =
  Some (pending b, Some e,
        {| buf := buf b; rd := rd b; r := w b; w := w b; err := None;
           maxSize := maxSize b; crLine := crLine b |}).
Proof.
  intros He Hs Hf Hcr.
  assert (Hid : skip_lf b = b).
  { unfold skip_lf. destruct (crLine b); [|reflexivity].
    fold (pending b). now rewrite (Hcr eq_refl). }
  cbn [ReadLine_loop]. cbv zeta. rewrite Hid, Hf, He.
  destruct (Nat.ltb_spec (w b) (r b + s)); [lia | reflexivity].
Qed.

(** The loop of [ReadLine] computes [next_line] of the stream: the refinement
    between the buffer with its cursors and the bytes it stands for. *)
Lemma ReadLine_loop_refines (fuel : nat) :
  forall (s : nat) (b : ReadBuffer ChunkReader) l e b',
  InvC b ->
  s <= length (pending b) ->
  findCRLF (firstn s (pending b)) = None ->
  (crLine b = true -> s = 0) ->
  ReadLine_loop fuel s b = Some (l, e, b') ->
  next_line (maxSize b) (crLine b) (stream b) = (l, e, crLine b', stream b') /\
  InvC b' /\ maxSize b' = maxSize b.
Proof.
  induction fuel as [|fuel IH]; intros s b l e b' HC Hle Hscan Hs0 Hrun;
    [discriminate|].
  cbn [ReadLine_loop] in Hrun. cbv zeta in Hrun.
  destruct (skip_lf_chunk HC Hle Hscan Hs0) as (HC1 & Hm1 & Hnl & Hcr1 & Hle1 & Hscan1).
  rewrite <- Hnl, <- Hm1. clear Hnl Hle Hscan Hs0 HC.
  set (b1 := skip_lf b) in *. clearbody b1. clear Hm1 b.
  destruct HC1 as [HI1 He1 Hs1].
  pose proof (pending_length HI1) as HPl.
  assert (Hcap : length (pending b1) <= maxSize b1).
  { destruct HI1. lia. }
  destruct (w b1 <? r b1 + s); [discriminate|].
  rewrite slice_shift in Hrun. fold (pending b1) in Hrun.
  pose proof (findCRLF_split (pending b1) Hle1 Hscan1) as Hsplit.
  destruct (findCRLF (skipn s (pending b1))) as [i0|] eqn:Hf.
  - (* a terminator is in the buffer *)
    cbn [option_map] in Hsplit.
    pose proof (findCRLF_Some_lt _ Hsplit) as Hi.
    injection Hrun as <- <- <-.
    assert (Hcr : crLine b1 = false).
    { destruct (crLine b1); [|reflexivity].
      rewrite (Hcr1 eq_refl) in Hi. cbn in Hi. lia. }
    unfold stream at 1. rewrite Hcr.
    rewrite (@next_line_found (maxSize b1) (pending b1) (data (rd b1)) (s + i0) Hsplit Hcap).
    replace (i0 + s) with (s + i0) by lia.
    unfold stream, pending in *. cbn [buf r w rd crLine maxSize].
    rewrite (@slice_prefix (buf b1) (r b1) (s + i0) (w b1)) by lia.
    rewrite (@nth_slice (buf b1) (r b1) (s + i0) (w b1)) by lia.
    replace (r b1 + (s + i0) + 1) with (r b1 + (s + i0 + 1)) by lia.
    rewrite (slice_shift (buf b1) (r b1) (s + i0 + 1) (w b1)).
    split; [reflexivity|]. split; [|reflexivity].
    destruct HI1 as [Hrw Hwl Hl Hp Hc].
    constructor; cbn [err rd]; auto.
    constructor; cbn [r w buf maxSize crLine]; auto; lia.
  - (* nothing in the buffer: read more *)
    cbn [option_map] in Hsplit. rewrite He1 in Hrun.
    destruct (fill_chunk HI1 Hs1 He1) as (HI2 & Hm2 & Hc2 & Hr2 & Hs2 & Hcase).
    assert (Herr : forall ee,
              err (fill b1) = Some ee -> pending (fill b1) = pending b1 ->
              rd (fill b1) = rd b1 ->
              l = pending b1 /\ e = Some ee /\ crLine b' = crLine b1 /\
              stream b' = data (rd b1) /\ InvC b' /\ maxSize b' = maxSize b1).
    { intros ee Hee Hpe Hrde.
      destruct fuel as [|fuel']; [discriminate|].
      rewrite (@ReadLine_loop_err fuel' (w b1 - r b1) (fill b1) ee Hee) in Hrun.
      - injection Hrun as <- <- <-.
        split_and; auto.
        + unfold stream, pending. cbn [buf r w rd].
          rewrite slice_empty. cbn [app]. congruence.
        + destruct HI2 as [Hrw Hwl Hl Hp Hc].
          constructor; cbn [err rd]; auto.
          constructor; cbn [r w buf maxSize crLine]; auto; lia.
      - rewrite <- HPl, <- Hpe, (pending_length HI2). lia.
      - rewrite slice_shift. fold (pending (fill b1)).
        rewrite Hpe, <- HPl. now rewrite skipn_all.
      - intros Hcr. rewrite Hpe. apply Hcr1. congruence. }
    destruct Hcase as [(Hee & Hpe & Hrde & Hfull) | [(Hee & Hpe & Hrde & Hd & Hlt)
                      | (Hee & p & Hp & Hpe & Hd)]].
    + (* the buffer is full *)
      destruct (Herr _ Hee Hpe Hrde) as (-> & -> & -> & -> & HCb' & Hmb').
      assert (Hcr : crLine b1 = false).
      { destruct (crLine b1) eqn:Hcr; [|reflexivity].
        destruct HI1 as [_ _ _ _ Hc]. specialize (Hc Hcr).
        rewrite (Hcr1 eq_refl) in Hfull. cbn in Hfull. lia. }
      unfold stream at 1. rewrite Hcr.
      rewrite (@next_line_full (maxSize b1) (pending b1) (data (rd b1)) Hsplit Hfull).
      auto.
    + (* the source is exhausted *)
      destruct (Herr _ Hee Hpe Hrde) as (-> & -> & -> & -> & HCb' & Hmb').
      unfold stream at 1. rewrite Hd, app_nil_r.
      rewrite (@next_line_eof (maxSize b1) (crLine b1) (pending b1) Hsplit Hlt Hcr1).
      auto.
    + (* new bytes arrived *)
      assert (HC2 : InvC (fill b1)) by (constructor; auto).
      destruct (IH (w b1 - r b1) (fill b1) l e b' HC2) as (Hnl & HCb' & Hmb'); auto.
      * rewrite Hpe, length_app. lia.
      * rewrite Hpe, <- HPl, firstn_app, Nat.sub_diag, firstn_all.
        cbn [firstn]. now rewrite app_nil_r.
      * intros Hcr. rewrite Hc2 in Hcr. rewrite <- HPl, (Hcr1 Hcr). reflexivity.
      * assert (Hst : stream (fill b1) = stream b1).
        { unfold stream. rewrite Hpe, Hd. now rewrite app_assoc. }
        rewrite Hst, Hm2, Hc2 in Hnl.
        split; [exact Hnl|]. split; [exact HCb' | congruence].
Qed.

(** [ReadLine] on a chunked source: it returns, and what it returns is the
    next line of the stream. *)
Theorem ReadLine_refines (b : ReadBuffer ChunkReader) :
  InvC b ->
  exists l e b',
    ReadLine b = Some (l, e, b') /\
    next_line (maxSize b) (crLine b) (stream b) = (l, e, crLine b', stream b') /\
    InvC b' /\ maxSize b' = maxSize b.
Proof.
  intros HC.
  destruct (ReadLine_total (invc_inv HC)) as (l & e & b' & Hrun & _).
  exists l, e, b'. split; [exact Hrun|].
  unfold ReadLine in Hrun.
  apply (@ReadLine_loop_refines (maxSize b + 3) 0 b l e b' HC); auto.
  lia.
Qed.

Lemma New_InvC (c : ChunkReader) (n : nat) :
  positive_sched c -> InvC (New c n).
Proof.
  intros Hs. constructor; [apply New_Inv | reflexivity | exact Hs].
Qed.

Lemma New_stream (c : ChunkReader) (n : nat) : stream (New c n) = data c.
Proof. reflexivity. Qed.

(** [k] calls in a row return the first [k] lines of the stream. *)
Theorem read_n_refines (k : nat) : forall b : ReadBuffer ChunkReader,
  InvC b ->
  exists b',
    read_n k b = Some (lines_n k (maxSize b) (crLine b) (stream b), b') /\
    InvC b' /\ maxSize b' = maxSize b.
Proof.
  induction k as [|k IH]; intros b HC.
  - exists b. auto.
  - destruct (ReadLine_refines HC) as (l & e & b1 & Hrun & Hnl & HC1 & Hm1).
    destruct (IH b1 HC1) as (b2 & Hrest & HC2 & Hm2).
    exists b2. cbn [read_n lines_n]. rewrite Hrun, Hrest, Hnl, Hm1.
    split; [reflexivity|]. split; [exact HC2 | congruence].
Qed.

(** *** Lines and their terminators *)

Lemma eqb_byte_false (a b : byte) : a <> b -> Byte.eqb a b = false.
Proof.
  intros Hne. destruct (Byte.eqb a b) eqn:E; [|reflexivity].
  apply Byte.byte_dec_bl in E. contradiction.
Qed.

Lemma no_terminator_findCRLF (l : list byte) :
  no_terminator l <-> findCRLF l = None.
Proof.
  unfold no_terminator. induction l as [|c t IH]; cbn [findCRLF].
  - split; auto.
  - split.
    + intros Hall. inversion Hall as [|? ? [Hcr Hlf] Ht]; subst.
      rewrite (eqb_byte_false Hcr), (eqb_byte_false Hlf). cbn [orb].
      apply IH in Ht. now rewrite Ht.
    + destruct (Byte.eqb c CR) eqn:E1; [discriminate|].
      destruct (Byte.eqb c LF) eqn:E2; [discriminate|]. cbn [orb].
      destruct (findCRLF t); [discriminate|]. intros _.
      constructor; [|now apply IH].
      split; intros ->; discriminate.
Qed.

Lemma no_terminator_skipn (n : nat) (l : list byte) :
  no_terminator l -> no_terminator (skipn n l).
Proof.
  unfold no_terminator. revert l. induction n as [|n IH]; intros [|c t] Hl; auto.
  cbn [skipn]. apply IH. now inversion Hl.
Qed.

(** Scanning a stream that starts with a line and the first byte of its
    terminator. *)
Lemma scan_line (N : nat) (cr1 : bool) (l : list byte) (tc : byte) (Y : list byte) :
  no_terminator l -> tc = CR \/ tc = LF ->
  scan N cr1 (l ++ tc :: Y) =
  if length l <? N then (l, None, Byte.eqb tc CR, Y)
  else (firstn N l, Some ErrBufferFull, cr1, skipn N l ++ tc :: Y).
Proof.
  intros Hl Htc. apply no_terminator_findCRLF in Hl. unfold scan.
  assert (Hhd : Byte.eqb tc CR || Byte.eqb tc LF = true).
  { destruct Htc as [-> | ->]; reflexivity. }
  rewrite firstn_app.
  destruct (Nat.ltb_spec (length l) N) as [Hlt|Hge].
  - rewrite (firstn_all2 l) by lia.
    destruct (N - length l) as [|m] eqn:Hm; [lia|]. cbn [firstn].
    rewrite findCRLF_app, Hl. cbn [findCRLF]. rewrite Hhd. cbn [option_map].
    rewrite Nat.add_0_r, firstn_app, Nat.sub_diag, firstn_all.
    cbn [firstn]. rewrite app_nil_r, app_nth2, Nat.sub_diag by lia.
    cbn [nth]. rewrite skipn_app, (skipn_all2 l) by lia.
    replace (length l + 1 - length l) with 1 by lia. reflexivity.
  - replace (N - length l) with 0 by lia. cbn [firstn]. rewrite app_nil_r.
    rewrite (@findCRLF_firstn_None l N Hl), length_app.
    destruct (Nat.leb_spec N (length l + length (tc :: Y))) as [_|Hbad];
      [|cbn [length] in Hbad; lia].
    rewrite skipn_app. replace (N - length l) with 0 by lia. reflexivity.
Qed.

Lemma drop_lf_true_nil (cr : bool) (S : list byte) :
  fst (drop_lf cr S) = true -> snd (drop_lf cr S) = [].
Proof.
  unfold drop_lf. destruct cr; [|discriminate].
  destruct S; [reflexivity | discriminate].
Qed.

Lemma encode_CR_head (ls : list (list byte)) (tail : list byte) :
  Forall no_terminator ls -> no_terminator tail ->
  snd (drop_lf true (encode [CR] ls ++ tail)) = encode [CR] ls ++ tail.
Proof.
  intros Hls Htail. unfold drop_lf.
  destruct (encode [CR] ls ++ tail) as [|c rest] eqn:He; [reflexivity|].
  cbn [snd]. destruct (Byte.eqb c LF) eqn:Hc; [|reflexivity].
  apply Byte.byte_dec_bl in Hc. subst c. exfalso.
  destruct ls as [|l ls'].
  - cbn in He. subst tail. inversion Htail as [|? ? [_ Hne] _]. now apply Hne.
  - unfold encode in He. cbn [map concat] in He.
    inversion Hls as [|? ? Hl _]; subst.
    destruct l as [|c0 l0]; cbn in He.
    + discriminate.
    + injection He as -> _. inversion Hl as [|? ? [_ Hne] _]. now apply Hne.
Qed.

Lemma next_line_encode (t : list byte) (N : nat) (cr : bool) (S l : list byte)
  (rest : list (list byte)) (tail : list byte) :
  terminator t -> no_terminator l -> Forall no_terminator rest ->
  no_terminator tail ->
  stands_for t (l :: rest) tail cr S ->
  exists cr' S',
    next_line N cr S =
      (if length l <? N then l else firstn N l,
       if length l <? N then None else Some ErrBufferFull, cr', S') /\
    stands_for t (if length l <? N then rest else skipn N l :: rest) tail cr' S'.
Proof.
  intros Ht Hl Hrest Htail Hrel. unfold stands_for in *. unfold next_line.
  pose proof (drop_lf_true_nil cr S) as Hnil.
  destruct (drop_lf cr S) as [cr1 S1]. cbn [fst snd] in *. subst S1.
  assert (Hcr1 : cr1 = false).
  { destruct cr1; [|reflexivity]. specialize (Hnil eq_refl).
    unfold encode in Hnil. cbn [map concat] in Hnil.
    destruct Ht; destruct l; discriminate. }
  subst cr1. clear Hnil.
  unfold encode. cbn [map concat]. fold (encode t rest).
  rewrite <- !app_assoc.
  destruct Ht; cbn [app].
  - rewrite (@scan_line N false l LF (encode [LF] rest ++ tail) Hl) by auto.
    destruct (length l <? N); do 2 eexists; (split; [reflexivity|]).
    + reflexivity.
    + unfold encode. cbn [map concat drop_lf snd]. now rewrite <- !app_assoc.
  - rewrite (@scan_line N false l CR (encode [CR] rest ++ tail) Hl) by auto.
    destruct (length l <? N); do 2 eexists; (split; [reflexivity|]).
    + now apply encode_CR_head.
    + unfold encode. cbn [map concat drop_lf snd]. now rewrite <- !app_assoc.
  - rewrite (@scan_line N false l CR (LF :: encode [CR; LF] rest ++ tail) Hl)
      by auto.
    destruct (length l <? N); do 2 eexists; (split; [reflexivity|]).
    + reflexivity.
    + unfold encode. cbn [map concat drop_lf snd]. now rewrite <- !app_assoc.
Qed.

Lemma next_line_tail (t : list byte) (N : nat) (cr : bool) (S tail : list byte) :
  no_terminator tail ->
  stands_for t [] tail cr S ->
  exists cr' S',
    next_line N cr S =
      (if length tail <? N then tail else firstn N tail,
       Some (if length tail <? N then EOF else ErrBufferFull), cr', S') /\
    stands_for t [] (if length tail <? N then [] else skipn N tail) cr' S'.
Proof.
  unfold stands_for, next_line. intros Htail Hrel.
  pose proof (drop_lf_true_nil cr S) as Hnil.
  destruct (drop_lf cr S) as [cr1 S1]. cbn [fst snd] in *.
  unfold encode in Hrel. cbn [map concat app] in Hrel. subst S1.
  apply no_terminator_findCRLF in Htail. unfold scan.
  rewrite (@findCRLF_firstn_None tail N Htail).
  destruct (Nat.ltb_spec (length tail) N) as [Hlt|Hge].
  - destruct (Nat.leb_spec N (length tail)); [lia|].
    exists cr1, []. split; [reflexivity|]. destruct cr1; reflexivity.
  - destruct (Nat.leb_spec N (length tail)); [|lia].
    exists cr1, (skipn N tail). split; [reflexivity|].
    unfold encode. cbn [map concat app].
    destruct cr1; [|reflexivity].
    rewrite (Hnil eq_refl). now rewrite skipn_nil.
Qed.

(** The lines of a stream do not depend on the terminator in use. *)
Lemma lines_n_encode (t : list byte) (N k : nat) :
  terminator t ->
  forall (ls : list (list byte)) (tail : list byte) (cr : bool) (S : list byte),
  Forall no_terminator ls -> no_terminator tail ->
  stands_for t ls tail cr S ->
  lines_n k N cr S = lines_abs k N ls tail.
Proof.
  intros Ht. induction k as [|k IH]; intros ls tail cr S Hls Htail Hrel;
    [reflexivity|].
  cbn [lines_n lines_abs]. destruct ls as [|l rest].
  - destruct (@next_line_tail t N cr S tail Htail Hrel) as (cr' & S' & Hnl & Hrel').
    rewrite Hnl. destruct (length tail <? N); f_equal; apply IH; auto.
    + constructor.
    + now apply no_terminator_skipn.
  - inversion Hls as [|? ? Hl Hrest]; subst.
    destruct (@next_line_encode t N cr S l rest tail Ht Hl Hrest Htail Hrel)
      as (cr' & S' & Hnl & Hrel').
    rewrite Hnl. destruct (length l <? N); f_equal; apply IH; auto.
    constructor; auto. now apply no_terminator_skipn.
Qed.

Lemma stands_for_encode (t : list byte) (ls : list (list byte)) (tail : list byte) :
  stands_for t ls tail false (encode t ls ++ tail).
Proof. reflexivity. Qed.

(** When every line and the tail fit the buffer, the reads return the lines
    themselves, then the tail with the end of the stream, and from then on
    the empty line with the end of the stream. *)
Lemma lines_abs_fit (N : nat) (ls : list (list byte)) (tail : list byte) :
  Forall (fun l => length l < N) ls -> length tail < N ->
  lines_abs (length ls + 2) N ls tail =
  map (fun l => (l, None)) ls ++ [(tail, Some EOF); ([], Some EOF)].
Proof.
  intros Hfit Htail. induction ls as [|l rest IH].
  - cbn [length Nat.add lines_abs map app].
    destruct (Nat.ltb_spec (length tail) N); [|lia].
    cbn [length]. destruct (Nat.ltb_spec 0 N); [reflexivity | lia].
  - inversion Hfit as [|? ? Hl Hrest]; subst. cbn [length Nat.add lines_abs].
    destruct (Nat.ltb_spec (length l) N); [|lia].
    cbn [map app]. f_equal. now apply IH.
Qed.

Lemma unterminated_spec (l : list byte) :
  unterminated l = true <-> no_terminator l.
Proof.
  rewrite no_terminator_findCRLF. unfold unterminated.
  destruct (findCRLF l); split; congruence.
Qed.

Lemma unterminated_all (ls : list (list byte)) :
  forallb unterminated ls = true -> Forall no_terminator ls.
Proof.
  rewrite forallb_forall, Forall_forall. intros Hall l Hin.
  apply unterminated_spec. now apply Hall.
Qed.

Lemma progressing_spec (d : list byte) (sc : list nat) :
  progressing sc = true -> positive_sched (mkChunkReader d sc).
Proof.
  unfold progressing, positive_sched. cbn [sched].
  rewrite forallb_forall, Forall_forall. intros Hall k Hin.
  apply Nat.ltb_lt. now apply Hall.
Qed.

Lemma reachable_InvC (c : ChunkReader) (n : nat) (b : ReadBuffer ChunkReader) :
  positive_sched c -> reachable c n b ->
  InvC b /\ maxSize b = n /\ (0 < n -> length (pending b) < n).
Proof.
  intros Hs. induction 1 as [|b l e b' Hr (HC & Hm & Hroom) Hrl].
  - split; [now apply New_InvC|]. split; [reflexivity|].
    intros Hn. unfold pending, New. cbn [buf r w]. rewrite slice_empty. exact Hn.
  - destruct (ReadLine_refines HC) as (l0 & e0 & b0 & Hrl0 & _ & HC0 & Hm0).
    rewrite Hrl in Hrl0. injection Hrl0 as -> -> ->.
    split; [assumption|]. split; [congruence|].
    intros Hn. rewrite (pending_length (invc_inv HC0)).
    unfold ReadLine in Hrl. apply ReadLine_loop_cursor in Hrl.
    destruct (invc_inv HC0) as [Hrw Hwl Hl _ _]. lia.
Qed.

(** The whole remaining stream is one unterminated run shorter than the
    capacity: it is returned with the end of the stream. *)
Lemma next_line_final (N : nat) (cr : bool) (S : list byte) :
  no_terminator (snd (drop_lf cr S)) -> length S < N ->
  exists cr', next_line N cr S = (snd (drop_lf cr S), Some EOF, cr', []) /\
              (cr' = true -> snd (drop_lf cr S) = []).
Proof.
  intros Hrun Hlen. unfold next_line.
  pose proof (drop_lf_true_nil cr S) as Hnil.
  assert (Hle : length (snd (drop_lf cr S)) <= length S).
  { unfold drop_lf. destruct cr; [|cbn; lia].
    destruct S as [|c t]; [cbn; lia|]. cbn [snd].
    destruct (Byte.eqb c LF); cbn [length]; lia. }
  destruct (drop_lf cr S) as [cr1 S1]. cbn [fst snd] in *.
  exists cr1. split; [|exact Hnil].
  apply no_terminator_findCRLF in Hrun. unfold scan.
  rewrite firstn_all2 by lia. rewrite Hrun.
  destruct (Nat.leb_spec N (length S1)); [lia | reflexivity].
Qed.

(** Once the stream is empty every call reports its end with an empty
    line. *)
Lemma read_n_after_eof (k : nat) : forall b : ReadBuffer ChunkReader,
  InvC b -> 0 < maxSize b -> stream b = [] ->
  exists b2, read_n k b = Some (repeat ([], Some EOF) k, b2).
Proof.
  induction k as [|k IH]; intros b HC HN Hst.
  - exists b. reflexivity.
  - destruct (ReadLine_refines HC) as (l & e & b1 & Hrun & Hnl & HC1 & Hm1).
    rewrite Hst in Hnl.
    assert (Hn : next_line (maxSize b) (crLine b) [] = ([], Some EOF, crLine b, [])).
    { unfold next_line, drop_lf, scan.
      destruct (crLine b); rewrite firstn_nil; cbn [findCRLF length];
        (destruct (Nat.leb_spec (maxSize b) 0); [lia | reflexivity]). }
    rewrite Hn in Hnl. injection Hnl as <- <- _ Hst1.
    destruct (IH b1 HC1) as (b2 & Hrest); [lia | congruence |].
    exists b2. cbn [read_n repeat]. now rewrite Hrun, Hrest.
Qed.

(** *** The properties of the line reader *)

(** C3.  For every capacity [N] and every input without terminator that is
    longer than [N], delivered in whatever pieces, the first [ReadLine]
    returns exactly the first [N] bytes with [ErrBufferFull]; and for every
    reader, in every state a [ReadBuffer] passes through, the backing buffer
    holds at most [N] bytes and [ReadLine] returns a line of at most [N]
    bytes. *)
Theorem C3_buffer_full_at_capacity :
  (forall (N : nat) (input : list byte) (sc : list nat),
     unterminated input = true -> N < length input -> progressing sc = true ->
     exists b',
       ReadLine (New (mkChunkReader input sc) N) =
       Some (firstn N input, Some ErrBufferFull, b')) /\
  (forall (R : Type) (HR : Reader R) (rd0 : R) (N : nat) (b : ReadBuffer R),
     transient rd0 N b ->
     length (buf b) <= N /\
     exists l e b', ReadLine b = Some (l, e, b') /\ length l <= N).
Proof.
  split.
  - intros N input sc Hun Hlong Hsc.
    apply unterminated_spec, no_terminator_findCRLF in Hun.
    pose proof (New_InvC N (progressing_spec input sc Hsc)) as HC.
    destruct (ReadLine_refines HC) as (l & e & b' & Hrun & Hnl & _).
    exists b'. rewrite Hrun. rewrite New_stream in Hnl.
    cbn [data maxSize crLine New] in Hnl.
    unfold next_line, drop_lf, scan in Hnl.
    rewrite (@findCRLF_firstn_None input N Hun) in Hnl.
    destruct (Nat.leb_spec N (length input)); [|lia].
    now injection Hnl as <- <- _ _.
  - intros R HR rd0 N b Ht.
    destruct (transient_Inv Ht) as [HI Hm]. subst N.
    split; [apply (inv_len HI)|].
    destruct (ReadLine_total HI) as (l & e & b' & Hrun & _ & _ & Hl).
    now exists l, e, b'.
Qed.

Lemma C3_witness :
  exists b',
    ReadLine (New (strings_NewReader (bytes "foobar")) 5) =
    Some (bytes "fooba", Some ErrBufferFull, b').
Proof.
  apply (proj1 C3_buffer_full_at_capacity 5 (bytes "foobar") []).
  - reflexivity.
  - simpl. lia.
  - reflexivity.
Defined.

(** C4.  The same lines written with line feeds, with carriage returns or
    with carriage-return/line-feed pairs (an unterminated last line may
    follow), delivered in whatever pieces, give the same results of
    [ReadLine], call after call; when all of it fits the buffer these are
    the lines themselves, then the last line with the end of the stream,
    with no empty line in between, even when a carriage return and its line
    feed arrive in different reads. *)
Theorem C4_terminator_agnostic (N k : nat) (ls : list (list byte))
  (tail : list byte) (sc1 sc2 sc3 : list nat) :
  forallb unterminated ls = true -> unterminated tail = true ->
  progressing sc1 = true -> progressing sc2 = true -> progressing sc3 = true ->
  let run t sc :=
    option_map fst
      (read_n k (New (mkChunkReader (encode t ls ++ tail) sc) N)) in
  run [LF] sc1 = Some (lines_abs k N ls tail) /\
  run [CR] sc2 = Some (lines_abs k N ls tail) /\
  run [CR; LF] sc3 = Some (lines_abs k N ls tail) /\
  (Forall (fun l => length l < N) ls -> length tail < N ->
   k = length ls + 2 ->
   lines_abs k N ls tail =
   map (fun l => (l, None)) ls ++ [(tail, Some EOF); ([], Some EOF)]).
Proof.
  intros Hls Htail H1 H2 H3 run.
  apply unterminated_all in Hls. apply unterminated_spec in Htail.
  assert (Hrun : forall t sc, terminator t -> progressing sc = true ->
                              run t sc = Some (lines_abs k N ls tail)).
  { intros t sc Ht Hsc. unfold run.
    pose proof (New_InvC N (progressing_spec (encode t ls ++ tail) sc Hsc)) as HC.
    destruct (read_n_refines k HC) as (b' & Hr & _).
    rewrite Hr. cbn [option_map fst]. f_equal.
    rewrite New_stream. cbn [maxSize crLine New data].
    apply (@lines_n_encode t N k Ht ls tail false (encode t ls ++ tail) Hls Htail).
    apply stands_for_encode. }
  split_and; try (apply Hrun; auto; constructor).
  intros Hfit Hlen ->. now apply lines_abs_fit.
Qed.

Lemma C4_witness :
  option_map fst
    (read_n 4
       (New (mkChunkReader
               (encode [CR; LF] [bytes "foo"; bytes "bar"] ++ bytes "baz")
               [4; 1; 3; 1; 1]) 8)) =
  Some [(bytes "foo", None); (bytes "bar", None); (bytes "baz", Some EOF);
        ([], Some EOF)].
Proof.
  exact (proj1 (proj2 (proj2
           (@C4_terminator_agnostic 8 4 [bytes "foo"; bytes "bar"]
              (bytes "baz") [] [] [4; 1; 3; 1; 1]
              eq_refl eq_refl eq_refl eq_refl eq_refl)))).
Defined.

(** C9 (as stated, refuted at capacity 0).  A reader of capacity 0 on the
    empty source, which is exhausted from the start, reports a full buffer
    and never the end of the stream. *)
Lemma C9_counterexample :
  (exists b',
     ReadLine (New (strings_NewReader []) 0) = Some ([], Some ErrBufferFull, b')) /\
  (forall b',
     ReadLine (New (strings_NewReader []) 0) <> Some ([], Some EOF, b')).
Proof.
  split.
  - eexists. vm_compute. reflexivity.
  - intros b'. vm_compute. discriminate.
Qed.

(** C9 (amended).  For a reader of capacity at least 1 on a source that
    makes progress: between two calls, once the source has handed out all
    its bytes, [ReadLine] returns the unread run (what is left once the line
    feed of a pending carriage-return/line-feed pair is dropped; possibly
    empty) with [io.EOF] when that run holds no terminator, and every later
    call returns the empty line with [io.EOF]; in particular a source
    without terminator that is shorter than the capacity is returned whole
    with [io.EOF] by the first call. *)
Theorem C9_final_run_then_eof :
  (forall (c : ChunkReader) (N : nat) (b : ReadBuffer ChunkReader),
     0 < N -> progressing (sched c) = true -> reachable c N b ->
     data (rd b) = [] ->
     unterminated (snd (drop_lf (crLine b) (pending b))) = true ->
     exists b1,
       ReadLine b =
         Some (snd (drop_lf (crLine b) (pending b)), Some EOF, b1) /\
       forall k, exists b2, read_n k b1 = Some (repeat ([], Some EOF) k, b2)) /\
  (forall (c : ChunkReader) (N : nat),
     progressing (sched c) = true -> unterminated (data c) = true ->
     length (data c) < N ->
     exists b1,
       ReadLine (New c N) = Some (data c, Some EOF, b1) /\
       forall k, exists b2, read_n k b1 = Some (repeat ([], Some EOF) k, b2)).
Proof.
  assert (Hgen : forall b : ReadBuffer ChunkReader,
            InvC b -> length (stream b) < maxSize b ->
            no_terminator (snd (drop_lf (crLine b) (stream b))) ->
            exists b1,
              ReadLine b =
                Some (snd (drop_lf (crLine b) (stream b)), Some EOF, b1) /\
              forall k, exists b2,
                read_n k b1 = Some (repeat ([], Some EOF) k, b2)).
  { intros b HC Hlen Hrun.
    destruct (ReadLine_refines HC) as (l & e & b1 & Hrl & Hnl & HC1 & Hm1).
    destruct (@next_line_final (maxSize b) (crLine b) (stream b) Hrun Hlen)
      as (cr' & Hnl' & _).
    rewrite Hnl' in Hnl. injection Hnl as <- <- _ Hst.
    exists b1. split; [exact Hrl|].
    intros k. apply read_n_after_eof; auto. lia. }
  split.
  - intros c N b HN Hsc Hreach Hd Hun.
    assert (Hs : positive_sched c).
    { destruct c as [d sc]. now apply progressing_spec. }
    destruct (reachable_InvC Hs Hreach) as (HC & Hm & Hroom).
    assert (Hst : stream b = pending b).
    { unfold stream. rewrite Hd. apply app_nil_r. }
    rewrite <- Hst in *. apply Hgen; auto.
    + rewrite Hm. now apply Hroom.
    + now apply unterminated_spec.
  - intros c N Hsc Hun Hlen.
    assert (Hs : positive_sched c).
    { destruct c as [d sc]. now apply progressing_spec. }
    destruct (Hgen (New c N) (New_InvC N Hs)) as (b1 & Hrl & Hrest).
    + now rewrite New_stream.
    + rewrite New_stream. cbn [crLine New drop_lf snd].
      now apply unterminated_spec.
    + exists b1. rewrite New_stream in Hrl. cbn [crLine New drop_lf snd] in Hrl.
      split; assumption.
Qed.

Lemma C9_witness :
  (exists b1,
     ReadLine (New (strings_NewReader (bytes "foobar")) 7) =
       Some (bytes "foobar", Some EOF, b1) /\
     forall k, exists b2, read_n k b1 = Some (repeat ([], Some EOF) k, b2)) /\
  (exists b b1,
     ReadLine (New (strings_NewReader (bytes "foobar")) 6) =
       Some (bytes "foobar", Some ErrBufferFull, b) /\
     ReadLine b = Some ([], Some EOF, b1)).
Proof.
  split.
  - apply (proj2 C9_final_run_then_eof (strings_NewReader (bytes "foobar")) 7).
    + reflexivity.
    + reflexivity.
    + simpl. lia.
  - pose (b := {| buf := bytes "foobar"; rd := strings_NewReader [];
                  r := 6; w := 6; err := None; maxSize := 6;
                  crLine := false |}).
    assert (Hfirst : ReadLine (New (strings_NewReader (bytes "foobar")) 6) =
                     Some (bytes "foobar", Some ErrBufferFull, b)).
    { vm_compute. reflexivity. }
    destruct (proj1 C9_final_run_then_eof
                (strings_NewReader (bytes "foobar")) 6 b) as (b1 & Hsecond & _).
    + lia.
    + reflexivity.
    + eapply reach_ReadLine; [apply reach_New | exact Hfirst].
    + reflexivity.
    + reflexivity.
    + exists b, b1. split; [exact Hfirst | exact Hsecond].
Defined.

End BufferProofs.

(** ** The client *)

Module EventSourceProofs.

Import Buffer BufferSpec BufferProofs EventSource EventSourceSpec.

Local Open Scope Z_scope.

(** *** The field parser *)

Lemma Index_app_sep (key rest : list byte) (sep : byte) :
  Index key sep = None ->
  Index (key ++ sep :: rest) sep = Some (length key).
Proof.
  induction key as [|c t IH]; cbn [Index app length]; intros Hn.
  - assert (E : Byte.eqb sep sep = true) by now apply Byte.byte_dec_lb.
    now rewrite E.
  - destruct (Byte.eqb c sep); [discriminate|].
    destruct (Index t sep); [discriminate|].
    now rewrite (IH eq_refl).
Qed.

Lemma splitLine_colon (key rest : list byte) :
  Index key ":"%byte = None ->
  splitLine (key ++ ":"%byte :: rest) =
  (key, Some match rest with
             | c :: v => if Byte.eqb c " "%byte then v else rest
             | [] => []
             end).
Proof.
  intros Hn. unfold splitLine. rewrite (@Index_app_sep key rest ":"%byte Hn).
  rewrite firstn_app, Nat.sub_diag, firstn_all. cbn [firstn].
  rewrite app_nil_r, length_app. cbn [length].
  assert (Hsk : forall k, skipn (length key + S k) (key ++ ":"%byte :: rest)
                          = skipn k rest).
  { intros k. rewrite skipn_app, skipn_all2 by lia.
    replace (length key + S k - length key)%nat with (S k) by lia.
    reflexivity. }
  rewrite (Hsk 0%nat), (Hsk 1%nat).
  rewrite app_nth2 by lia.
  replace (length key + 1 - length key)%nat with 1%nat by lia.
  destruct rest as [|c v].
  - cbn [length nth skipn].
    destruct (Nat.ltb_spec (length key + 1) (length key + 1)); [lia|].
    reflexivity.
  - cbn [length nth skipn].
    destruct (Nat.ltb_spec (length key + 1) (length key + S (S (length v)))); [|lia].
    cbn [andb]. destruct (Byte.eqb c " "%byte); reflexivity.
Qed.

Lemma splitLine_no_colon (line : list byte) :
  Index line ":"%byte = None -> splitLine line = (line, None).
Proof. intros Hn. unfold splitLine. now rewrite Hn. Qed.

Lemma process_line_comment (es : EventSource) (rest : list byte) :
  process_line es (":"%byte :: rest) = (es, []).
Proof.
  unfold process_line. cbn [length Nat.eqb].
  destruct (msgErr es); [reflexivity|].
  change (":"%byte :: rest) with ([] ++ ":"%byte :: rest).
  rewrite (@splitLine_colon [] rest eq_refl). reflexivity.
Qed.

(** C8.  [splitLine] splits at the first colon: the key is what stands
    before it, the value what stands after it without one leading space; a
    line without colon is all key and has no value; a line that starts with
    a colon has the empty key, and the assembler leaves its state as it is
    and calls nothing for it. *)
Theorem C8_splitLine_first_colon :
  (forall key rest : list byte,
     Index key ":"%byte = None ->
     splitLine (key ++ ":"%byte :: rest) =
     (key, Some match rest with
                | c :: v => if Byte.eqb c " "%byte then v else rest
                | [] => []
                end)) /\
  (forall line : list byte,
     Index line ":"%byte = None -> splitLine line = (line, None)) /\
  (forall (rest : list byte) (es : EventSource),
     fst (splitLine (":"%byte :: rest)) = [] /\
     process_line es (":"%byte :: rest) = (es, [])).
Proof.
  split; [exact splitLine_colon|]. split; [exact splitLine_no_colon|].
  intros rest es. split; [|apply process_line_comment].
  change (":"%byte :: rest) with ([] ++ ":"%byte :: rest).
  now rewrite (@splitLine_colon [] rest eq_refl).
Qed.

Lemma C8_witness :
  splitLine (bytes "foo:  bar") = (bytes "foo", Some (bytes " bar")) /\
  splitLine (bytes "foo") = (bytes "foo", None).
Proof.
  split.
  - exact (proj1 C8_splitLine_first_colon (bytes "foo") (bytes "  bar") eq_refl).
  - exact (proj1 (proj2 C8_splitLine_first_colon) (bytes "foo") eq_refl).
Defined.

(** *** The field buffers *)

Lemma appendLimit_full (s : gslice) (ns : list byte) (limit : Z) :
  needed s ns > limit -> appendLimit s ns limit = (GNil, Some ErrBufferFull).
Proof.
  unfold needed, appendLimit. destruct (len s =? 0); cbn [negb]; intros Hn;
    rewrite Z.gtb_ltb;
    match goal with |- context [?a <? ?b] => destruct (Z.ltb_spec a b) end;
    (reflexivity || lia).
Qed.

Lemma elems_append (s : gslice) (ns : list byte) :
  elems (append s ns) = elems s ++ ns.
Proof.
  unfold append. destruct ns; [now rewrite app_nil_r | reflexivity].
Qed.

Lemma elems_growMaybeLimit (s : gslice) (n limit : Z) :
  elems (growMaybeLimit s n limit) = elems s.
Proof. unfold growMaybeLimit. destruct (cap s <? n); reflexivity. Qed.

Lemma len_zero_elems (s : gslice) : len s = 0 -> elems s = [].
Proof.
  unfold len. destruct (elems s); [reflexivity | cbn [length]; lia].
Qed.

Lemma appendLimit_fits (s : gslice) (ns : list byte) (limit : Z) :
  needed s ns <= limit ->
  exists s',
    appendLimit s ns limit = (s', None) /\
    elems s' = (if len s =? 0 then ns else elems s ++ LF :: ns).
Proof.
  unfold needed, appendLimit.
  destruct (Z.eqb_spec (len s) 0) as [Hz|Hnz]; cbn [negb]; intros Hn;
    rewrite Z.gtb_ltb;
    match goal with |- context [?a <? ?b] => destruct (Z.ltb_spec a b) end;
    try lia; eexists; (split; [reflexivity|]).
  - rewrite elems_append, elems_growMaybeLimit, (len_zero_elems s Hz).
    reflexivity.
  - rewrite !elems_append, elems_growMaybeLimit, <- app_assoc. reflexivity.
Qed.

(** The buffer [growMaybeLimit] returns has room for what [appendLimit]
    appends, so that [append] has no array to allocate. *)
Lemma appendLimit_no_realloc (s : gslice) (ns : list byte) (limit : Z) :
  needed s ns <= limit ->
  needed s ns <= cap (growMaybeLimit s (needed s ns) limit).
Proof.
  intros Hn. unfold growMaybeLimit.
  destruct (Z.ltb_spec (cap s) (needed s ns)); cbn [cap]; lia.
Qed.

Lemma len_reslice0 (s : gslice) : len (reslice0 s) = 0.
Proof. destruct s; reflexivity. Qed.

Lemma Equal_refl (a : list byte) : Equal a a = true.
Proof. unfold Equal. destruct (list_eq_dec Byte.byte_eq_dec a a); congruence. Qed.

Lemma Equal_eq (a b : list byte) : Equal a b = true -> a = b.
Proof.
  unfold Equal. destruct (list_eq_dec Byte.byte_eq_dec a b); congruence.
Qed.

(** *** The message assembler *)

Lemma process_line_field (es : EventSource) (line key : list byte)
  (val : option (list byte)) :
  msgErr es = None -> splitLine line = (key, val) -> key <> [] ->
  process_line es line = (handle_field es key val, []).
Proof.
  intros He Hs Hk. unfold process_line.
  destruct line as [|c t].
  - cbn in Hs. injection Hs as <- _. contradiction.
  - cbn [length Nat.eqb]. rewrite He, Hs.
    destruct key; [contradiction | reflexivity].
Qed.

Lemma process_line_too_long (es : EventSource) (line : list byte) :
  msgErr es = None -> field_too_long es line = true ->
  exists m es1,
    process_line es line = (es1, []) /\
    msgErr es1 = Some (Wrap m ErrBufferFull) /\
    callback es1 = callback es /\ bp es1 = bp es /\ req es1 = req es /\
    retryTimeout es1 = retryTimeout es.
Proof.
  intros He Htl. unfold field_too_long in Htl.
  destruct (splitLine line) as [key val] eqn:Hs.
  assert (Hk : key <> []).
  { intros ->. cbn in Htl. discriminate. }
  rewrite (@process_line_field es line key val He Hs Hk).
  unfold handle_field.
  destruct (Equal key knownFieldNameID).
  { apply Z.gtb_lt in Htl. rewrite appendLimit_full by lia.
    do 2 eexists. split; [reflexivity|]. cbn. auto. }
  destruct (Equal key knownFieldNameEvent).
  { apply Z.gtb_lt in Htl. rewrite appendLimit_full by lia.
    do 2 eexists. split; [reflexivity|]. cbn. auto. }
  destruct (Equal key knownFieldNameData); [|discriminate].
  apply Z.gtb_lt in Htl. rewrite appendLimit_full by lia.
  do 2 eexists. split; [reflexivity|]. cbn. auto.
Qed.

Lemma process_lines_skipped (es : EventSource) (rest : list (list byte)) :
  msgErr es <> None ->
  forallb (fun l => negb (length l =? 0)%nat) rest = true ->
  process_lines es rest = (es, []).
Proof.
  intros He. induction rest as [|l rest IH]; cbn [forallb process_lines];
    [reflexivity|].
  intros Hall. apply andb_prop in Hall. destruct Hall as [Hl Hrest].
  unfold process_line. destruct (length l =? 0)%nat; [discriminate|].
  destruct (msgErr es); [|contradiction].
  now rewrite (IH Hrest).
Qed.

Lemma process_lines_app (ls1 ls2 : list (list byte)) : forall es : EventSource,
  process_lines es (ls1 ++ ls2) =
  let '(es1, evs1) := process_lines es ls1 in
  let '(es2, evs2) := process_lines es1 ls2 in
  (es2, evs1 ++ evs2).
Proof.
  induction ls1 as [|l ls1 IH]; intros es; cbn [app process_lines].
  - destruct (process_lines es ls2); reflexivity.
  - destruct (process_line es l) as [es1 evs1]. rewrite IH.
    destruct (process_lines es1 ls1) as [es2 evs2].
    destruct (process_lines es2 ls2) as [es3 evs3].
    now rewrite app_assoc.
Qed.

(** As long as the reader returns lines without error, the read loop goes
    on with the same reader and handles them in order. *)
Lemma read_loop_lines {R : Type} `{Reader R} (ls : list (list byte)) :
  forall (fuel : nat) (es : EventSource) (rb rb' : ReadBuffer R),
  read_n (length ls) rb = Some (map (fun l => (l, None)) ls, rb') ->
  read_loop (length ls + fuel) es rb =
  let '(es1, evs1) := process_lines es ls in
  let '(out, es2, evs2) := read_loop fuel es1 rb' in
  (out, es2, evs1 ++ evs2).
Proof.
  induction ls as [|l ls IH]; intros fuel es rb rb' Hread.
  - cbn in Hread. injection Hread as <-. cbn [length Nat.add process_lines].
    destruct (read_loop fuel es rb) as [[out es2] evs2]. reflexivity.
  - cbn [length read_n map] in Hread.
    destruct (ReadLine rb) as [[[l0 e0] rb1]|] eqn:Hrl; [|discriminate].
    destruct (read_n (length ls) rb1) as [[res rb2]|] eqn:Hrest; [|discriminate].
    injection Hread as -> -> -> ->.
    cbn [length Nat.add read_loop process_lines]. rewrite Hrl.
    destruct (process_line es l) as [es1 evs1].
    rewrite (IH fuel es1 rb1 rb' Hrest).
    destruct (process_lines es1 ls) as [es2 evs2].
    destruct (read_loop fuel es2 rb') as [[out es3] evs3].
    now rewrite app_assoc.
Qed.

Lemma needed_elems (s s' : gslice) (ns : list byte) :
  elems s = elems s' -> needed s ns = needed s' ns.
Proof. intros He. unfold needed, len. now rewrite He. Qed.

Lemma appendLimit_elems (s s' : gslice) (ns : list byte) (limit : Z) :
  elems s = elems s' ->
  elems (fst (appendLimit s ns limit)) = elems (fst (appendLimit s' ns limit)) /\
  snd (appendLimit s ns limit) = snd (appendLimit s' ns limit).
Proof.
  intros He. pose proof (needed_elems s s' ns He) as Hn.
  destruct (Z_le_gt_dec (needed s ns) limit) as [Hfit|Hfull].
  - destruct (@appendLimit_fits s ns limit Hfit) as (a & Ha & Hea).
    rewrite Hn in Hfit.
    destruct (@appendLimit_fits s' ns limit Hfit) as (b & Hb & Heb).
    rewrite Ha, Hb. cbn [fst snd]. rewrite Hea, Heb. unfold len. rewrite He. auto.
  - rewrite (@appendLimit_full s ns limit Hfull).
    rewrite Hn in Hfull. rewrite (@appendLimit_full s' ns limit Hfull). auto.
Qed.

Lemma elems_reslice0 (s : gslice) : elems (reslice0 s) = [].
Proof. destruct s; reflexivity. Qed.

Lemma handle_field_same_content (a b : EventSource) (key : list byte)
  (val : option (list byte)) :
  same_content a b ->
  same_content (handle_field a key val) (handle_field b key val).
Proof.
  intros (Hr & Hc & Hb & Hi & He & Hd & Hm & Ht). unfold handle_field.
  rewrite Hb, Hm.
  destruct (Equal key knownFieldNameID).
  { destruct (@appendLimit_elems (reslice0 (idBuf a)) (reslice0 (idBuf b))
                (bytes_of val) (MaxID (bp b))) as [E1 E2].
    { now rewrite !elems_reslice0. }
    destruct (appendLimit (reslice0 (idBuf a)) _ _) as [x1 x2].
    destruct (appendLimit (reslice0 (idBuf b)) _ _) as [y1 y2].
    cbn [fst snd] in *. subst. unfold same_content; cbn; auto 10. }
  destruct (Equal key knownFieldNameEvent).
  { destruct (@appendLimit_elems (reslice0 (eventBuf a)) (reslice0 (eventBuf b))
                (bytes_of val) (MaxEvent (bp b))) as [E1 E2].
    { now rewrite !elems_reslice0. }
    destruct (appendLimit (reslice0 (eventBuf a)) _ _) as [x1 x2].
    destruct (appendLimit (reslice0 (eventBuf b)) _ _) as [y1 y2].
    cbn [fst snd] in *. subst. unfold same_content; cbn; auto 10. }
  destruct (Equal key knownFieldNameData).
  { destruct (@appendLimit_elems (dataBuf a) (dataBuf b)
                (bytes_of val) (MaxData (bp b)) Hd) as [E1 E2].
    destruct (appendLimit (dataBuf a) _ _) as [x1 x2].
    destruct (appendLimit (dataBuf b) _ _) as [y1 y2].
    cbn [fst snd] in *. subst. unfold same_content; cbn; auto 10. }
  destruct (Equal key knownFieldNameRetry).
  { destruct (ParseInt (bytes_of val)); unfold same_content; cbn; auto 10. }
  unfold same_content; auto 10.
Qed.

Lemma process_line_same_content (a b : EventSource) (line : list byte) :
  same_content a b ->
  same_content (fst (process_line a line)) (fst (process_line b line)) /\
  Forall2 same_event (snd (process_line a line)) (snd (process_line b line)).
Proof.
  intros Hab. pose proof Hab as (Hr & Hc & Hb & Hi & He & Hd & Hm & Ht).
  unfold process_line. destruct (length line =? 0)%nat.
  - cbn [fst snd]. split.
    + unfold same_content, perMessageReset; cbn.
      rewrite !elems_reslice0. auto 10.
    + unfold dispatch. rewrite Hc, Hm.
      destruct (msgErr b); destruct (callback b); repeat constructor; cbn; auto.
  - rewrite Hm. destruct (msgErr b).
    + cbn [fst snd]. split; [assumption | constructor].
    + destruct (splitLine line) as [key val].
      destruct (length key =? 0)%nat; cbn [fst snd].
      * split; [assumption | constructor].
      * split; [now apply handle_field_same_content | constructor].
Qed.

Lemma process_lines_same_content (ls : list (list byte)) :
  forall a b : EventSource,
  same_content a b ->
  same_content (fst (process_lines a ls)) (fst (process_lines b ls)) /\
  Forall2 same_event (snd (process_lines a ls)) (snd (process_lines b ls)).
Proof.
  induction ls as [|l ls IH]; intros a b Hab; cbn [process_lines].
  - cbn [fst snd]. split; [assumption | constructor].
  - destruct (@process_line_same_content a b l Hab) as [H1 H2].
    destruct (process_line a l) as [a1 ea]. destruct (process_line b l) as [b1 eb].
    cbn [fst snd] in H1, H2. destruct (IH a1 b1 H1) as [H3 H4].
    destruct (process_lines a1 ls) as [a2 ea2].
    destruct (process_lines b1 ls) as [b2 eb2].
    cbn [fst snd] in *. split; [assumption|]. now apply Forall2_app.
Qed.

(** C5.  When the value of a field does not fit its buffer while a message
    is assembled: the error is recorded and nothing is called; the lines up
    to the next blank line leave the state as it is and call nothing; at
    the blank line the error goes to the callback in place of a message;
    the read loop goes on with the same reader; and the state it goes on
    with has empty field buffers and no error, so that the lines that
    follow are handled as after any other message boundary. *)
Theorem C5_field_too_long (es : EventSource) (line : list byte)
  (rest : list (list byte)) :
  msgErr es = None ->
  field_too_long es line = true ->
  forallb (fun l => negb (length l =? 0)%nat) rest = true ->
  exists m es1 es2,
    process_line es line = (es1, []) /\
    msgErr es1 = Some (Wrap m ErrBufferFull) /\
    process_lines es1 rest = (es1, []) /\
    process_line es1 [] =
      (es2, dispatch es noMessage (Some (Wrap m ErrBufferFull))) /\
    len (idBuf es2) = 0 /\ len (eventBuf es2) = 0 /\ len (dataBuf es2) = 0 /\
    msgErr es2 = None /\
    same_content es2 (perMessageReset es) /\
    (forall next : list (list byte),
       same_content (fst (process_lines es2 next))
                    (fst (process_lines (perMessageReset es) next)) /\
       Forall2 same_event (snd (process_lines es2 next))
                          (snd (process_lines (perMessageReset es) next))) /\
    (forall (R : Type) (HR : Reader R) (fuel : nat) (rb rb' : ReadBuffer R),
       read_n (length (line :: rest ++ [[]])) rb =
         Some (map (fun l => (l, None)) (line :: rest ++ [[]]), rb') ->
       read_loop (length (line :: rest ++ [[]]) + fuel) es rb =
       let '(out, es3, evs3) := read_loop fuel es2 rb' in
       (out, es3, dispatch es noMessage (Some (Wrap m ErrBufferFull)) ++ evs3)).
Proof.
  intros He Htl Hrest.
  destruct (@process_line_too_long es line He Htl)
    as (m & es1 & Hp1 & He1 & Hc1 & Hb1 & Hr1 & Ht1).
  assert (Hskip : process_lines es1 rest = (es1, [])).
  { apply process_lines_skipped; [congruence | assumption]. }
  assert (Hblank : process_line es1 [] =
                   (perMessageReset es1,
                    dispatch es noMessage (Some (Wrap m ErrBufferFull)))).
  { unfold process_line. cbn [length Nat.eqb]. rewrite He1.
    unfold dispatch. now rewrite Hc1. }
  assert (Hsame : same_content (perMessageReset es1) (perMessageReset es)).
  { unfold same_content, perMessageReset; cbn.
    rewrite !elems_reslice0. auto 10. }
  exists m, es1, (perMessageReset es1).
  split_and; auto; try apply len_reslice0.
  - intros next. now apply process_lines_same_content.
  - intros R HR fuel rb rb' Hread.
    rewrite (@read_loop_lines R HR _ fuel es rb rb' Hread).
    cbn [process_lines]. rewrite Hp1, process_lines_app, Hskip.
    cbn [process_lines]. rewrite Hblank. cbn [app].
    destruct (read_loop fuel (perMessageReset es1) rb') as [[out es3] evs3].
    now rewrite app_nil_r.
Qed.

Lemma C5_witness :
  let es := New (mkRequest []) true (mkBufferParameters 4 4 4 64) in
  exists m es1 es2,
    process_line es (bytes "id: 12345") = (es1, []) /\
    process_lines es1 [bytes "data: x"; bytes "id: 1"] = (es1, []) /\
    process_line es1 [] = (es2, [Call noMessage (Some (Wrap m ErrBufferFull))]) /\
    msgErr es2 = None.
Proof.
  intros es.
  destruct (@C5_field_too_long es (bytes "id: 12345")
              [bytes "data: x"; bytes "id: 1"] eq_refl eq_refl eq_refl)
    as (m & es1 & es2 & H1 & _ & H3 & H4 & _ & _ & _ & H8 & _).
  exists m, es1, es2. auto.
Defined.

(** C10.  When the value does not fit, [appendLimit] returns the nil slice
    with [ErrBufferFull], and the assembler stores that nil slice in the
    buffer of the field: what the buffer held is gone.  After an [id]
    field that is too long the identifier buffer is nil, and a request
    built from that state is the bare prototype. *)
Theorem C10_overflow_discards_buffer :
  (forall (s : gslice) (ns : list byte) (limit : Z),
     needed s ns > limit ->
     appendLimit s ns limit = (GNil, Some ErrBufferFull)) /\
  (forall (es : EventSource) (line : list byte) (val : option (list byte)),
     msgErr es = None ->
     (splitLine line = (knownFieldNameID, val) ->
      Z.of_nat (length (bytes_of val)) > MaxID (bp es) ->
      idBuf (fst (process_line es line)) = GNil /\
      newRequest (fst (process_line es line)) = req es) /\
     (splitLine line = (knownFieldNameEvent, val) ->
      Z.of_nat (length (bytes_of val)) > MaxEvent (bp es) ->
      eventBuf (fst (process_line es line)) = GNil) /\
     (splitLine line = (knownFieldNameData, val) ->
      needed (dataBuf es) (bytes_of val) > MaxData (bp es) ->
      dataBuf (fst (process_line es line)) = GNil)).
Proof.
  split; [exact appendLimit_full|].
  intros es line val He.
  assert (Hn0 : forall s ns, needed (reslice0 s) ns = Z.of_nat (length ns)).
  { intros s ns. unfold needed. now rewrite len_reslice0. }
  split_and; intros Hs Hlong.
  - rewrite (@process_line_field es line _ val He Hs) by discriminate.
    unfold handle_field. cbn [Equal fst].
    rewrite Equal_refl, appendLimit_full by (rewrite Hn0; lia).
    cbn [idBuf]. split; [reflexivity|]. unfold newRequest. cbn [idBuf req].
    reflexivity.
  - rewrite (@process_line_field es line _ val He Hs) by discriminate.
    unfold handle_field. cbn [fst].
    change (Equal knownFieldNameEvent knownFieldNameID) with false.
    rewrite Equal_refl, appendLimit_full by (rewrite Hn0; lia).
    reflexivity.
  - rewrite (@process_line_field es line _ val He Hs) by discriminate.
    unfold handle_field. cbn [fst].
    change (Equal knownFieldNameData knownFieldNameID) with false.
    change (Equal knownFieldNameData knownFieldNameEvent) with false.
    rewrite Equal_refl, appendLimit_full by lia.
    reflexivity.
Qed.

Lemma C10_witness :
  let es0 := New (mkRequest []) true (mkBufferParameters 4 4 4 64) in
  let es := fst (process_line es0 (bytes "id: 7")) in
  idBuf es = GSlice (bytes "7") 1 /\
  idBuf (fst (process_line es (bytes "id: 12345"))) = GNil /\
  newRequest (fst (process_line es (bytes "id: 12345"))) = mkRequest [].
Proof.
  intros es0 es. split; [reflexivity|].
  apply (proj1 (proj2 C10_overflow_discards_buffer es (bytes "id: 12345")
                  (Some (bytes "12345")) eq_refl)).
  - reflexivity.
  - reflexivity.
Defined.

(** *** The reconnect delay *)

Lemma wrap64_small (z : Z) : - 2 ^ 63 <= z < 2 ^ 63 -> wrap64 z = z.
Proof. intros Hz. unfold wrap64. rewrite Z.mod_small; lia. Qed.

Lemma parse_digits_ge (l : list byte) : forall acc v,
  0 <= acc -> parse_digits acc l = Some v -> 0 <= v.
Proof.
  induction l as [|c t IH]; cbn [parse_digits]; intros acc v Hacc Hp.
  - injection Hp as <-. exact Hacc.
  - unfold digit in Hp.
    destruct ((48 <=? Z.of_N (Byte.to_N c)) && (Z.of_N (Byte.to_N c) <=? 57))
      eqn:Hd; [|discriminate].
    apply andb_prop in Hd. destruct Hd as [Hlo _]. apply Z.leb_le in Hlo.
    eapply IH; [|exact Hp]. lia.
Qed.

Lemma ParseInt_range (l : list byte) (ms : Z) :
  ParseInt l = Some ms -> - 2 ^ 63 <= ms < 2 ^ 63.
Proof.
  unfold ParseInt. destruct l as [|c t]; [discriminate|].
  destruct (if Byte.eqb c "+"%byte then (false, t)
            else if Byte.eqb c "-"%byte then (true, t) else (false, c :: t))
    as [neg ds].
  unfold decimal. destruct ds as [|d ds']; [discriminate|].
  destruct (parse_digits 0 (d :: ds')) as [un|] eqn:Hp; [|discriminate].
  apply parse_digits_ge in Hp; [|lia].
  destruct neg.
  - destruct (Z.leb_spec un (2 ^ 63)); [|discriminate].
    intros [= <-]. lia.
  - destruct (Z.ltb_spec un (2 ^ 63)); [|discriminate].
    intros [= <-]. lia.
Qed.

Lemma handle_field_keeps_delay (es : EventSource) (key : list byte)
  (val : option (list byte)) :
  key <> knownFieldNameRetry ->
  retryTimeout (handle_field es key val) = retryTimeout es.
Proof.
  intros Hk. unfold handle_field.
  destruct (Equal key knownFieldNameID).
  { destruct (appendLimit _ _ _); reflexivity. }
  destruct (Equal key knownFieldNameEvent).
  { destruct (appendLimit _ _ _); reflexivity. }
  destruct (Equal key knownFieldNameData).
  { destruct (appendLimit _ _ _); reflexivity. }
  destruct (Equal key knownFieldNameRetry) eqn:E; [|reflexivity].
  apply Equal_eq in E. contradiction.
Qed.

Lemma process_line_keeps_delay (es : EventSource) (line : list byte) :
  fst (splitLine line) <> knownFieldNameRetry ->
  retryTimeout (fst (process_line es line)) = retryTimeout es.
Proof.
  intros Hk. unfold process_line.
  destruct (length line =? 0)%nat; [reflexivity|].
  destruct (msgErr es); [reflexivity|].
  destruct (splitLine line) as [key val]. cbn [fst] in Hk.
  destruct (length key =? 0)%nat; [reflexivity|].
  cbn [fst]. now apply handle_field_keeps_delay.
Qed.

Lemma processRequest_sleeps {R : Type} `{Reader R} (fuel : nat)
  (es : EventSource) (client : Request -> DoResult R) :
  exists evs,
    snd (processRequest fuel es client) =
    evs ++ [Sleep (retryTimeout (snd (fst (processRequest fuel es client))))].
Proof.
  unfold processRequest.
  destruct (client (newRequest es)) as [e|status ctype body].
  - destruct (errors_Is e Canceled); cbn [fst snd].
    + now exists [Do (newRequest es)].
    + eexists (_ :: _). cbn [app]. reflexivity.
  - destruct (negb (status =? 200)); cbn [fst snd].
    { eexists (_ :: _). cbn [app]. reflexivity. }
    destruct (negb (String.eqb ctype "text/event-stream")); cbn [fst snd].
    { eexists (_ :: _). cbn [app]. reflexivity. }
    destruct (MaxReadBuffer (bp (perRequestReset es)) <? 0); cbn [fst snd].
    { now exists [Do (newRequest es)]. }
    destruct (read_loop fuel _ _) as [[out es'] evs]. cbn [fst snd].
    eexists (_ :: _). cbn [app]. reflexivity.
Qed.

(** C6 (as stated, refuted).  "-5" is no non-negative integer, and yet the
    field [retry: -5] changes the delay, from one second to minus five
    milliseconds. *)
Lemma C6_counterexample :
  let es := New (mkRequest []) true (mkBufferParameters 0 0 0 0) in
  decimal (bytes "-5") = None /\
  retry_as_specified es (bytes "-5") = es /\
  retryTimeout es = 1 * Second /\
  retryTimeout (fst (process_line es (bytes "retry: -5"))) = -5 * Millisecond /\
  fst (process_line es (bytes "retry: -5")) <> retry_as_specified es (bytes "-5").
Proof.
  intros es. split_and; try reflexivity.
  intros Heq. apply (f_equal retryTimeout) in Heq. vm_compute in Heq.
  discriminate.
Qed.

(** C6 (amended).  The value of a [retry] field is read as a signed decimal
    integer of 64 bits, a sign in front being accepted.  When it parses,
    the delay becomes that many milliseconds (exactly so when the count of
    nanoseconds fits 64 bits), nothing else of the state changes and
    nothing is called; when it does not parse the state stays as it is
    and nothing is called.  Lines with another key keep the delay, and
    every attempt ends with a sleep of the delay the state then has. *)
Theorem C6_retry_field :
  (forall (es : EventSource) (line : list byte) (val : option (list byte)),
     msgErr es = None -> splitLine line = (knownFieldNameRetry, val) ->
     match ParseInt (bytes_of val) with
     | Some ms =>
         process_line es line =
           ({| req := req es; callback := callback es; bp := bp es;
               idBuf := idBuf es; eventBuf := eventBuf es;
               dataBuf := dataBuf es; msgErr := None;
               retryTimeout := wrap64 (ms * Millisecond) |}, []) /\
         - 2 ^ 63 <= ms < 2 ^ 63 /\
         (- 2 ^ 63 <= ms * Millisecond < 2 ^ 63 ->
          wrap64 (ms * Millisecond) = ms * Millisecond)
     | None => process_line es line = (es, [])
     end) /\
  (forall (es : EventSource) (line : list byte),
     fst (splitLine line) <> knownFieldNameRetry ->
     retryTimeout (fst (process_line es line)) = retryTimeout es) /\
  (forall (R : Type) (HR : Reader R) (fuel : nat) (es : EventSource)
          (client : Request -> DoResult R),
     exists evs,
       snd (processRequest fuel es client) =
       evs ++ [Sleep (retryTimeout (snd (fst (processRequest fuel es client))))]).
Proof.
  split_and.
  - intros es line val He Hs.
    rewrite (@process_line_field es line _ val He Hs) by discriminate.
    unfold handle_field.
    change (Equal knownFieldNameRetry knownFieldNameID) with false.
    change (Equal knownFieldNameRetry knownFieldNameEvent) with false.
    change (Equal knownFieldNameRetry knownFieldNameData) with false.
    rewrite Equal_refl. cbn [fst].
    destruct (ParseInt (bytes_of val)) as [ms|] eqn:Hp; [|reflexivity].
    rewrite He. split; [reflexivity|]. split; [now apply ParseInt_range in Hp|].
    apply wrap64_small.
  - exact process_line_keeps_delay.
  - intros R HR fuel es client. apply processRequest_sleeps.
Qed.

Lemma C6_witness :
  let es := New (mkRequest []) true (mkBufferParameters 0 0 0 0) in
  retryTimeout (fst (process_line es (bytes "retry: 5000"))) = 5000 * Millisecond /\
  process_line es (bytes "retry: soon") = (es, []).
Proof.
  intros es. split.
  - destruct (proj1 C6_retry_field es (bytes "retry: 5000")
                (Some (bytes "5000")) eq_refl eq_refl : _ /\ _) as [H1 _].
    rewrite H1. reflexivity.
  - exact (proj1 C6_retry_field es (bytes "retry: soon")
             (Some (bytes "soon")) eq_refl eq_refl).
Defined.

(** *** Two scenarios on a server that answers once *)

Lemma newRequest_after_blank (es : EventSource) :
  len (idBuf (fst (process_line es []))) = 0 /\
  newRequest (fst (process_line es [])) = req es.
Proof.
  unfold process_line. cbn [length Nat.eqb fst].
  unfold newRequest, perMessageReset. cbn [idBuf req]. rewrite len_reslice0.
  split; reflexivity.
Qed.

(** C1 (what the code does).  On the stream ["id: 1\ndata: hello\n\n"] the
    client calls the callback once, with identifier "1" and data "hello";
    the request that follows the end of the stream carries no
    [Last-Event-Id] header.  The same holds after every blank line: the
    identifier buffer is empty and the next request is the bare prototype.
    Only when the stream ends inside a message does the header appear. *)
Theorem C1_reconnect_without_last_event_id :
  trace (worker 100 client0
           [serve (bytes "id: 1" ++ [LF] ++ bytes "data: hello" ++ [LF; LF]);
            cancelled]) =
    [Do (mkRequest []);
     Call {| ID := GSlice (bytes "1") 1; Event := GNil;
             Data := GSlice (bytes "hello") 5 |} None;
     Sleep (1 * Second);
     Do (mkRequest []);
     Sleep (1 * Second)] /\
  (forall es : EventSource,
     len (idBuf (fst (process_line es []))) = 0 /\
     newRequest (fst (process_line es [])) = req es) /\
  trace (worker 100 client0
           [serve (bytes "id: 1" ++ [LF] ++ bytes "data: hello" ++ [LF]);
            cancelled]) =
    [Do (mkRequest []);
     Sleep (1 * Second);
     Do (mkRequest [("Last-Event-Id"%string, bytes "1")]);
     Sleep (1 * Second)].
Proof.
  split_and.
  - vm_compute. reflexivity.
  - exact newRequest_after_blank.
  - vm_compute. reflexivity.
Qed.

(** C7 (what the code does).  On one connection, after the message
    ["data: x"], the message ["id: 2"] has no data field and yet its data
    is a slice that is not nil, the same empty slice that the message
    ["data:"] gets afterwards; and on a fresh connection the message
    ["data:"], whose data field is set to the empty value, has nil data. *)
Theorem C7_unset_field_not_nil :
  trace (worker 100 client0
           [serve (bytes "data: x" ++ [LF; LF] ++ bytes "id: 2" ++ [LF; LF]
                   ++ bytes "data:" ++ [LF; LF]);
            cancelled]) =
    [Do (mkRequest []);
     Call {| ID := GNil; Event := GNil; Data := GSlice (bytes "x") 1 |} None;
     Call {| ID := GSlice (bytes "2") 1; Event := GNil; Data := GSlice [] 1 |} None;
     Call {| ID := GSlice [] 1; Event := GNil; Data := GSlice [] 1 |} None;
     Sleep (1 * Second);
     Do (mkRequest []);
     Sleep (1 * Second)] /\
  GSlice [] 1 <> GNil /\
  trace (worker 100 client0 [serve (bytes "data:" ++ [LF; LF]); cancelled]) =
    [Do (mkRequest []);
     Call {| ID := GNil; Event := GNil; Data := GNil |} None;
     Sleep (1 * Second);
     Do (mkRequest []);
     Sleep (1 * Second)].
Proof.
  split_and.
  - vm_compute. reflexivity.
  - discriminate.
  - vm_compute. reflexivity.
Qed.

End EventSourceProofs.

(** ** More on the line reader *)

Module BufferMore.

Import Buffer BufferSpec BufferProofs.

Section AnyReader.

Context {R : Type} `{Reader R}.

Lemma findCRLF_Some_before (l : list byte) : forall i,
  findCRLF l = Some i -> findCRLF (firstn i l) = None.
Proof.
  induction l as [|c t IH]; cbn [findCRLF]; intros i Hf; [discriminate|].
  destruct (Byte.eqb c CR || Byte.eqb c LF) eqn:Hc.
  - injection Hf as <-. reflexivity.
  - destruct (findCRLF t) as [j|]; [|discriminate].
    injection Hf as <-. cbn [firstn findCRLF]. rewrite Hc.
    now rewrite (IH j eq_refl).
Qed.

Lemma findCRLF_Some_at (l : list byte) : forall i,
  findCRLF l = Some i -> nth i l x00 = CR \/ nth i l x00 = LF.
Proof.
  induction l as [|c t IH]; cbn [findCRLF]; intros i Hf; [discriminate|].
  destruct (Byte.eqb c CR) eqn:Hcr.
  - injection Hf as <-. left. now apply Byte.byte_dec_bl.
  - destruct (Byte.eqb c LF) eqn:Hlf; cbn [orb] in Hf.
    + injection Hf as <-. right. now apply Byte.byte_dec_bl.
    + destruct (findCRLF t) as [j|]; [|discriminate].
      injection Hf as <-. cbn [nth]. now apply IH.
Qed.

Lemma findCRLF_app_None (a b : list byte) :
  findCRLF a = None -> findCRLF b = None -> findCRLF (a ++ b) = None.
Proof. intros Ha Hb. now rewrite findCRLF_app, Ha, Hb. Qed.

Lemma slice_split (l : list byte) (lo s hi : nat) :
  lo + s <= hi -> slice l lo hi = slice l lo (lo + s) ++ slice l (lo + s) hi.
Proof.
  intros Hle. rewrite (@slice_prefix l lo s hi Hle), slice_shift.
  symmetry. apply firstn_skipn.
Qed.

(** The bytes in front of the write cursor stay where they are while
    [fill] reads. *)
Lemma fill_read_front (i : nat) : forall b : ReadBuffer R,
  Inv b -> firstn (w b) (buf (fill_read i b)) = firstn (w b) (buf b).
Proof.
  induction i as [|i IH]; intros b HI; cbn [fill_read]; cbv zeta.
  - reflexivity.
  - pose proof (Read_len (rd b) (length (buf b) - w b)) as Hn.
    destruct (Read (rd b) (length (buf b) - w b)) as [[p e] rd']. simpl in Hn.
    destruct HI as [Hrw Hwl Hl Hp Hc].
    assert (Hfront : firstn (w b)
                       (firstn (w b) (buf b) ++ copy (skipn (w b) (buf b)) p)
                     = firstn (w b) (buf b)).
    { rewrite firstn_app, length_firstn.
      replace (w b - Nat.min (w b) (length (buf b))) with 0 by lia.
      cbn [firstn]. rewrite app_nil_r. apply firstn_all2.
      rewrite length_firstn. lia. }
    assert (Hlen : length (firstn (w b) (buf b) ++ copy (skipn (w b) (buf b)) p)
                   = length (buf b)).
    { rewrite length_app, length_copy, length_firstn, length_skipn. lia. }
    destruct e as [e'|]; cbn [buf]; [exact Hfront|].
    destruct (Nat.ltb_spec 0 (length p)) as [Hpos|Hz]; cbn [buf];
      [exact Hfront|].
    destruct p as [|c0 p0]; [|cbn [length] in Hz; lia].
    cbn [length] in *. rewrite Nat.add_0_r in *.
    match goal with |- context [fill_read i ?b0] =>
      assert (HI' : Inv b0) by
        (constructor; cbn [r w buf maxSize crLine]; rewrite ?Hlen; auto; lia);
      specialize (IH b0 HI'); cbn [w buf] in IH
    end.
    now rewrite IH.
Qed.

(** [fill] keeps the unread bytes: afterwards they stand at the front of
    the buffer, followed by what was read. *)
Lemma fill_keeps_unread (b : ReadBuffer R) :
  Inv b ->
  r (fill b) = 0 /\
  exists p,
    slice (buf (fill b)) 0 (w (fill b)) = slice (buf b) (r b) (w b) ++ p.
Proof.
  intros HI.
  destruct (fill_spec HI) as (HIf & _ & _ & Hge & _).
  unfold fill in *.
  set (b1 := if 0 <? r b then _ else b) in *.
  assert (H1 : Inv b1 /\ r b1 = 0 /\ w b1 = w b - r b /\
               firstn (w b1) (buf b1) = slice (buf b) (r b) (w b)).
  { subst b1. destruct HI as [Hrw Hwl Hl Hp Hc].
    pose proof (length_slice (buf b) (r b) (w b)) as Hls.
    destruct (Nat.ltb_spec 0 (r b)).
    - split_and; cbn [r w buf]; auto.
      + constructor; cbn [r w buf maxSize crLine]; rewrite ?length_copy;
          auto; lia.
      + unfold copy. rewrite Hls.
        replace (Nat.min (length (buf b)) (Nat.min (w b - r b) (length (buf b) - r b)))
          with (w b - r b) by lia.
        rewrite (firstn_all2 (slice (buf b) (r b) (w b))) by lia.
        rewrite firstn_app, Hls.
        replace (w b - r b - Nat.min (w b - r b) (length (buf b) - r b)) with 0 by lia.
        cbn [firstn]. rewrite app_nil_r. apply firstn_all2. lia.
    - split_and; auto; try lia.
      + constructor; auto.
      + unfold slice. replace (r b) with 0 by lia. cbn [skipn].
        now rewrite Nat.sub_0_r. }
  clearbody b1. destruct H1 as (HI1 & Hr1 & Hw1 & Hfront).
  assert (Hkeep : forall b2 : ReadBuffer R,
            r b2 = 0 -> w b1 <= w b2 ->
            firstn (w b1) (buf b2) = firstn (w b1) (buf b1) ->
            r b2 = 0 /\
            exists p, slice (buf b2) 0 (w b2) = slice (buf b) (r b) (w b) ++ p).
  { intros b2 Hr2 Hw2 Hf2. split; [exact Hr2|].
    exists (skipn (w b1) (firstn (w b2) (buf b2))).
    unfold slice at 1. cbn [skipn]. rewrite Nat.sub_0_r.
    rewrite <- Hfront, <- Hf2.
    rewrite <- (firstn_skipn (w b1) (firstn (w b2) (buf b2))) at 1.
    f_equal. rewrite firstn_firstn. f_equal. lia. }
  destruct (Nat.leb_spec (length (buf b1)) (w b1)) as [Hfull|Hroom].
  - pose proof (grow_spec HI1) as Hg.
    destruct (grow b1) as [[|] b2].
    + destruct Hg as (HI2 & G1 & G2 & G3 & G4 & G5 & G6 & G7 & _ & G9).
      destruct (fill_read_spec maxConsecutiveEmptyReads HI2)
        as (_ & F2 & F3 & _).
      apply Hkeep; [congruence | lia |].
      rewrite <- G2, fill_read_front by assumption.
      rewrite G2. apply G9. destruct HI1. lia.
    + apply Hkeep; cbn [r w buf]; auto.
  - destruct (fill_read_spec maxConsecutiveEmptyReads HI1)
      as (_ & F2 & F3 & _).
    apply Hkeep; [congruence | lia |].
    now apply fill_read_front.
Qed.

(** The loop of [ReadLine] never puts a terminator into a line. *)
Lemma ReadLine_loop_clean (fuel : nat) :
  forall (s : nat) (b : ReadBuffer R) l e b',
  Inv b ->
  r b + s <= w b ->
  (crLine b = true -> s = 0) ->
  findCRLF (slice (buf b) (r b) (r b + s)) = None ->
  ReadLine_loop fuel s b = Some (l, e, b') ->
  findCRLF l = None /\
  match e with
  | Some _ => err b' = None /\ r b' = w b'
  | None =>
      0 < r b' /\ r b' <= w b' /\
      (nth (r b' - 1) (buf b') x00 = CR \/ nth (r b' - 1) (buf b') x00 = LF) /\
      crLine b' = Byte.eqb (nth (r b' - 1) (buf b') x00) CR
  end.
Proof.
  induction fuel as [|fuel IH]; intros s b l e b' HI Hs Hcr0 Hscan Hrun;
    [discriminate|].
  cbn [ReadLine_loop] in Hrun. cbv zeta in Hrun.
  destruct (skip_lf_spec HI)
    as (HI1 & Hm1 & He1 & Hb1 & Hrd1 & Hw1 & Hmu1 & Hid & Hcr1).
  assert (Hscan1 : findCRLF (slice (buf (skip_lf b)) (r (skip_lf b))
                               (r (skip_lf b) + s)) = None).
  { destruct (crLine b) eqn:Hcr.
    - rewrite (Hcr0 eq_refl), Nat.add_0_r, slice_empty. reflexivity.
    - now rewrite (Hid eq_refl). }
  set (b1 := skip_lf b) in *. clearbody b1.
  destruct (Nat.ltb_spec (w b1) (r b1 + s)) as [Hbad|Hok]; [discriminate|].
  destruct (findCRLF (slice (buf b1) (r b1 + s) (w b1))) as [i0|] eqn:Hf.
  - injection Hrun as <- <- <-.
    pose proof (findCRLF_Some_lt _ Hf) as Hi. rewrite length_slice in Hi.
    pose proof (findCRLF_Some_before _ Hf) as Hbefore.
    pose proof (findCRLF_Some_at _ Hf) as Hat.
    rewrite <- (@nth_slice (buf b1) (r b1 + s) i0 (w b1)) in Hat by lia.
    cbn [r w buf crLine].
    replace (r b1 + (i0 + s) + 1 - 1) with (r b1 + s + i0) by lia.
    replace (r b1 + (i0 + s)) with (r b1 + s + i0) by lia.
    split_and; auto; try lia.
    rewrite (@slice_split (buf b1) (r b1) s (r b1 + s + i0)) by lia.
    apply findCRLF_app_None; [assumption|].
    rewrite (@slice_prefix (buf b1) (r b1 + s) i0 (w b1)) by lia.
    assumption.
  - destruct (err b1) as [e1|] eqn:Herr.
    + injection Hrun as <- <- <-. cbn [r w err]. split; [|auto].
      rewrite (@slice_split (buf b1) (r b1) s (w b1)) by lia.
      now apply findCRLF_app_None.
    + destruct (fill_spec HI1) as (HI2 & Hm2 & Hc2 & Hge & _).
      destruct (fill_keeps_unread HI1) as (Hr2 & p & Hp).
      assert (Hw1' : r b1 <= w b1) by (destruct HI1; assumption).
      assert (Hall : findCRLF (slice (buf b1) (r b1) (w b1)) = None).
      { rewrite (@slice_split (buf b1) (r b1) s (w b1)) by lia.
        now apply findCRLF_app_None. }
      apply (IH (w b1 - r b1) (fill b1) l e b' HI2); auto.
      * lia.
      * intros Hcr2. rewrite Hc2 in Hcr2. destruct (Hcr1 Hcr2) as [-> Hrw].
        lia.
      * rewrite Hr2. cbn [Nat.add].
        rewrite (@slice_prefix (buf (fill b1)) 0 (w b1 - r b1) (w (fill b1)))
          by lia.
        rewrite Hp, firstn_app, length_slice.
        replace (w b1 - r b1 - Nat.min (w b1 - r b1) (length (buf b1) - r b1))
          with 0 by (destruct HI1; lia).
        cbn [firstn]. rewrite app_nil_r.
        rewrite firstn_all2 by (rewrite length_slice; lia).
        exact Hall.
Qed.

(** X1.  Whatever the reader, between two calls: [ReadLine] returns, and
    the line it returns holds neither a carriage return nor a line feed.
    When it returns no error the byte just before the read cursor is the
    terminator that ended the line, and [crLine] tells whether it is a
    carriage return; when it returns an error the error slot is empty again
    and no byte is left unread. *)
Theorem X1_line_without_terminator (rd0 : R) (N : nat) (b : ReadBuffer R) :
  reachable rd0 N b ->
  exists l e b',
    ReadLine b = Some (l, e, b') /\
    no_terminator l /\
    match e with
    | Some _ => err b' = None /\ r b' = w b'
    | None =>
        0 < r b' /\ r b' <= w b' /\
        (nth (r b' - 1) (buf b') x00 = CR \/ nth (r b' - 1) (buf b') x00 = LF) /\
        crLine b' = Byte.eqb (nth (r b' - 1) (buf b') x00) CR
    end.
Proof.
  intros Hreach.
  destruct (transient_Inv (reachable_transient Hreach)) as [HI _].
  destruct (ReadLine_total HI) as (l & e & b' & Hrun & _).
  exists l, e, b'. split; [exact Hrun|].
  unfold ReadLine in Hrun.
  destruct (@ReadLine_loop_clean (maxSize b + 3) 0 b l e b' HI) as [Hl He];
    auto.
  - destruct HI. lia.
  - now rewrite Nat.add_0_r, slice_empty.
  - split; [now apply no_terminator_findCRLF | exact He].
Qed.

(** [fill] on every reader: the unread bytes move to the front of the
    buffer, what is read comes behind them, and the buffer stays within the
    capacity. *)
Lemma fill_any_reader (rd0 : R) (N : nat) (b : ReadBuffer R) :
  transient rd0 N b ->
  r (fill b) = 0 /\ length (buf (fill b)) <= N /\
  exists p,
    slice (buf (fill b)) 0 (w (fill b)) = slice (buf b) (r b) (w b) ++ p.
Proof.
  intros Ht. destruct (transient_Inv Ht) as [HI Hm].
  destruct (transient_Inv (@trans_fill R H rd0 N b Ht)) as [HIf Hmf].
  destruct (fill_keeps_unread HI) as [Hr Hp].
  split; [exact Hr|]. split; [|exact Hp].
  rewrite <- Hmf. apply (inv_len HIf).
Qed.

End AnyReader.

(** *** On a chunked source *)

(** X2.  [fill] never drops an unread byte: on every reader the unread
    bytes stand at the front of the buffer afterwards, followed by what was
    read, and the buffer stays within the capacity.  On a source that makes
    progress, a [fill] that starts without pending error reports
    [ErrBufferFull] exactly when the unread bytes alone are as many as the
    capacity, and then it has not read. *)
Theorem X2_fill_keeps_unread_bytes :
  (forall (R : Type) (HR : Reader R) (rd0 : R) (N : nat) (b : ReadBuffer R),
     transient rd0 N b ->
     r (fill b) = 0 /\ length (buf (fill b)) <= N /\
     exists p,
       slice (buf (fill b)) 0 (w (fill b)) = slice (buf b) (r b) (w b) ++ p) /\
  (forall (c : ChunkReader) (N : nat) (b : ReadBuffer ChunkReader),
     transient c N b -> err b = None -> progressing (sched (rd b)) = true ->
     (err (fill b) = Some ErrBufferFull <-> length (pending b) = N) /\
     (err (fill b) = Some ErrBufferFull -> rd (fill b) = rd b)).
Proof.
  split.
  - intros R HR rd0 N b Ht. exact (@fill_any_reader R HR rd0 N b Ht).
  - intros c N b Ht He Hsc.
    destruct (transient_Inv Ht) as [HI Hm].
    assert (Hsb : positive_sched (rd b)).
    { destruct (rd b) as [d sc]. now apply progressing_spec. }
    destruct (fill_chunk HI Hsb He) as (HIf & _ & _ & _ & _ & Hcase).
    subst N.
    destruct Hcase as [(Hee & _ & Hrd & Hfull) | [(Hee & _ & _ & _ & Hlt)
                      | (Hee & p & Hp & Hpe & _)]].
    + split; [split; auto | auto].
    + split; [split; [congruence | lia] | congruence].
    + split; [split; [congruence|] | congruence].
      intros Hfull. exfalso.
      destruct (fill_spec HI) as (_ & Hmf & _).
      pose proof (pending_length HIf) as Hlen.
      rewrite Hpe, length_app in Hlen.
      destruct HIf as [_ Hwl Hl _ _].
      destruct p; [contradiction|]. cbn [length] in Hlen. lia.
Qed.

Lemma X2_witness :
  let b := fill (New (strings_NewReader (bytes "foobar")) 6) in
  err (fill b) = Some ErrBufferFull /\ rd (fill b) = rd b.
Proof.
  intros b.
  assert (Ht : transient (strings_NewReader (bytes "foobar")) 6 b)
    by (apply trans_fill, trans_New).
  destruct (proj2 X2_fill_keeps_unread_bytes _ 6 b Ht eq_refl eq_refl)
    as [[_ Hfull] Hrd].
  specialize (Hfull eq_refl). split; [exact Hfull | exact (Hrd Hfull)].
Defined.

Lemma X1_witness :
  exists l e b',
    ReadLine (New (strings_NewReader (bytes "foo" ++ [CR; LF] ++ bytes "bar")) 8)
      = Some (l, e, b') /\
    no_terminator l.
Proof.
  destruct (@X1_line_without_terminator _ _
              (strings_NewReader (bytes "foo" ++ [CR; LF] ++ bytes "bar")) 8 _
              (reach_New _ 8)) as (l & e & b' & Hrun & Hl & _).
  exists l, e, b'. split; [exact Hrun | exact Hl].
Defined.

Lemma scan_split (N : nat) (cr1 : bool) (S1 l S' : list byte)
  (e : option error) (cr' : bool) :
  scan N cr1 S1 = (l, e, cr', S') ->
  S1 = l ++ match e with
            | None => [if cr' then CR else LF]
            | Some _ => []
            end ++ S'.
Proof.
  unfold scan. intros Hs.
  destruct (findCRLF (firstn N S1)) as [i|] eqn:Hf.
  - injection Hs as <- <- <- <-.
    pose proof (findCRLF_Some_lt _ Hf) as Hlt.
    pose proof (findCRLF_Some_at _ Hf) as Hat.
    rewrite length_firstn in Hlt.
    assert (Hnth : nth i (firstn N S1) x00 = nth i S1 x00).
    { rewrite <- (firstn_skipn N S1) at 2.
      rewrite app_nth1; [reflexivity | rewrite length_firstn; lia]. }
    rewrite Hnth in Hat.
    assert (Hc : (if Byte.eqb (nth i S1 x00) CR then CR else LF) = nth i S1 x00).
    { destruct Hat as [Hc | Hc]; rewrite Hc; reflexivity. }
    rewrite Hc. cbn [app].
    rewrite <- (firstn_skipn i S1) at 1. f_equal.
    assert (Hi : i < length S1) by lia. clear - Hi.
    revert S1 Hi. induction i as [|i IH]; intros [|c t] Hi;
      cbn [length] in Hi; try lia.
    + reflexivity.
    + cbn [skipn nth Nat.add]. apply IH. lia.
  - destruct (N <=? length S1); injection Hs as <- <- <- <-; cbn [app].
    + symmetry. apply firstn_skipn.
    + now rewrite app_nil_r.
Qed.

(** X3.  [ReadLine] neither loses nor invents a byte.  On a source that
    makes progress, the bytes that were still to come before a call (the
    unread bytes of the buffer followed by those of the source, without
    the line feed that completes a pending carriage-return/line-feed pair)
    are the line returned, the terminator when the line came without
    error (a carriage return when [crLine] is set afterwards, a line feed
    otherwise), and the bytes still to come after the call. *)
Theorem X3_no_byte_lost (c : ChunkReader) (N : nat)
  (b : ReadBuffer ChunkReader) :
  progressing (sched c) = true -> reachable c N b ->
  exists l e b',
    ReadLine b = Some (l, e, b') /\
    snd (drop_lf (crLine b) (stream b)) =
      l ++ match e with
           | None => [if crLine b' then CR else LF]
           | Some _ => []
           end ++ stream b'.
Proof.
  intros Hsc Hreach.
  assert (Hpos : positive_sched c).
  { destruct c as [d sc]. now apply progressing_spec. }
  destruct (reachable_InvC Hpos Hreach) as (HI & _ & _).
  destruct (ReadLine_refines HI) as (l & e & b' & Hrun & Hnext & _).
  exists l, e, b'. split; [exact Hrun|].
  unfold next_line in Hnext.
  destruct (drop_lf (crLine b) (stream b)) as [cr1 S1]. cbn [snd].
  exact (scan_split _ _ _ Hnext).
Qed.

Lemma X3_witness :
  exists l e b',
    ReadLine (New (mkChunkReader (bytes "a" ++ [CR; LF] ++ bytes "b") [2; 1]) 8)
      = Some (l, e, b') /\
    bytes "a" ++ [CR; LF] ++ bytes "b" =
      l ++ match e with
           | None => [if crLine b' then CR else LF]
           | Some _ => []
           end ++ stream b'.
Proof.
  exact (@X3_no_byte_lost
           (mkChunkReader (bytes "a" ++ [CR; LF] ++ bytes "b") [2; 1]) 8 _
           eq_refl (reach_New _ 8)).
Defined.

(** *** Reads that return nothing *)

Lemma copy_nil (dst : list byte) : copy dst [] = dst.
Proof. unfold copy. cbn [length]. now rewrite Nat.min_0_r. Qed.

(** A read that returns no byte and no error leaves everything but the
    source as it is, and costs one attempt. *)
Lemma fill_read_zero (i : nat) (b : ReadBuffer ChunkReader) (d : list byte)
  (sc : list nat) :
  d <> [] -> rd b = mkChunkReader d (0 :: sc) ->
  fill_read (S i) b =
  fill_read i {| buf := buf b; rd := mkChunkReader d sc; r := r b; w := w b;
                 err := err b; maxSize := maxSize b; crLine := crLine b |}.
Proof.
  intros Hd Hrd. cbn [fill_read]. cbn [Read ChunkReader_Reader].
  unfold ChunkReader_Read. rewrite Hrd. cbn [data sched hd tl].
  destruct d as [|c t]; [contradiction|].
  rewrite Nat.min_0_r. cbn [firstn skipn length Nat.ltb Nat.leb].
  rewrite copy_nil, firstn_skipn, Nat.add_0_r. reflexivity.
Qed.

Lemma fill_read_zeros (k : nat) :
  forall (i : nat) (b : ReadBuffer ChunkReader) (d : list byte) (sc : list nat),
  d <> [] -> rd b = mkChunkReader d (repeat 0 k ++ sc) ->
  fill_read (k + i) b =
  fill_read i {| buf := buf b; rd := mkChunkReader d sc; r := r b; w := w b;
                 err := err b; maxSize := maxSize b; crLine := crLine b |}.
Proof.
  induction k as [|k IH]; intros i b d sc Hd Hrd.
  - cbn [repeat app] in Hrd. rewrite <- Hrd. now destruct b.
  - cbn [repeat app] in Hrd. cbn [Nat.add].
    rewrite (@fill_read_zero (k + i) b d (repeat 0 k ++ sc) Hd Hrd).
    set (b1 := {| buf := buf b; rd := mkChunkReader d (repeat 0 k ++ sc);
                  r := r b; w := w b; err := err b; maxSize := maxSize b;
                  crLine := crLine b |}).
    exact (IH i b1 d sc Hd eq_refl).
Qed.

(** A read that returns bytes ends the loop of [fill], whatever the number
    of attempts that were left. *)
Lemma fill_read_once (i j : nat) (b : ReadBuffer ChunkReader) :
  data (rd b) <> [] -> w b < length (buf b) -> 0 < hd 1 (sched (rd b)) ->
  fill_read (S i) b = fill_read (S j) b.
Proof.
  intros Hd Hw Hs. cbn [fill_read]. cbn [Read ChunkReader_Reader].
  unfold ChunkReader_Read.
  destruct (data (rd b)) as [|c t] eqn:Hdata; [contradiction|].
  set (n := length (buf b) - w b) in *.
  assert (Hk : 0 < Nat.min n (hd n (sched (rd b)))).
  { destruct (sched (rd b)); cbn [hd] in *; lia. }
  destruct (Nat.min n (hd n (sched (rd b)))) as [|m]; [lia|].
  reflexivity.
Qed.

(** The first call on a new reader of positive capacity goes to [fill]
    at once, and [fill] to its read loop. *)
Lemma ReadLine_New (c : ChunkReader) (N : nat) :
  0 < N ->
  ReadLine (New c N) =
  ReadLine_loop (N + 2) 0 (fill_read maxConsecutiveEmptyReads (New c N)).
Proof.
  intros HN. unfold ReadLine. cbn [maxSize New].
  replace (N + 3) with (S (N + 2)) by lia.
  cbn [ReadLine_loop]. unfold skip_lf. cbn [crLine New r w buf err].
  rewrite slice_empty. cbn [findCRLF Nat.add Nat.ltb Nat.leb Nat.sub].
  unfold fill. cbn [New r w buf Nat.ltb Nat.leb].
  rewrite length_make.
  destruct (Nat.leb_spec (Nat.min N defaultBufSize) 0) as [Hle|Hlt];
    [unfold defaultBufSize in Hle; lia | reflexivity].
Qed.

(** X4.  Reads that return neither a byte nor an error.  Fewer than
    [maxConsecutiveEmptyReads] of them in a row, followed by a read that
    makes progress, go unnoticed: the first [ReadLine] gives what it gives
    without them.  With [maxConsecutiveEmptyReads] or more of them it gives
    up with the empty line and [io.ErrNoProgress] after exactly that many
    reads, and leaves the reader as new on the source, whose bytes are all
    still to come. *)
Theorem X4_empty_reads (d : list byte) (k N : nat) (sc : list nat) :
  0 < N -> d <> [] ->
  (k < maxConsecutiveEmptyReads -> 0 < hd 1 sc ->
   ReadLine (New (mkChunkReader d (repeat 0 k ++ sc)) N) =
   ReadLine (New (mkChunkReader d sc) N)) /\
  (maxConsecutiveEmptyReads <= k ->
   ReadLine (New (mkChunkReader d (repeat 0 k ++ sc)) N) =
   Some ([], Some ErrNoProgress,
         New (mkChunkReader d (repeat 0 (k - maxConsecutiveEmptyReads) ++ sc))
             N)).
Proof.
  intros HN Hd.
  assert (Hroom : forall c : ChunkReader, w (New c N) < length (buf (New c N))).
  { intros c. cbn [New w buf]. rewrite length_make.
    unfold defaultBufSize. lia. }
  split.
  - intros Hk Hsc.
    rewrite (@ReadLine_New (mkChunkReader d (repeat 0 k ++ sc)) N HN).
    rewrite (@ReadLine_New (mkChunkReader d sc) N HN).
    assert (E : exists j, maxConsecutiveEmptyReads = k + S j).
    { exists (maxConsecutiveEmptyReads - k - 1). lia. }
    destruct E as [j E].
    assert (Hfill :
      fill_read maxConsecutiveEmptyReads
        (New (mkChunkReader d (repeat 0 k ++ sc)) N) =
      fill_read maxConsecutiveEmptyReads (New (mkChunkReader d sc) N)).
    { rewrite E at 1.
      rewrite (@fill_read_zeros k (S j)
                 (New (mkChunkReader d (repeat 0 k ++ sc)) N) d sc Hd eq_refl).
      change maxConsecutiveEmptyReads with (S 99).
      apply (@fill_read_once j 99 (New (mkChunkReader d sc) N));
        [exact Hd | apply Hroom | exact Hsc]. }
    rewrite Hfill. reflexivity.
  - intros Hk.
    rewrite (@ReadLine_New (mkChunkReader d (repeat 0 k ++ sc)) N HN).
    assert (E : repeat 0 k ++ sc =
                repeat 0 maxConsecutiveEmptyReads ++
                (repeat 0 (k - maxConsecutiveEmptyReads) ++ sc)).
    { rewrite app_assoc, <- repeat_app. f_equal. f_equal. lia. }
    rewrite E.
    rewrite <- (Nat.add_0_r maxConsecutiveEmptyReads) at 1.
    rewrite (@fill_read_zeros maxConsecutiveEmptyReads 0
               (New (mkChunkReader d (repeat 0 maxConsecutiveEmptyReads ++
                  (repeat 0 (k - maxConsecutiveEmptyReads) ++ sc))) N)
               d _ Hd eq_refl).
    cbn [fill_read New buf rd r w err maxSize crLine].
    replace (N + 2) with (S (N + 1)) by lia.
    cbn [ReadLine_loop]. unfold skip_lf.
    cbn [buf rd r w err maxSize crLine].
    rewrite slice_empty. cbn [findCRLF Nat.add Nat.ltb Nat.leb].
    reflexivity.
Qed.

Lemma X4_witness :
  ReadLine (New (mkChunkReader (bytes "hello") (repeat 0 99 ++ [2])) 8) =
  ReadLine (New (mkChunkReader (bytes "hello") [2]) 8) /\
  ReadLine (New (mkChunkReader (bytes "hello") (repeat 0 100 ++ [2])) 8) =
  Some ([], Some ErrNoProgress, New (mkChunkReader (bytes "hello") [2]) 8).
Proof.
  assert (H8 : 0 < 8) by lia.
  assert (Hd : bytes "hello" <> []) by discriminate.
  split.
  - apply (proj1 (@X4_empty_reads (bytes "hello") 99 8 [2] H8 Hd)).
    + unfold maxConsecutiveEmptyReads. lia.
    + cbn [hd]. lia.
  - apply (proj2 (@X4_empty_reads (bytes "hello") 100 8 [2] H8 Hd)).
    unfold maxConsecutiveEmptyReads. lia.
Defined.

(** *** A pending error *)

(** What the line-feed block leaves unread. *)
Lemma skip_lf_unread (R : Type) (HR : Reader R) (b : ReadBuffer R) :
  slice (buf (skip_lf b)) (r (skip_lf b)) (w (skip_lf b)) =
  snd (drop_lf (crLine b) (slice (buf b) (r b) (w b))).
Proof.
  unfold skip_lf, drop_lf. destruct (crLine b); [|reflexivity].
  destruct (slice (buf b) (r b) (w b)) as [|c t] eqn:Hs;
    [now rewrite Hs|].
  cbn [buf r w snd]. destruct (Byte.eqb c LF); [|exact Hs].
  now rewrite slice_shift, Hs.
Qed.

(** X5.  An error of the source that came together with bytes is kept
    back until the complete lines among these bytes are returned.  With an
    error pending, [ReadLine] does not read the source: while the unread
    bytes hold a terminator it returns the line before it, without error,
    and the error stays pending; once they hold none it returns them with
    the error, and the error is no longer pending. *)
Theorem X5_pending_error_after_lines (R : Type) (HR : Reader R)
  (b : ReadBuffer R) (e : error) :
  Inv b -> err b = Some e ->
  let unread := snd (drop_lf (crLine b) (slice (buf b) (r b) (w b))) in
  exists l e' b',
    ReadLine b = Some (l, e', b') /\ rd b' = rd b /\ buf b' = buf b /\
    match findCRLF unread with
    | Some i => l = firstn i unread /\ e' = None /\ err b' = Some e
    | None => l = unread /\ e' = Some e /\ err b' = None /\ r b' = w b'
    end.
Proof.
  intros HI He unread. subst unread.
  rewrite <- (skip_lf_unread HR b).
  destruct (skip_lf_spec HI) as (HI1 & _ & He1 & Hb1 & Hrd1 & _).
  unfold ReadLine. replace (maxSize b + 3) with (S (maxSize b + 2)) by lia.
  cbn [ReadLine_loop]. cbv zeta.
  set (b1 := skip_lf b) in *.
  rewrite Nat.add_0_r.
  pose proof (inv_rw HI1) as Hrw.
  destruct (Nat.ltb_spec (w b1) (r b1)) as [Hlt|_]; [lia|].
  destruct (findCRLF (slice (buf b1) (r b1) (w b1))) as [i|] eqn:Hf.
  - eexists _, _, _. split; [reflexivity|]. cbn [rd buf err].
    split; [exact Hrd1|]. split; [exact Hb1|].
    rewrite Nat.add_0_r. split; [|split; [reflexivity | congruence]].
    apply slice_prefix.
    pose proof (findCRLF_Some_lt _ Hf) as Hlt.
    rewrite length_slice in Hlt. lia.
  - rewrite He1, He.
    eexists _, _, _. split; [reflexivity|]. cbn [rd buf err r w].
    split_and; auto.
Qed.

Lemma X5_witness :
  let b := mkReadBuffer (bytes "a" ++ [LF] ++ bytes "b")
             (strings_NewReader []) 0 3 (Some ErrNoProgress) 3 false in
  exists b1 b2,
    ReadLine b = Some (bytes "a", None, b1) /\
    ReadLine b1 = Some (bytes "b", Some ErrNoProgress, b2) /\
    err b2 = None.
Proof.
  intros b.
  assert (HI : Inv b) by (constructor; cbn; try lia; discriminate).
  destruct (@X5_pending_error_after_lines _ _ b ErrNoProgress HI eq_refl)
    as (l & e' & b1 & Hrun & _ & Hbuf & Hl & He' & Herr).
  cbn [firstn] in Hl. subst l e'.
  exists b1.
  destruct (ReadLine_total HI) as (l0 & e0 & b0 & Hrun0 & HI1 & _).
  rewrite Hrun in Hrun0. injection Hrun0 as _ _ <-.
  destruct (@X5_pending_error_after_lines _ _ b1 ErrNoProgress HI1 Herr)
    as (l & e' & b2 & Hrun2 & _ & _ & Hcase).
  exists b2. split; [exact Hrun|].
  assert (Hb1 : ReadLine b = Some (bytes "a", None, b1)) by exact Hrun.
  vm_compute in Hb1. injection Hb1 as <-.
  cbn in Hcase. destruct Hcase as (-> & -> & Hnone & _).
  split; [exact Hrun2 | exact Hnone].
Defined.

(** *** The size of the buffer *)

Section Growth.

Context {R : Type} `{Reader R}.

Lemma fill_read_length (i : nat) (b : ReadBuffer R) :
  Inv b -> length (buf (fill_read i b)) = length (buf b).
Proof. intros HI. now destruct (fill_read_spec i HI) as (_ & _ & _ & _ & _ & Hl & _). Qed.

(** [fill] keeps the size of the buffer, or doubles it at most, and only
    when the unread bytes take all of it. *)
Lemma fill_length (b : ReadBuffer R) :
  Inv b ->
  length (buf b) <= length (buf (fill b)) /\
  length (buf (fill b)) <= Nat.max (length (buf b)) (2 * (w b - r b)).
Proof.
  intros HI. unfold fill.
  set (b1 := if 0 <? r b then _ else b).
  assert (H1 : Inv b1 /\ length (buf b1) = length (buf b) /\
               w b1 = w b - r b).
  { subst b1. destruct HI as [Hrw Hwl Hl Hp Hc].
    destruct (Nat.ltb_spec 0 (r b)).
    - split_and; cbn [r w buf]; rewrite ?length_copy; auto.
      constructor; cbn [r w buf maxSize crLine]; rewrite ?length_copy;
        auto; lia.
    - split_and; auto; [constructor; auto | lia]. }
  clearbody b1. destruct H1 as (HI1 & Hl1 & Hw1).
  destruct (Nat.leb_spec (length (buf b1)) (w b1)) as [Hfull|Hroom].
  - pose proof (grow_spec HI1) as Hg. unfold grow in *.
    destruct (Nat.leb_spec (maxSize b1) (length (buf b1))) as [Hmax|Hmax].
    + cbn [buf]. lia.
    + destruct Hg as (HI2 & _).
      rewrite (fill_read_length maxConsecutiveEmptyReads HI2).
      cbn [buf]. rewrite length_copy, length_make. lia.
  - rewrite (fill_read_length maxConsecutiveEmptyReads HI1). lia.
Qed.

Lemma ReadLine_loop_length (fuel : nat) :
  forall (s : nat) (b : ReadBuffer R) l e b',
  Inv b ->
  r b + s <= w b ->
  (crLine b = true -> s = 0) ->
  ReadLine_loop fuel s b = Some (l, e, b') ->
  s <= length l /\
  length (buf b) <= length (buf b') /\
  length (buf b') <= Nat.max (length (buf b)) (2 * length l).
Proof.
  induction fuel as [|fuel IH]; intros s b l e b' HI Hs Hcr0 Hrun;
    [discriminate|].
  cbn [ReadLine_loop] in Hrun. cbv zeta in Hrun.
  destruct (skip_lf_spec HI)
    as (HI1 & Hm1 & He1 & Hb1 & Hrd1 & Hw1 & Hmu1 & Hid & Hcr1).
  rewrite <- Hb1.
  assert (Hs1 : crLine b = true -> s = 0) by exact Hcr0.
  set (b1 := skip_lf b) in *. clearbody b1.
  destruct (Nat.ltb_spec (w b1) (r b1 + s)) as [Hbad|Hok]; [discriminate|].
  pose proof (inv_wlen HI1) as Hwl.
  destruct (findCRLF (slice (buf b1) (r b1 + s) (w b1))) as [i0|] eqn:Hf.
  - injection Hrun as <- <- <-.
    pose proof (findCRLF_Some_lt _ Hf) as Hi. rewrite length_slice in Hi.
    cbn [buf]. rewrite length_slice. lia.
  - destruct (err b1) as [e1|] eqn:Herr.
    + injection Hrun as <- <- <-. cbn [buf]. rewrite length_slice. lia.
    + destruct (fill_spec HI1) as (HI2 & Hm2 & Hc2 & Hge & _).
      destruct (fill_keeps_unread HI1) as (Hr2 & _).
      destruct (fill_length HI1) as [Hl1 Hl2].
      destruct (IH (w b1 - r b1) (fill b1) l e b' HI2) as (A1 & A2 & A3);
        auto.
      * lia.
      * intros Hcr2. rewrite Hc2 in Hcr2. destruct (Hcr1 Hcr2) as [-> Hrw].
        lia.
      * lia.
Qed.

(** X16.  The memory of the line reader.  The buffer of a new reader has
    [min(maxSize, defaultBufSize)] bytes.  A call of [ReadLine] never
    shrinks it, and leaves it no larger than it was unless the line it
    returns called for more: then it is at most twice as long as that
    line. *)
Theorem X16_buffer_grows_with_the_line (rd0 : R) (N : nat)
  (b : ReadBuffer R) :
  reachable rd0 N b ->
  length (buf (New rd0 N)) = Nat.min N defaultBufSize /\
  exists l e b',
    ReadLine b = Some (l, e, b') /\
    length (buf b) <= length (buf b') /\
    length (buf b') <= Nat.max (length (buf b)) (2 * length l).
Proof.
  intros Hreach. split; [apply length_make|].
  destruct (transient_Inv (reachable_transient Hreach)) as [HI _].
  destruct (ReadLine_total HI) as (l & e & b' & Hrun & _).
  exists l, e, b'. split; [exact Hrun|].
  unfold ReadLine in Hrun.
  destruct (@ReadLine_loop_length (maxSize b + 3) 0 b l e b' HI) as (_ & A2 & A3);
    auto.
  pose proof (inv_rw HI). lia.
Qed.

End Growth.

Lemma X16_witness :
  exists l e b',
    ReadLine (New (strings_NewReader (bytes "0123456789" ++ [LF])) 64)
      = Some (l, e, b') /\
    length (buf b') <= Nat.max 64 (2 * length l).
Proof.
  destruct (@X16_buffer_grows_with_the_line _ _
              (strings_NewReader (bytes "0123456789" ++ [LF])) 64 _
              (reach_New _ 64)) as (_ & l & e & b' & Hrun & _ & Hmax).
  exists l, e, b'. split; [exact Hrun|].
  change (length (buf (New (strings_NewReader (bytes "0123456789" ++ [LF])) 64)))
    with 64 in Hmax.
  exact Hmax.
Defined.

(** *** The tests of the package *)

(** The checks of [TestReadBuffer], on the embedding. *)
Example TestReadBuffer :
  let run s n k := option_map fst (read_n k (New (strings_NewReader s) n)) in
  run (bytes "foo" ++ [CR; LF] ++ bytes "bar") 4096 3 =
    Some [(bytes "foo", None); (bytes "bar", Some EOF); ([], Some EOF)] /\
  run (bytes "foo" ++ [CR] ++ bytes "bar") 4096 3 =
    Some [(bytes "foo", None); (bytes "bar", Some EOF); ([], Some EOF)] /\
  run (bytes "foo" ++ [LF] ++ bytes "bar") 4096 3 =
    Some [(bytes "foo", None); (bytes "bar", Some EOF); ([], Some EOF)] /\
  run (bytes "foo" ++ [CR; LF] ++ bytes "bar" ++ [LF]) 4096 3 =
    Some [(bytes "foo", None); (bytes "bar", None); ([], Some EOF)] /\
  run (bytes "foo" ++ [CR; LF] ++ bytes "bar" ++ [LF; CR; LF]) 4096 4 =
    Some [(bytes "foo", None); (bytes "bar", None); ([], None);
          ([], Some EOF)] /\
  run (bytes "foobar") 7 1 = Some [(bytes "foobar", Some EOF)] /\
  run (bytes "foobar") 6 1 = Some [(bytes "foobar", Some ErrBufferFull)] /\
  run (bytes "foobar") 5 1 = Some [(bytes "fooba", Some ErrBufferFull)].
Proof. cbv zeta. split_and; vm_compute; reflexivity. Qed.

End BufferMore.

(** ** More on the client *)

Module EventSourceMore.

Import Buffer BufferSpec BufferProofs EventSource EventSourceSpec.
Import EventSourceProofs TraceSpec.

Local Open Scope Z_scope.

(** *** What a line may change, and what it may call *)

Lemma len_nonneg (s : gslice) : 0 <= len s.
Proof. unfold len. lia. Qed.

Lemma within_GNil (limit : Z) : within GNil limit.
Proof. unfold within. cbn. lia. Qed.

Lemma within_reslice0 (s : gslice) (limit : Z) :
  within s limit -> within (reslice0 s) limit.
Proof.
  intros [H1 H2]. pose proof (len_nonneg s).
  destruct s; [apply within_GNil|]. unfold within in *. cbn in *. lia.
Qed.

Lemma len_append (s : gslice) (ns : list byte) :
  len (append s ns) = len s + Z.of_nat (length ns).
Proof. unfold len. rewrite elems_append, length_app. lia. Qed.

Lemma cap_append (s : gslice) (ns : list byte) :
  len s + Z.of_nat (length ns) <= cap s -> cap (append s ns) = cap s.
Proof.
  intros Hfit. unfold append. destruct ns as [|c t]; [reflexivity|].
  cbn [cap]. destruct (Z.leb_spec (len s + Z.of_nat (length (c :: t))) (cap s));
    [reflexivity | lia].
Qed.

Lemma len_growMaybeLimit (s : gslice) (n limit : Z) :
  len (growMaybeLimit s n limit) = len s.
Proof. unfold len. now rewrite elems_growMaybeLimit. Qed.

(** [appendLimit] keeps a slice within its limit: the capacity it gives
    the buffer is enough for the bytes and never above the limit. *)
Lemma appendLimit_within (s : gslice) (ns : list byte) (limit : Z) :
  within s limit -> within (fst (appendLimit s ns limit)) limit.
Proof.
  intros [Hlen Hcap]. pose proof (len_nonneg s) as H0.
  unfold appendLimit.
  destruct (Z.eqb_spec (len s) 0) as [Hz|Hnz]; cbn [negb];
    rewrite Z.gtb_ltb;
    match goal with |- context [?a <? ?b] => destruct (Z.ltb_spec a b) end;
    cbn [fst]; try apply within_GNil.
  - set (g := growMaybeLimit s (Z.of_nat (length ns)) limit).
    assert (Hg : Z.of_nat (length ns) <= cap g /\ cap g <= Z.max 0 limit).
    { subst g. unfold growMaybeLimit.
      destruct (Z.ltb_spec (cap s) (Z.of_nat (length ns))); cbn [cap]; lia. }
    assert (Hl : len g = len s) by apply len_growMaybeLimit.
    unfold within. rewrite len_append, cap_append; lia.
  - set (n := len s + 1 + Z.of_nat (length ns)) in *.
    set (g := growMaybeLimit s n limit).
    assert (Hg : n <= cap g /\ cap g <= Z.max 0 limit).
    { subst g. unfold growMaybeLimit.
      destruct (Z.ltb_spec (cap s) n); cbn [cap]; lia. }
    assert (Hl : len g = len s) by apply len_growMaybeLimit.
    assert (H1 : cap (append g [LF]) = cap g).
    { apply cap_append. cbn [length]. lia. }
    assert (H2 : len (append g [LF]) = len s + 1).
    { rewrite len_append, Hl. reflexivity. }
    unfold within. rewrite len_append, cap_append; lia.
Qed.

Lemma handle_field_frame (es : EventSource) (key : list byte)
  (val : option (list byte)) :
  req (handle_field es key val) = req es /\
  callback (handle_field es key val) = callback es /\
  bp (handle_field es key val) = bp es.
Proof.
  unfold handle_field.
  destruct (Equal key knownFieldNameID).
  { destruct (appendLimit _ _ _); cbn; auto. }
  destruct (Equal key knownFieldNameEvent).
  { destruct (appendLimit _ _ _); cbn; auto. }
  destruct (Equal key knownFieldNameData).
  { destruct (appendLimit _ _ _); cbn; auto. }
  destruct (Equal key knownFieldNameRetry); [|auto].
  destruct (ParseInt (bytes_of val)); cbn; auto.
Qed.

Lemma handle_field_bounded (es : EventSource) (key : list byte)
  (val : option (list byte)) :
  bounded es -> bounded (handle_field es key val).
Proof.
  intros (Hi & He & Hd). unfold handle_field.
  destruct (Equal key knownFieldNameID).
  { pose proof (@appendLimit_within (reslice0 (idBuf es)) (bytes_of val)
                  (MaxID (bp es)) (within_reslice0 Hi)) as Hw.
    destruct (appendLimit _ _ _). unfold bounded. cbn in *. auto. }
  destruct (Equal key knownFieldNameEvent).
  { pose proof (@appendLimit_within (reslice0 (eventBuf es)) (bytes_of val)
                  (MaxEvent (bp es)) (within_reslice0 He)) as Hw.
    destruct (appendLimit _ _ _). unfold bounded. cbn in *. auto. }
  destruct (Equal key knownFieldNameData).
  { pose proof (@appendLimit_within (dataBuf es) (bytes_of val)
                  (MaxData (bp es)) Hd) as Hw.
    destruct (appendLimit _ _ _). unfold bounded. cbn in *. auto. }
  destruct (Equal key knownFieldNameRetry); [|unfold bounded; auto].
  destruct (ParseInt (bytes_of val)); unfold bounded; cbn; auto.
Qed.

Lemma dispatch_facts (es : EventSource) (m : Message) (e : option error) :
  forallb is_call (dispatch es m e) = true /\
  (callback es = false -> dispatch es m e = []) /\
  (callback es = true -> dispatch es m e = [Call m e]).
Proof.
  unfold dispatch. destruct (callback es); cbn [forallb is_call andb];
    split_and; auto; discriminate.
Qed.

Lemma bounded_noMessage (p : BufferParameters) (e : option error) :
  bounded_event p (Call noMessage e).
Proof. cbn. split_and; apply within_GNil. Qed.

Lemma process_line_facts (es : EventSource) (line : list byte) :
  line_facts es (fst (process_line es line)) (snd (process_line es line)).
Proof.
  unfold process_line, line_facts.
  destruct (length line =? 0)%nat; cbn [fst snd].
  - cbn [perMessageReset req callback bp].
    split_and; auto.
    + destruct (msgErr es); apply dispatch_facts.
    + unfold dispatch. destruct (callback es); [|destruct (msgErr es); constructor].
      destruct (msgErr es); (constructor; [cbn; auto | constructor]).
    + intros Hc. destruct (msgErr es); now apply dispatch_facts.
    + intros (Hi & He & Hd). split.
      * unfold bounded. cbn. split_and; now apply within_reslice0.
      * unfold dispatch. destruct (callback es); [|destruct (msgErr es); constructor].
        destruct (msgErr es); (constructor; [|constructor]).
        -- apply bounded_noMessage.
        -- cbn. auto.
  - destruct (msgErr es).
    { cbn [fst snd]. split_and; auto. }
    destruct (splitLine line) as [key val].
    destruct (length key =? 0)%nat; cbn [fst snd].
    { split_and; auto. }
    destruct (handle_field_frame es key val) as (H1 & H2 & H3).
    split_and; auto. intros Hb. split; [now apply handle_field_bounded | constructor].
Qed.

Lemma line_facts_trans (a b c : EventSource) (e1 e2 : list event) :
  line_facts a b e1 -> line_facts b c e2 -> line_facts a c (e1 ++ e2).
Proof.
  intros (A1 & A2 & A3 & A4 & A5 & A6 & A7) (B1 & B2 & B3 & B4 & B5 & B6 & B7).
  unfold line_facts. split_and; try congruence.
  - rewrite forallb_app, A4, B4. reflexivity.
  - now apply Forall_app.
  - intros Hc. rewrite (A6 Hc), (B6 ltac:(congruence)). reflexivity.
  - intros Hb. destruct (A7 Hb) as [Hb1 He1]. destruct (B7 Hb1) as [Hb2 He2].
    split; [assumption|]. apply Forall_app. split; [assumption|].
    now rewrite <- A3.
Qed.

Lemma line_facts_refl (a : EventSource) : line_facts a a [].
Proof. unfold line_facts. split_and; auto. Qed.

Lemma process_lines_facts (ls : list (list byte)) : forall es : EventSource,
  line_facts es (fst (process_lines es ls)) (snd (process_lines es ls)).
Proof.
  induction ls as [|l ls IH]; intros es; cbn [process_lines].
  - apply line_facts_refl.
  - pose proof (process_line_facts es l) as H1.
    destruct (process_line es l) as [es1 evs1]. cbn [fst snd] in H1.
    pose proof (IH es1) as H2.
    destruct (process_lines es1 ls) as [es2 evs2]. cbn [fst snd] in *.
    exact (line_facts_trans H1 H2).
Qed.

Lemma read_loop_facts {R : Type} `{Reader R} (fuel : nat) :
  forall (es : EventSource) (rb : ReadBuffer R),
  line_facts es (snd (fst (read_loop fuel es rb))) (snd (read_loop fuel es rb)).
Proof.
  induction fuel as [|fuel IH]; intros es rb; cbn [read_loop].
  - apply line_facts_refl.
  - destruct (ReadLine rb) as [[[line [e|]] rb']|]; cbn [fst snd].
    + destruct (errors_Is e Canceled); [apply line_facts_refl|].
      destruct (errors_Is e EOF); [apply line_facts_refl|].
      cbn [fst snd]. unfold line_facts. split_and; auto.
      * apply dispatch_facts.
      * unfold dispatch. destruct (callback es); constructor;
          [cbn; auto | constructor].
      * intros Hc. now apply dispatch_facts.
      * intros Hb. split; [assumption|].
        unfold dispatch. destruct (callback es); constructor;
          [apply bounded_noMessage | constructor].
    + pose proof (process_line_facts es line) as H1.
      destruct (process_line es line) as [es1 evs1]. cbn [fst snd] in H1.
      pose proof (IH es1 rb') as H2.
      destruct (read_loop fuel es1 rb') as [[out es2] evs2]. cbn [fst snd] in *.
      exact (line_facts_trans H1 H2).
    + apply line_facts_refl.
Qed.

(** *** One attempt *)

(** X6.  The trace of an attempt, whatever the reader and the HTTP client
    do: one request first, the one built from the state at the start; then
    calls of the callback only, each with a message or with an error and
    never with both, and none at all without a callback; last the sleep of
    the delay the state has by then.  The attempt leaves the request
    prototype, the callback and the buffer parameters as they are. *)
Theorem X6_attempt_trace (R : Type) (HR : Reader R) (fuel : nat)
  (es : EventSource) (client : Request -> DoResult R) :
  let es' := snd (fst (processRequest fuel es client)) in
  exists calls,
    trace (processRequest fuel es client) =
      Do (newRequest es) :: calls ++ [Sleep (retryTimeout es')] /\
    forallb is_call calls = true /\
    Forall message_or_error calls /\
    (callback es = false -> calls = []) /\
    req es' = req es /\ callback es' = callback es /\ bp es' = bp es.
Proof.
  unfold trace, processRequest.
  assert (Hd : forall e,
            forallb is_call (dispatch es noMessage (Some e)) = true /\
            Forall message_or_error (dispatch es noMessage (Some e)) /\
            (callback es = false -> dispatch es noMessage (Some e) = [])).
  { intros e. unfold dispatch. destruct (callback es); split_and; auto;
      try discriminate. constructor; [cbn; auto | constructor]. }
  destruct (client (newRequest es)) as [e|status ctype body].
  - destruct (errors_Is e Canceled); cbn [fst snd].
    + exists []. split_and; auto.
    + destruct (Hd (Wrap "eventsource: http response error" e)) as (H1 & H2 & H3).
      eexists. split; [reflexivity|]. split_and; auto.
  - destruct (negb (status =? 200)); cbn [fst snd].
    { destruct (Hd ErrInvalidStatus) as (H1 & H2 & H3).
      eexists. split; [reflexivity|]. split_and; auto. }
    destruct (negb (String.eqb ctype "text/event-stream")); cbn [fst snd].
    { destruct (Hd ErrInvalidContentType) as (H1 & H2 & H3).
      eexists. split; [reflexivity|]. split_and; auto. }
    destruct (MaxReadBuffer (bp (perRequestReset es)) <? 0); cbn [fst snd].
    { exists []. split_and; auto. }
    pose proof (read_loop_facts fuel (perRequestReset es)
                  (Buffer.New body (Z.to_nat (MaxReadBuffer (bp (perRequestReset es))))))
      as (F1 & F2 & F3 & F4 & F5 & F6 & _).
    destruct (read_loop fuel _ _) as [[out es'] evs]. cbn [fst snd] in *.
    exists evs. split_and; auto.
Qed.

(** X8.  With a callback, the assembler calls it once for every blank
    line, also for a blank line that follows another one, and for no other
    line. *)
Theorem X8_one_call_per_blank_line (es : EventSource)
  (ls : list (list byte)) :
  callback es = true ->
  length (snd (process_lines es ls)) = length (filter blank ls) /\
  forallb is_call (snd (process_lines es ls)) = true.
Proof.
  intros Hc. split; [|apply process_lines_facts].
  revert es Hc. induction ls as [|l ls IH]; intros es Hc;
    cbn [process_lines filter]; [reflexivity|].
  pose proof (process_line_facts es l) as (_ & Hc1 & _).
  assert (Hl : length (snd (process_line es l)) =
               if blank l then 1%nat else 0%nat).
  { unfold process_line, blank, dispatch. rewrite Hc.
    destruct (length l =? 0)%nat; [destruct (msgErr es); reflexivity|].
    destruct (msgErr es); [reflexivity|].
    destruct (splitLine l) as [key val].
    destruct (length key =? 0)%nat; reflexivity. }
  destruct (process_line es l) as [es1 evs1]. cbn [fst snd] in *.
  specialize (IH es1 ltac:(congruence)).
  destruct (process_lines es1 ls) as [es2 evs2]. cbn [snd] in *.
  rewrite length_app, Hl, IH. destruct (blank l); reflexivity.
Qed.

Lemma X8_witness :
  length (snd (process_lines client0
                 [bytes "data: a"; []; []; bytes ": ping"; bytes "id"; []]))
  = 3%nat.
Proof.
  exact (proj1 (@X8_one_call_per_blank_line client0
                  [bytes "data: a"; []; []; bytes ": ping"; bytes "id"; []]
                  eq_refl)).
Defined.

(** *** The limits *)

Lemma processRequest_bounded {R : Type} `{Reader R} (fuel : nat)
  (es : EventSource) (client : Request -> DoResult R) :
  bp (snd (fst (processRequest fuel es client))) = bp es /\
  Forall (bounded_event (bp es)) (snd (processRequest fuel es client)) /\
  (bounded es -> bounded (snd (fst (processRequest fuel es client)))).
Proof.
  unfold processRequest.
  assert (Hd : forall e,
            Forall (bounded_event (bp es)) (dispatch es noMessage (Some e))).
  { intros e. unfold dispatch. destruct (callback es); constructor;
      [apply bounded_noMessage | constructor]. }
  assert (Hw : forall e d,
            Forall (bounded_event (bp es))
              (Do (newRequest es) :: dispatch es noMessage (Some e) ++ [Sleep d])).
  { intros e d. constructor; [exact I|]. apply Forall_app. split; [apply Hd|].
    constructor; [exact I | constructor]. }
  destruct (client (newRequest es)) as [e|status ctype body].
  - destruct (errors_Is e Canceled); cbn [fst snd]; split_and; auto.
    repeat constructor.
  - destruct (negb (status =? 200)); cbn [fst snd]; [split_and; auto|].
    destruct (negb (String.eqb ctype "text/event-stream")); cbn [fst snd];
      [split_and; auto|].
    assert (Hb : bounded (perRequestReset es)).
    { unfold bounded. cbn. split_and; apply within_GNil. }
    destruct (MaxReadBuffer (bp (perRequestReset es)) <? 0); cbn [fst snd].
    { split_and; auto. repeat constructor. }
    pose proof (read_loop_facts fuel (perRequestReset es)
                  (Buffer.New body (Z.to_nat (MaxReadBuffer (bp (perRequestReset es))))))
      as (_ & _ & F3 & _ & _ & _ & F7).
    destruct (F7 Hb) as [Hb' Hev].
    destruct (read_loop fuel _ _) as [[out es'] evs]. cbn [fst snd] in *.
    split_and; auto.
    constructor; [exact I|]. apply Forall_app. split; [exact Hev|].
    constructor; [exact I | constructor].
Qed.

Lemma worker_bounded {R : Type} `{Reader R} (fuel : nat)
  (clients : list (Request -> DoResult R)) : forall es : EventSource,
  bounded es ->
  bp (snd (fst (worker fuel es clients))) = bp es /\
  Forall (bounded_event (bp es)) (snd (worker fuel es clients)) /\
  bounded (snd (fst (worker fuel es clients))).
Proof.
  induction clients as [|client rest IH]; intros es Hb; cbn [worker].
  - cbn [fst snd]. auto.
  - destruct (processRequest_bounded fuel es client) as (H1 & H2 & H3).
    specialize (H3 Hb).
    destruct (processRequest fuel es client) as [[out es1] evs1].
    cbn [fst snd] in *.
    destruct out as [[|]| |]; cbn [fst snd]; auto.
    destruct (IH es1 H3) as (I1 & I2 & I3).
    destruct (worker fuel es1 rest) as [[out2 es2] evs2]. cbn [fst snd] in *.
    split_and; [congruence | | assumption].
    apply Forall_app. split; [assumption|]. now rewrite <- H1.
Qed.

(** X10.  The limits hold for everything the worker of a new client hands
    to the callback and keeps in memory, on every reader and with every
    behaviour of the HTTP client: the identifier, the type and the data of
    a message are at most as long as the limits [MaxID], [MaxEvent] and
    [MaxData] the client was made with (the defaults where none was given),
    and so are the capacities of the buffers they lie in. *)
Theorem X10_messages_within_limits (R : Type) (HR : Reader R) (fuel : nat)
  (req0 : Request) (cb : bool) (bp0 : BufferParameters)
  (clients : list (Request -> DoResult R)) :
  let es := New req0 cb bp0 in
  Forall (bounded_event (bp es)) (trace (worker fuel es clients)) /\
  bounded (snd (fst (worker fuel es clients))) /\
  bp (snd (fst (worker fuel es clients))) = bp es.
Proof.
  intros es.
  assert (Hb : bounded es).
  { unfold bounded. cbn. split_and; apply within_GNil. }
  destruct (worker_bounded fuel clients Hb) as (H1 & H2 & H3).
  unfold trace. auto.
Qed.

(** *** Attempts that fail before the body is read *)

Lemma processRequest_fails {R : Type} `{Reader R} (fuel : nat)
  (es : EventSource) (client : Request -> DoResult R) (e : error) :
  fails (client (newRequest es)) e ->
  processRequest fuel es client =
  (Returns true, es,
   Do (newRequest es) :: dispatch es noMessage (Some e)
     ++ [Sleep (retryTimeout es)]).
Proof.
  intros Hf. unfold processRequest.
  inversion Hf as [e0 Hc Hcl | status ctype body Hs Hcl | ctype body Hc Hcl].
  - now rewrite Hc.
  - destruct (Z.eqb_spec status 200); [contradiction | reflexivity].
  - cbn [Z.eqb Pos.eqb negb].
    destruct (String.eqb_spec ctype "text/event-stream");
      [contradiction | reflexivity].
Qed.

(** X7.  Attempts that fail before the body is read (a transport error
    other than the cancellation, a status other than 200, a content type
    other than [text/event-stream]) leave the state of the client as it
    is: each of them sends the same request, [Last-Event-Id] header
    included, reports its error once through the callback, with the empty
    message, and sleeps the same delay; the worker then goes on with the
    next attempt, however many fail in a row. *)
Theorem X7_failed_attempts_retry_unchanged (R : Type) (HR : Reader R)
  (fuel : nat) (es : EventSource)
  (failing : list ((Request -> DoResult R) * error))
  (rest : list (Request -> DoResult R)) :
  Forall (fun a => fails (fst a (newRequest es)) (snd a)) failing ->
  worker fuel es (map fst failing ++ rest) =
  let '(out, es', evs) := worker fuel es rest in
  (out, es',
   flat_map (fun a => Do (newRequest es)
                        :: dispatch es noMessage (Some (snd a))
                        ++ [Sleep (retryTimeout es)]) failing ++ evs).
Proof.
  induction 1 as [|[client e] failing Hf _ IH]; cbn [map app flat_map].
  - destruct (worker fuel es rest) as [[out es'] evs]. reflexivity.
  - cbn [worker]. cbn [fst snd] in Hf.
    rewrite (processRequest_fails fuel es client Hf), IH.
    destruct (worker fuel es rest) as [[out es'] evs]. cbn [fst snd app].
    now rewrite <- !app_assoc.
Qed.

Lemma X7_witness :
  trace (worker 10
           (fst (process_lines client0 [bytes "id: 7"]))
           [(fun _ => DoError (ErrOther "connection refused"));
            (fun _ => DoResponse 503 "text/html" (strings_NewReader []));
            (fun _ => DoResponse 200 "text/html" (strings_NewReader []));
            cancelled]) =
  [Do (mkRequest [("Last-Event-Id"%string, bytes "7")]);
   Call noMessage
     (Some (Wrap "eventsource: http response error"
              (ErrOther "connection refused")));
   Sleep (1 * Second);
   Do (mkRequest [("Last-Event-Id"%string, bytes "7")]);
   Call noMessage (Some ErrInvalidStatus);
   Sleep (1 * Second);
   Do (mkRequest [("Last-Event-Id"%string, bytes "7")]);
   Call noMessage (Some ErrInvalidContentType);
   Sleep (1 * Second);
   Do (mkRequest [("Last-Event-Id"%string, bytes "7")]);
   Sleep (1 * Second)].
Proof.
  rewrite (@X7_failed_attempts_retry_unchanged ChunkReader _ 10
             (fst (process_lines client0 [bytes "id: 7"]))
             [(fun _ => DoError (ErrOther "connection refused"),
               Wrap "eventsource: http response error"
                 (ErrOther "connection refused"));
              (fun _ => DoResponse 503 "text/html" (strings_NewReader []),
               ErrInvalidStatus);
              (fun _ => DoResponse 200 "text/html" (strings_NewReader []),
               ErrInvalidContentType)]
             [cancelled]).
  - reflexivity.
  - repeat constructor; discriminate.
Defined.

(** *** The message that is assembled *)

Lemma last_cons (A : Type) (l : list A) (v d : A) :
  last (v :: l) d = last l v.
Proof.
  revert v d. induction l as [|x l IH]; intros v d; [reflexivity|].
  change (last (v :: x :: l) d) with (last (x :: l) d).
  now rewrite !IH.
Qed.

Lemma data_step_length (acc v : list byte) :
  (length acc <= length (data_step acc v))%nat.
Proof.
  unfold data_step. destruct acc; cbn [length]; [lia|].
  rewrite length_app. cbn [length]. lia.
Qed.

Lemma fold_data_step_length (vs : list (list byte)) : forall acc : list byte,
  (length acc <= length (fold_left data_step vs acc))%nat.
Proof.
  induction vs as [|v vs IH]; intros acc; cbn [fold_left]; [lia|].
  pose proof (data_step_length acc v). pose proof (IH (data_step acc v)). lia.
Qed.

Lemma fold_data_step_nonempty (vs : list (list byte)) :
  forall acc : list byte,
  acc <> [] -> fold_left data_step vs acc = acc ++ flat_map (cons LF) vs.
Proof.
  induction vs as [|v vs IH]; intros acc Ha; cbn [fold_left flat_map].
  - now rewrite app_nil_r.
  - assert (E : data_step acc v = acc ++ LF :: v).
    { destruct acc; [contradiction | reflexivity]. }
    rewrite E, IH.
    + now rewrite <- app_assoc.
    + destruct acc; [contradiction | discriminate].
Qed.

(** The data fields of a message: the values joined by line feeds, the
    empty values at the front left out. *)
Lemma fold_data_step_join (vs : list (list byte)) :
  fold_left data_step vs [] = join (drop_empty vs).
Proof.
  induction vs as [|v vs IH]; [reflexivity|].
  destruct v as [|c v]; cbn [fold_left data_step drop_empty]; [exact IH|].
  cbn [join]. apply fold_data_step_nonempty. discriminate.
Qed.

Lemma needed_data_step (s : gslice) (v : list byte) :
  needed s v = Z.of_nat (length (data_step (elems s) v)).
Proof.
  unfold needed, len, data_step. destruct (elems s) as [|c t]; [reflexivity|].
  cbn [length]. rewrite length_app. cbn [length].
  destruct (Z.eqb_spec (Z.of_nat (S (length t))) 0); lia.
Qed.

Lemma appendLimit_data_step (s : gslice) (v : list byte) (limit : Z) :
  Z.of_nat (length (data_step (elems s) v)) <= limit ->
  exists s',
    appendLimit s v limit = (s', None) /\ elems s' = data_step (elems s) v.
Proof.
  intros Hfit. rewrite <- needed_data_step in Hfit.
  destruct (@appendLimit_fits s v limit Hfit) as (s' & Ha & He).
  exists s'. split; [exact Ha|]. rewrite He.
  unfold len, data_step. destruct (elems s); reflexivity.
Qed.

Lemma splitLine_field_line (f : list byte * list byte) :
  Index (fst f) ":"%byte = None ->
  splitLine (field_line f) = (fst f, Some (snd f)).
Proof.
  intros Hk. unfold field_line.
  change (bytes ": " ++ snd f) with (":"%byte :: " "%byte :: snd f).
  now rewrite (@splitLine_colon (fst f) (" "%byte :: snd f) Hk).
Qed.

(** The fields of a message that all fit, in a state without error: what
    the buffers hold afterwards. *)
Lemma process_lines_fields (fs : list (list byte * list byte)) :
  forall es : EventSource,
  msgErr es = None ->
  Forall (fun f => fst f <> [] /\ Index (fst f) ":"%byte = None) fs ->
  Forall (fun v => Z.of_nat (length v) <= MaxID (bp es))
         (values_of knownFieldNameID fs) ->
  Forall (fun v => Z.of_nat (length v) <= MaxEvent (bp es))
         (values_of knownFieldNameEvent fs) ->
  Z.of_nat (length (fold_left data_step (values_of knownFieldNameData fs)
                      (elems (dataBuf es)))) <= MaxData (bp es) ->
  exists es',
    process_lines es (map field_line fs) = (es', []) /\
    msgErr es' = None /\ callback es' = callback es /\
    elems (idBuf es') = last (values_of knownFieldNameID fs) (elems (idBuf es)) /\
    elems (eventBuf es') =
      last (values_of knownFieldNameEvent fs) (elems (eventBuf es)) /\
    elems (dataBuf es') =
      fold_left data_step (values_of knownFieldNameData fs) (elems (dataBuf es)).
Proof.
  induction fs as [|[k v] fs IH]; intros es He Hk Hi Hev Hd.
  - exists es. cbn. split_and; auto.
  - inversion Hk as [|f fs' [Hk1 Hk2] Hk' E1]; subst. cbn [fst snd] in *.
    cbn [map process_lines].
    assert (Hpl : process_line es (field_line (k, v)) =
                  (handle_field es k (Some v), [])).
    { apply process_line_field; [exact He | | exact Hk1].
      exact (@splitLine_field_line (k, v) Hk2). }
    rewrite Hpl.
    unfold values_of in Hi, Hev, Hd. cbn [filter fst] in Hi, Hev, Hd.
    assert (Hstep : exists es1,
      handle_field es k (Some v) = es1 /\
      msgErr es1 = None /\ callback es1 = callback es /\ bp es1 = bp es /\
      last (values_of knownFieldNameID ((k, v) :: fs)) (elems (idBuf es)) =
        last (values_of knownFieldNameID fs) (elems (idBuf es1)) /\
      last (values_of knownFieldNameEvent ((k, v) :: fs)) (elems (eventBuf es)) =
        last (values_of knownFieldNameEvent fs) (elems (eventBuf es1)) /\
      fold_left data_step (values_of knownFieldNameData ((k, v) :: fs))
        (elems (dataBuf es)) =
        fold_left data_step (values_of knownFieldNameData fs)
          (elems (dataBuf es1))).
    { unfold handle_field, values_of. cbn [filter fst].
      destruct (Equal k knownFieldNameID) eqn:Eid.
      { apply Equal_eq in Eid. subst k.
        change (Equal knownFieldNameID knownFieldNameEvent) with false.
        change (Equal knownFieldNameID knownFieldNameData) with false.
        cbn [map snd] in Hi. inversion Hi as [|x l Hv _ E]; subst.
        destruct (@appendLimit_fits (reslice0 (idBuf es)) v (MaxID (bp es)))
          as (s' & Ha & Hs').
        { unfold needed. rewrite len_reslice0. exact Hv. }
        rewrite len_reslice0 in Hs'. cbn [Z.eqb] in Hs'.
        cbn [bytes_of]. rewrite Ha. eexists. split; [reflexivity|].
        cbn [msgErr callback bp idBuf eventBuf dataBuf wrap_err map snd].
        rewrite He, Hs', last_cons. auto 10. }
      destruct (Equal k knownFieldNameEvent) eqn:Eev.
      { apply Equal_eq in Eev. subst k.
        change (Equal knownFieldNameEvent knownFieldNameData) with false.
        cbn [map snd] in Hev. inversion Hev as [|x l Hv _ E]; subst.
        destruct (@appendLimit_fits (reslice0 (eventBuf es)) v (MaxEvent (bp es)))
          as (s' & Ha & Hs').
        { unfold needed. rewrite len_reslice0. exact Hv. }
        rewrite len_reslice0 in Hs'. cbn [Z.eqb] in Hs'.
        cbn [bytes_of]. rewrite Ha. eexists. split; [reflexivity|].
        cbn [msgErr callback bp idBuf eventBuf dataBuf wrap_err map snd].
        rewrite He, Hs', last_cons. auto 10. }
      destruct (Equal k knownFieldNameData) eqn:Eda.
      { cbn [map snd fold_left] in Hd.
        destruct (@appendLimit_data_step (dataBuf es) v (MaxData (bp es)))
          as (s' & Ha & Hs').
        { pose proof (fold_data_step_length
                        (map snd (filter (fun f => Equal (fst f) knownFieldNameData) fs))
                        (data_step (elems (dataBuf es)) v)).
          lia. }
        cbn [bytes_of]. rewrite Ha. eexists. split; [reflexivity|].
        cbn [msgErr callback bp idBuf eventBuf dataBuf wrap_err map snd fold_left].
        rewrite He, Hs'. auto 10. }
      destruct (Equal k knownFieldNameRetry); [|eexists; split; [reflexivity|]; auto 10].
      destruct (ParseInt (bytes_of (Some v))); eexists; (split; [reflexivity|]);
        cbn [msgErr callback bp idBuf eventBuf dataBuf]; auto 10. }
    destruct Hstep as (es1 & -> & He1 & Hc1 & Hb1 & Li & Le & Ld).
    assert (Hi' : Forall (fun v0 => Z.of_nat (length v0) <= MaxID (bp es1))
                    (values_of knownFieldNameID fs)).
    { rewrite Hb1. unfold values_of.
      destruct (Equal k knownFieldNameID); [|exact Hi].
      cbn [map] in Hi. now inversion Hi. }
    assert (Hev' : Forall (fun v0 => Z.of_nat (length v0) <= MaxEvent (bp es1))
                     (values_of knownFieldNameEvent fs)).
    { rewrite Hb1. unfold values_of.
      destruct (Equal k knownFieldNameEvent); [|exact Hev].
      cbn [map] in Hev. now inversion Hev. }
    assert (Hd' : Z.of_nat (length (fold_left data_step
                     (values_of knownFieldNameData fs) (elems (dataBuf es1))))
                  <= MaxData (bp es1)).
    { rewrite Hb1, <- Ld. exact Hd. }
    destruct (IH es1 He1 Hk' Hi' Hev' Hd') as (es' & Hrun & A1 & A2 & A3 & A4 & A5).
    exists es'. rewrite Hrun. cbn [app].
    split_and; auto; congruence.
Qed.

(** X9.  The message of a run of fields.  Between two boundaries, fields
    written [key: value] whose values fit the limits, followed by a blank
    line, make one call of the callback, without error, with this message:
    the identifier is the value of the last [id] field, the type the value
    of the last [event] field, both empty when there is none; the data
    are the values of the [data] fields joined by line feeds, the empty
    values that come before the first non-empty one being left out.  The
    other fields add nothing to it, and the state is at a boundary again
    afterwards. *)
Theorem X9_message_of_fields (es : EventSource)
  (fs : list (list byte * list byte)) :
  callback es = true -> msgErr es = None ->
  len (idBuf es) = 0 -> len (eventBuf es) = 0 -> len (dataBuf es) = 0 ->
  Forall (fun f => fst f <> [] /\ Index (fst f) ":"%byte = None) fs ->
  Forall (fun v => Z.of_nat (length v) <= MaxID (bp es))
         (values_of knownFieldNameID fs) ->
  Forall (fun v => Z.of_nat (length v) <= MaxEvent (bp es))
         (values_of knownFieldNameEvent fs) ->
  Z.of_nat (length (join (drop_empty (values_of knownFieldNameData fs))))
    <= MaxData (bp es) ->
  exists es' m,
    process_lines es (map field_line fs ++ [[]]) = (es', [Call m None]) /\
    elems (ID m) = last (values_of knownFieldNameID fs) [] /\
    elems (Event m) = last (values_of knownFieldNameEvent fs) [] /\
    elems (Data m) = join (drop_empty (values_of knownFieldNameData fs)) /\
    msgErr es' = None /\
    len (idBuf es') = 0 /\ len (eventBuf es') = 0 /\ len (dataBuf es') = 0.
Proof.
  intros Hc He Li Le Ld Hk Hi Hev Hd.
  apply len_zero_elems in Li, Le, Ld.
  rewrite <- fold_data_step_join in Hd.
  destruct (@process_lines_fields fs es He Hk Hi Hev) as
    (es1 & Hrun & He1 & Hc1 & Hi1 & Hev1 & Hd1).
  { now rewrite Ld. }
  rewrite process_lines_app, Hrun. cbn [process_lines process_line length Nat.eqb].
  rewrite He1. unfold dispatch. rewrite Hc1, Hc. cbn [app].
  eexists _, _. split; [reflexivity|].
  cbn [ID Event Data perMessageReset msgErr idBuf eventBuf dataBuf].
  rewrite Hi1, Hev1, Hd1, Li, Le, Ld, fold_data_step_join, !len_reslice0.
  split_and; reflexivity.
Qed.

Lemma X9_witness :
  exists es' m,
    process_lines client0
      [bytes "data: "; bytes "id: 1"; bytes "data: a"; bytes "retry: 10";
       bytes "data: "; bytes "id: 2"; bytes "data: b"; []] =
      (es', [Call m None]) /\
    elems (ID m) = bytes "2" /\ elems (Event m) = [] /\
    elems (Data m) = bytes "a" ++ [LF; LF] ++ bytes "b".
Proof.
  destruct (@X9_message_of_fields client0
              [(bytes "data", []); (bytes "id", bytes "1");
               (bytes "data", bytes "a"); (bytes "retry", bytes "10");
               (bytes "data", []); (bytes "id", bytes "2");
               (bytes "data", bytes "b")])
    as (es' & m & Hrun & Hid & Hev & Hda & _); try reflexivity.
  - repeat constructor; discriminate.
  - change (values_of knownFieldNameID _) with [bytes "1"; bytes "2"].
    repeat constructor; vm_compute; discriminate.
  - constructor.
  - vm_compute. discriminate.
  - exists es', m. split; [exact Hrun|]. split; [exact Hid|].
    split; [exact Hev | exact Hda].
Defined.

(** *** A whole response *)

Lemma read_n_app {R : Type} `{Reader R} (a b : nat) :
  forall rb : ReadBuffer R,
  read_n (a + b) rb =
  match read_n a rb with
  | None => None
  | Some (res1, rb1) =>
      match read_n b rb1 with
      | None => None
      | Some (res2, rb2) => Some (res1 ++ res2, rb2)
      end
  end.
Proof.
  induction a as [|a IH]; intros rb; cbn [Nat.add read_n].
  - destruct (read_n b rb) as [[res2 rb2]|]; reflexivity.
  - destruct (ReadLine rb) as [[[l e] rb']|]; [|reflexivity].
    rewrite IH. destruct (read_n a rb') as [[res1 rb1]|]; [|reflexivity].
    destruct (read_n b rb1) as [[res2 rb2]|]; reflexivity.
Qed.

Lemma read_n_length {R : Type} `{Reader R} (k : nat) :
  forall (rb rb' : ReadBuffer R) res,
  read_n k rb = Some (res, rb') -> length res = k.
Proof.
  induction k as [|k IH]; intros rb rb' res; cbn [read_n].
  - now intros [= <- _].
  - destruct (ReadLine rb) as [[[l e] rb1]|]; [|discriminate].
    destruct (read_n k rb1) as [[res1 rb2]|] eqn:Hr; [|discriminate].
    intros [= <- _]. cbn [length]. now rewrite (IH _ _ _ Hr).
Qed.

Lemma app_same_length (A : Type) (a b x y : list A) :
  a ++ x = b ++ y -> length a = length b -> a = b /\ x = y.
Proof.
  revert b. induction a as [|c a IH]; intros [|d b] Heq Hlen;
    cbn [length app] in *; try discriminate.
  - auto.
  - injection Heq as -> Heq. injection Hlen as Hlen.
    destruct (IH b Heq Hlen) as [-> ->]. auto.
Qed.

(** The lines that fit come whole, one per read. *)
Lemma lines_abs_prefix (N k : nat) (more : list (list byte)) (tail : list byte)
  (ls : list (list byte)) :
  Forall (fun l => (length l < N)%nat) ls ->
  lines_abs (length ls + k) N (ls ++ more) tail =
  map (fun l => (l, None)) ls ++ lines_abs k N more tail.
Proof.
  induction 1 as [|l ls Hl _ IH]; [reflexivity|].
  cbn [length Nat.add app lines_abs map].
  destruct (Nat.ltb_spec (length l) N); [|lia]. now rewrite IH.
Qed.

(** The reads of a response body whose first lines fit the read buffer:
    the lines, and then what [lines_abs] says of the next read. *)
Lemma body_reads (t : list byte) (ls more : list (list byte))
  (tail : list byte) (sc : list nat) (N : nat) :
  terminator t -> Forall no_terminator (ls ++ more) -> no_terminator tail ->
  progressing sc = true ->
  Forall (fun l => (length l < N)%nat) ls ->
  exists rb1 rb2 l e,
    read_n (length ls)
      (Buffer.New (mkChunkReader (encode t (ls ++ more) ++ tail) sc) N) =
      Some (map (fun l => (l, None)) ls, rb1) /\
    ReadLine rb1 = Some (l, e, rb2) /\
    lines_abs 1 N more tail = [(l, e)].
Proof.
  intros Ht Hls Htail Hsc Hfit.
  set (c := mkChunkReader (encode t (ls ++ more) ++ tail) sc).
  pose proof (New_InvC N (progressing_spec (data c) sc Hsc)) as HC.
  destruct (@read_n_refines (length ls + 1) (Buffer.New c N) HC)
    as (b' & Hrun & _).
  rewrite New_stream in Hrun. cbn [maxSize crLine Buffer.New data c] in Hrun.
  rewrite (@lines_n_encode t N (length ls + 1) Ht (ls ++ more) tail false
             _ Hls Htail (stands_for_encode t (ls ++ more) tail)) in Hrun.
  rewrite (@lines_abs_prefix N 1 more tail ls Hfit) in Hrun.
  rewrite read_n_app in Hrun.
  destruct (read_n (length ls) (Buffer.New c N)) as [[res1 rb1]|] eqn:H1;
    [|discriminate].
  cbn [read_n] in Hrun.
  destruct (ReadLine rb1) as [[[l e] rb2]|] eqn:H2; [|discriminate].
  injection Hrun as Hres _.
  pose proof (read_n_length _ _ H1) as Hlen.
  destruct (@app_same_length _ res1 (map (fun l0 => (l0, None)) ls)
              [(l, e)] (lines_abs 1 N more tail) Hres) as [-> Hlast].
  { now rewrite length_map. }
  exists rb1, rb2, l, e. auto.
Qed.

Lemma processRequest_body (fuel : nat) (es : EventSource)
  (client : Request -> DoResult ChunkReader) (body : ChunkReader) :
  client (newRequest es) = DoResponse 200 "text/event-stream" body ->
  0 <= MaxReadBuffer (bp es) ->
  processRequest fuel es client =
  let '(out, es', evs) :=
    read_loop fuel (perRequestReset es)
      (Buffer.New body (Z.to_nat (MaxReadBuffer (bp es)))) in
  (out, es', Do (newRequest es) :: evs ++ [Sleep (retryTimeout es')]).
Proof.
  intros Hcl Hpos. unfold processRequest. rewrite Hcl.
  cbn [Z.eqb Pos.eqb negb String.eqb Ascii.eqb Bool.eqb andb].
  change (bp (perRequestReset es)) with (bp es).
  destruct (Z.ltb_spec (MaxReadBuffer (bp es)) 0); [lia | reflexivity].
Qed.

(** X11.  A whole response.  When the body holds lines that each fit the
    read buffer, with whichever of the three terminators and delivered in
    whatever pieces, followed by a last line without terminator, the
    attempt is the assembler run over these lines from the state with
    nil buffers: the request, the calls of the callback for the lines, the
    sleep.  The last line, which has no terminator, is dropped with the end
    of the stream, and so is the message that is not closed by a blank
    line; the end of the stream itself is not reported, and the worker is
    told to try again. *)
Theorem X11_attempt_on_body (t : list byte) (ls : list (list byte))
  (tail : list byte) (sc : list nat) (fuel : nat) (es : EventSource)
  (client : Request -> DoResult ChunkReader) :
  terminator t ->
  forallb unterminated ls = true -> unterminated tail = true ->
  progressing sc = true ->
  Forall (fun l => Z.of_nat (length l) < MaxReadBuffer (bp es)) ls ->
  Z.of_nat (length tail) < MaxReadBuffer (bp es) ->
  client (newRequest es) =
    DoResponse 200 "text/event-stream"
      (mkChunkReader (encode t ls ++ tail) sc) ->
  (length ls < fuel)%nat ->
  processRequest fuel es client =
  let '(es1, evs) := process_lines (perRequestReset es) ls in
  (Returns true, es1,
   Do (newRequest es) :: evs ++ [Sleep (retryTimeout es1)]).
Proof.
  intros Ht Hls Htail Hsc Hfit Hft Hcl Hfuel.
  apply unterminated_all in Hls. apply unterminated_spec in Htail.
  rewrite (@processRequest_body fuel es client _ Hcl) by lia.
  set (N := Z.to_nat (MaxReadBuffer (bp es))).
  assert (HfitN : Forall (fun l => (length l < N)%nat) ls).
  { eapply Forall_impl; [|exact Hfit]. cbn beta. intros l Hl. lia. }
  destruct (@body_reads t ls [] tail sc N Ht) as (rb1 & rb2 & l & e & H1 & H2 & H3);
    auto.
  { now rewrite app_nil_r. }
  rewrite app_nil_r in H1.
  cbn [lines_abs] in H3.
  destruct (Nat.ltb_spec (length tail) N); [|lia].
  injection H3 as <- <-.
  replace fuel with (length ls + S (fuel - length ls - 1))%nat by lia.
  rewrite (@read_loop_lines _ _ ls _ (perRequestReset es) _ rb1 H1).
  destruct (process_lines (perRequestReset es) ls) as [es1 evs1].
  cbn [read_loop]. rewrite H2. cbn [errors_Is].
  destruct (error_eq_dec EOF Canceled) as [E|_]; [discriminate|].
  destruct (error_eq_dec EOF EOF) as [_|E]; [|contradiction].
  now rewrite app_nil_r.
Qed.

Lemma X11_witness :
  processRequest 5 client0
    (fun _ => DoResponse 200 "text/event-stream"
                (mkChunkReader
                   (encode [CR; LF] [bytes "data: a"; []; bytes "data: b"]
                    ++ bytes "data")
                   [3; 1; 1; 2]%nat)) =
  let '(es1, evs) :=
    process_lines (perRequestReset client0)
      [bytes "data: a"; []; bytes "data: b"] in
  (Returns true, es1,
   Do (newRequest client0) :: evs ++ [Sleep (retryTimeout es1)]).
Proof.
  apply (@X11_attempt_on_body [CR; LF] [bytes "data: a"; []; bytes "data: b"]
           (bytes "data") [3; 1; 1; 2]%nat 5 client0).
  - constructor.
  - reflexivity.
  - reflexivity.
  - reflexivity.
  - repeat constructor.
  - reflexivity.
  - reflexivity.
  - cbn [length]. lia.
Defined.

(** X12.  A line that does not fit the read buffer ends the attempt.
    When the lines in front of it fit, they are handled as usual; the line
    of [MaxReadBuffer] bytes or more, terminated or not, makes one call of
    the callback, with the empty message and an error that wraps
    [ErrBufferFull], and nothing that follows it in the body is handled:
    the attempt ends and the worker is told to try again. *)
Theorem X12_line_too_long_for_read_buffer (t : list byte)
  (ls : list (list byte)) (big : list byte) (rest : list (list byte))
  (tail : list byte) (sc : list nat) (fuel : nat) (es : EventSource)
  (client : Request -> DoResult ChunkReader) :
  terminator t ->
  forallb unterminated (ls ++ big :: rest) = true ->
  unterminated tail = true ->
  progressing sc = true ->
  0 <= MaxReadBuffer (bp es) ->
  Forall (fun l => Z.of_nat (length l) < MaxReadBuffer (bp es)) ls ->
  MaxReadBuffer (bp es) <= Z.of_nat (length big) ->
  client (newRequest es) =
    DoResponse 200 "text/event-stream"
      (mkChunkReader (encode t (ls ++ big :: rest) ++ tail) sc) ->
  (length ls < fuel)%nat ->
  processRequest fuel es client =
  (let '(es1, evs) := process_lines (perRequestReset es) ls in
   (Returns true, es1,
    Do (newRequest es)
      :: (evs ++
          dispatch es1 noMessage
            (Some (Wrap "eventsource: http response body read error"
                     ErrBufferFull)))
      ++ [Sleep (retryTimeout es1)])) /\
  errors_Is (Wrap "eventsource: http response body read error" ErrBufferFull)
    ErrBufferFull = true.
Proof.
  intros Ht Hls Htail Hsc Hpos Hfit Hbig Hcl Hfuel.
  split; [|reflexivity].
  apply unterminated_all in Hls. apply unterminated_spec in Htail.
  rewrite (@processRequest_body fuel es client _ Hcl) by lia.
  set (N := Z.to_nat (MaxReadBuffer (bp es))).
  assert (HfitN : Forall (fun l => (length l < N)%nat) ls).
  { eapply Forall_impl; [|exact Hfit]. cbn beta. intros l Hl. lia. }
  destruct (@body_reads t ls (big :: rest) tail sc N Ht)
    as (rb1 & rb2 & l & e & H1 & H2 & H3); auto.
  cbn [lines_abs] in H3.
  destruct (Nat.ltb_spec (length big) N); [lia|].
  injection H3 as <- <-.
  replace fuel with (length ls + S (fuel - length ls - 1))%nat by lia.
  rewrite (@read_loop_lines _ _ ls _ (perRequestReset es) _ rb1 H1).
  destruct (process_lines (perRequestReset es) ls) as [es1 evs1].
  cbn [read_loop]. rewrite H2. cbn [errors_Is].
  destruct (error_eq_dec ErrBufferFull Canceled) as [E|_]; [discriminate|].
  destruct (error_eq_dec ErrBufferFull EOF) as [E|_]; [discriminate|].
  reflexivity.
Qed.

Lemma X12_witness :
  trace (processRequest 5
           (New (mkRequest []) true (mkBufferParameters 0 0 0 8))
           (fun _ => DoResponse 200 "text/event-stream"
                       (mkChunkReader
                          (encode [LF] [bytes "data: a"; []; bytes "data: bcd";
                                        []])
                          [5%nat]))) =
  [Do (mkRequest []);
   Call {| ID := GNil; Event := GNil; Data := GSlice (bytes "a") 1 |} None;
   Call noMessage
     (Some (Wrap "eventsource: http response body read error" ErrBufferFull));
   Sleep (1 * Second)].
Proof.
  unfold trace.
  rewrite (proj1 (@X12_line_too_long_for_read_buffer [LF]
             [bytes "data: a"; []] (bytes "data: bcd") [[]] [] [5%nat] 5%nat
             (New (mkRequest []) true (mkBufferParameters 0 0 0 8))
             (fun _ => DoResponse 200 "text/event-stream"
                         (mkChunkReader
                            (encode [LF] [bytes "data: a"; []; bytes "data: bcd";
                                          []])
                            [5%nat]))
             (term_LF) eq_refl eq_refl eq_refl
             ltac:(cbn; lia)
             ltac:(repeat constructor)
             ltac:(cbn; lia)
             eq_refl
             ltac:(cbn [length]; lia))).
  reflexivity.
Defined.

(** *** The default size of the read buffer *)

Lemma length_field_line (k v : list byte) :
  Z.of_nat (length (field_line (k, v))) =
  Z.of_nat (length k) + 2 + Z.of_nat (length v).
Proof.
  unfold field_line. cbn [fst snd].
  change (bytes ": ") with [":"%byte; " "%byte].
  rewrite !length_app. cbn [length]. lia.
Qed.

(** X13.  The read buffer [New] sizes when none is asked for.  With
    limits that are Go integers not within ten of the largest one, it is
    the largest of the three limits, defaults included, plus ten; the line
    of an [id], [event] or [data] field whose value fits the limit of the
    field is then shorter than the read buffer, so that the reader returns
    it whole.  When the three limits are below minus ten the size is
    negative, and the attempt panics as soon as a response is accepted. *)
Theorem X13_default_read_buffer (req0 : Request) (cb : bool)
  (bp0 : BufferParameters) :
  let es := New req0 cb bp0 in
  MaxReadBuffer bp0 = 0 ->
  roomy (MaxID bp0) -> roomy (MaxEvent bp0) -> roomy (MaxData bp0) ->
  MaxReadBuffer (bp es) =
    Z.max (Z.max (MaxID (bp es)) (MaxEvent (bp es))) (MaxData (bp es)) + 10 /\
  (forall v : list byte,
     (Z.of_nat (length v) <= MaxID (bp es) ->
      Z.of_nat (length (field_line (knownFieldNameID, v)))
        < MaxReadBuffer (bp es)) /\
     (Z.of_nat (length v) <= MaxEvent (bp es) ->
      Z.of_nat (length (field_line (knownFieldNameEvent, v)))
        < MaxReadBuffer (bp es)) /\
     (Z.of_nat (length v) <= MaxData (bp es) ->
      Z.of_nat (length (field_line (knownFieldNameData, v)))
        < MaxReadBuffer (bp es))) /\
  (MaxID bp0 < -10 -> MaxEvent bp0 < -10 -> MaxData bp0 < -10 ->
   forall (R : Type) (HR : Reader R) (fuel : nat)
          (client : Request -> DoResult R) (body : R),
     client (newRequest es) = DoResponse 200 "text/event-stream" body ->
     processRequest fuel es client =
     (Panics, perRequestReset es,
      [Do (newRequest es); Sleep (retryTimeout es)])).
Proof.
  intros es Hz Hi He Hd. unfold roomy in *.
  assert (Hdef : DefaultMaxID = 256 /\ DefaultMaxEvent = 256 /\
                 DefaultMaxData = 4194304) by (split_and; reflexivity).
  destruct Hdef as (Di & De & Dd).
  assert (Hmax : MaxReadBuffer (bp es) =
    Z.max (Z.max (MaxID (bp es)) (MaxEvent (bp es))) (MaxData (bp es)) + 10).
  { subst es. unfold New. cbn [bp MaxID MaxEvent MaxData MaxReadBuffer].
    rewrite Hz. cbn [Z.eqb]. rewrite Di, De, Dd.
    replace (Z.max (Z.max (if MaxID bp0 =? 0 then 256 else MaxID bp0)
                      (if MaxEvent bp0 =? 0 then 256 else MaxEvent bp0))
               (if MaxData bp0 =? 0 then 4194304 else MaxData bp0) + 9 + 1)
      with (Z.max (Z.max (if MaxID bp0 =? 0 then 256 else MaxID bp0)
                      (if MaxEvent bp0 =? 0 then 256 else MaxEvent bp0))
               (if MaxData bp0 =? 0 then 4194304 else MaxData bp0) + 10) by lia.
    apply wrap64_small.
    destruct (MaxID bp0 =? 0), (MaxEvent bp0 =? 0), (MaxData bp0 =? 0); lia. }
  split; [exact Hmax|]. split.
  - intros v. rewrite !length_field_line, Hmax.
    change (Z.of_nat (length knownFieldNameID)) with 2.
    change (Z.of_nat (length knownFieldNameEvent)) with 5.
    change (Z.of_nat (length knownFieldNameData)) with 4.
    split_and; lia.
  - intros Ni Ne Nd R HR fuel client body Hcl.
    assert (Hneg : MaxReadBuffer (bp es) < 0).
    { rewrite Hmax. subst es. unfold New. cbn [bp MaxID MaxEvent MaxData].
      destruct (Z.eqb_spec (MaxID bp0) 0); [lia|].
      destruct (Z.eqb_spec (MaxEvent bp0) 0); [lia|].
      destruct (Z.eqb_spec (MaxData bp0) 0); lia. }
    unfold processRequest. rewrite Hcl.
    cbn [Z.eqb Pos.eqb negb String.eqb Ascii.eqb Bool.eqb andb].
    change (bp (perRequestReset es)) with (bp es).
    destruct (Z.ltb_spec (MaxReadBuffer (bp es)) 0); [reflexivity | lia].
Qed.

Lemma X13_witness :
  MaxReadBuffer (bp client0) = 4194314 /\
  MaxReadBuffer (bp (New (mkRequest []) true
                       (mkBufferParameters 16 0 (-1) 0))) = 266.
Proof.
  split.
  - exact (proj1 (@X13_default_read_buffer (mkRequest []) true
                    (mkBufferParameters 0 0 0 0) eq_refl
                    ltac:(unfold roomy; cbn; lia) ltac:(unfold roomy; cbn; lia)
                    ltac:(unfold roomy; cbn; lia))).
  - exact (proj1 (@X13_default_read_buffer (mkRequest []) true
                    (mkBufferParameters 16 0 (-1) 0) eq_refl
                    ltac:(unfold roomy; cbn; lia) ltac:(unfold roomy; cbn; lia)
                    ltac:(unfold roomy; cbn; lia))).
Defined.

(** *** Cancellation *)

(** X14.  The cancellation of the context is never reported and ends the
    worker.  When the transport answers a request with an error that wraps
    [context.Canceled], or when the body reports such an error after lines
    that were read without error, the attempt calls the callback for
    these lines only, drops the line that came with the error, sleeps and
    returns [false]: the worker makes no further request and no further
    call, whatever attempts would have followed. *)
Theorem X14_cancellation_ends_worker (R : Type) (HR : Reader R)
  (fuel : nat) (es : EventSource) (client : Request -> DoResult R)
  (rest : list (Request -> DoResult R)) :
  (forall e : error,
     client (newRequest es) = DoError e -> errors_Is e Canceled = true ->
     worker fuel es (client :: rest) =
     (Returns false, es, [Do (newRequest es); Sleep (retryTimeout es)])) /\
  (forall (body : R) (ls : list (list byte)) (rb1 rb2 : ReadBuffer R)
          (l : list byte) (e : error),
     client (newRequest es) = DoResponse 200 "text/event-stream" body ->
     0 <= MaxReadBuffer (bp es) ->
     read_n (length ls)
       (Buffer.New body (Z.to_nat (MaxReadBuffer (bp es)))) =
       Some (map (fun l => (l, None)) ls, rb1) ->
     ReadLine rb1 = Some (l, Some e, rb2) ->
     errors_Is e Canceled = true ->
     (length ls < fuel)%nat ->
     worker fuel es (client :: rest) =
     let '(es1, evs) := process_lines (perRequestReset es) ls in
     (Returns false, es1,
      Do (newRequest es) :: evs ++ [Sleep (retryTimeout es1)])).
Proof.
  split.
  - intros e Hcl Hc. cbn [worker]. unfold processRequest.
    now rewrite Hcl, Hc.
  - intros body ls rb1 rb2 l e Hcl Hpos Hread Hlast Hc Hfuel.
    cbn [worker]. unfold processRequest. rewrite Hcl.
    cbn [Z.eqb Pos.eqb negb String.eqb Ascii.eqb Bool.eqb andb].
    change (bp (perRequestReset es)) with (bp es).
    destruct (Z.ltb_spec (MaxReadBuffer (bp es)) 0); [lia|].
    replace fuel with (length ls + S (fuel - length ls - 1))%nat by lia.
    rewrite (@read_loop_lines _ _ ls _ (perRequestReset es) _ rb1 Hread).
    destruct (process_lines (perRequestReset es) ls) as [es1 evs1].
    cbn [read_loop]. rewrite Hlast, Hc.
    now rewrite app_nil_r.
Qed.

Lemma X14_witness :
  trace (worker 5 (New (mkRequest []) true (mkBufferParameters 0 0 0 32))
           [(fun _ => DoResponse 200 "text/event-stream"
                        (mkFailingBody
                           (bytes "data: a" ++ [LF; LF] ++ bytes "data: b")
                           (Wrap "read" Canceled)));
            (fun _ => DoError (ErrOther "unreachable"))]) =
  [Do (mkRequest []);
   Call {| ID := GNil; Event := GNil; Data := GSlice (bytes "a") 1 |} None;
   Sleep (1 * Second)].
Proof.
  set (body := mkFailingBody (bytes "data: a" ++ [LF; LF] ++ bytes "data: b")
                 (Wrap "read" Canceled)).
  set (es := New (mkRequest []) true (mkBufferParameters 0 0 0 32)).
  destruct (read_n 2 (Buffer.New body 32)) as [[res rb1]|] eqn:H1;
    [|vm_compute in H1; discriminate].
  destruct (ReadLine rb1) as [[[l e] rb2]|] eqn:H2.
  - assert (Hres : res = map (fun l => (l, None)) [bytes "data: a"; []] /\
                   l = bytes "data: b" /\ e = Some (Wrap "read" Canceled)).
    { vm_compute in H1. injection H1 as <- <-.
      vm_compute in H2. injection H2 as <- <- _. split_and; reflexivity. }
    destruct Hres as (-> & -> & ->).
    unfold trace.
    rewrite (proj2 (@X14_cancellation_ends_worker FailingBody _ 5 es
                      (fun _ => DoResponse 200 "text/event-stream" body)
                      [(fun _ => DoError (ErrOther "unreachable"))])
               body [bytes "data: a"; []] rb1 rb2 (bytes "data: b")
               (Wrap "read" Canceled) eq_refl ltac:(cbn; lia) H1 H2 eq_refl
               ltac:(cbn [length]; lia)).
    reflexivity.
  - exfalso. vm_compute in H1. injection H1 as _ <-.
    vm_compute in H2. discriminate.
Defined.

(** *** The field parser, read backwards *)

Lemma Index_Some (line : list byte) (sep : byte) : forall i : nat,
  Index line sep = Some i ->
  Index (firstn i line) sep = None /\
  line = firstn i line ++ sep :: skipn (i + 1) line.
Proof.
  induction line as [|c t IH]; cbn [Index]; intros i Hi; [discriminate|].
  destruct (Byte.eqb c sep) eqn:Hc.
  - injection Hi as <-. apply Byte.byte_dec_bl in Hc. subst c.
    split; reflexivity.
  - destruct (Index t sep) as [j|]; [|discriminate].
    injection Hi as <-. destruct (IH j eq_refl) as [H1 H2].
    cbn [firstn Index Nat.add skipn app]. rewrite Hc, H1.
    split; [reflexivity|]. now rewrite <- H2.
Qed.

Lemma Index_Some_lt (line : list byte) (sep : byte) : forall i : nat,
  Index line sep = Some i -> (i < length line)%nat.
Proof.
  induction line as [|c t IH]; cbn [Index length]; intros i Hi;
    [discriminate|].
  destruct (Byte.eqb c sep); [injection Hi as <-; lia|].
  destruct (Index t sep) as [j|]; [|discriminate].
  injection Hi as <-. pose proof (IH j eq_refl). lia.
Qed.

(** X15.  What [splitLine] returns tells what the line was.  The key never
    holds a colon.  With a value, the line is the key, a colon, at most one
    space and the value, and the space is there whenever the value itself
    starts with a space; without a value the line is the key and holds no
    colon. *)
Theorem X15_splitLine_inverse (line key : list byte)
  (val : option (list byte)) :
  splitLine line = (key, val) ->
  Index key ":"%byte = None /\
  match val with
  | Some v =>
      line = key ++ ":"%byte :: v \/
      line = key ++ ":"%byte :: " "%byte :: v
  | None => line = key
  end /\
  (forall v, val = Some (" "%byte :: v) ->
             line = key ++ ":"%byte :: " "%byte :: " "%byte :: v).
Proof.
  unfold splitLine. destruct (Index line ":"%byte) as [i|] eqn:Hi.
  - destruct (Index_Some _ _ Hi) as [Hk Hline].
    set (k := firstn i line) in *. set (rest := skipn (i + 1) line) in *.
    assert (Hlen : length k = i).
    { subst k. rewrite length_firstn. pose proof (Index_Some_lt _ _ Hi). lia. }
    assert (Hnth : forall d, nth (i + 1) line d = nth 0 rest d).
    { intros d. rewrite Hline, app_nth2 by lia.
      replace (i + 1 - length k)%nat with 1%nat by lia. reflexivity. }
    assert (Hsk2 : skipn (i + 2) line = skipn 1 rest).
    { subst rest. rewrite skipn_skipn. f_equal. lia. }
    assert (Hll : length line = (i + 1 + length rest)%nat).
    { rewrite Hline at 1. rewrite length_app. cbn [length]. lia. }
    rewrite Hnth, Hsk2, Hll.
    destruct rest as [|c v] eqn:Hrest.
    + cbn [length nth skipn].
      destruct (Nat.ltb_spec (i + 1) (i + 1 + 0)); [lia|]. cbn [andb].
      intros [= <- <-]. split; [exact Hk|]. split; [now left|].
      intros v [= ].
    + cbn [length nth skipn].
      destruct (Nat.ltb_spec (i + 1) (i + 1 + S (length v))); [|lia].
      cbn [andb]. destruct (Byte.eqb c " "%byte) eqn:Hc.
      * apply Byte.byte_dec_bl in Hc. subst c.
        intros [= <- <-]. split; [exact Hk|]. split; [now right|].
        intros v0 [= ->]. exact Hline.
      * intros [= <- <-]. split; [exact Hk|]. split; [now left|].
        intros v0 [= -> ->]. discriminate.
  - intros [= <- <-]. split; [exact Hi|]. split; [reflexivity|].
    intros v [= ].
Qed.

Lemma X15_witness :
  Index (bytes "data") ":"%byte = None /\
  (bytes "data:  x" = bytes "data" ++ ":"%byte :: bytes " x" \/
   bytes "data:  x" = bytes "data" ++ ":"%byte :: " "%byte :: bytes " x").
Proof.
  destruct (@X15_splitLine_inverse (bytes "data:  x") (bytes "data")
              (Some (bytes " x")) eq_refl) as (H1 & H2 & _).
  split; [exact H1 | exact H2].
Defined.

(** *** Every finite body *)

Lemma drop_lf_length (cr : bool) (S : list byte) :
  (length (snd (drop_lf cr S)) <= length S)%nat.
Proof.
  unfold drop_lf. destruct cr; [|cbn [snd]; lia].
  destruct S as [|c t]; cbn [snd length]; [lia|].
  destruct (Byte.eqb c LF); cbn [length]; lia.
Qed.

(** What a read of the stream can give: a line and a shorter stream, or
    one of the two errors of the line reader. *)
Lemma next_line_cases (N : nat) (cr : bool) (S l S' : list byte)
  (e : option error) (cr' : bool) :
  next_line N cr S = (l, e, cr', S') ->
  match e with
  | None => (length S' < length S)%nat
  | Some e' => e' = ErrBufferFull \/ e' = EOF
  end.
Proof.
  unfold next_line. pose proof (drop_lf_length cr S) as Hd.
  destruct (drop_lf cr S) as [cr1 S1]. cbn [snd] in Hd. intros Hs.
  pose proof (BufferMore.scan_split _ _ _ Hs) as Hsplit.
  destruct e as [e'|].
  - unfold scan in Hs. destruct (findCRLF (firstn N S1)); [discriminate|].
    destruct (N <=? length S1)%nat; injection Hs as _ <- _ _; auto.
  - rewrite Hsplit, !length_app in Hd. cbn [length] in Hd. lia.
Qed.

Lemma read_loop_ends (fuel : nat) :
  forall (es : EventSource) (b : ReadBuffer ChunkReader),
  InvC b -> (length (stream b) < fuel)%nat ->
  fst (fst (read_loop fuel es b)) = Returns true.
Proof.
  induction fuel as [|fuel IH]; intros es b HC Hlen; [lia|].
  cbn [read_loop].
  destruct (ReadLine_refines HC) as (l & e & b' & Hrun & Hnext & HC' & _).
  rewrite Hrun. pose proof (next_line_cases _ _ _ Hnext) as Hcase.
  destruct e as [e'|].
  - destruct Hcase as [-> | ->]; reflexivity.
  - destruct (process_line es l) as [es1 evs1].
    specialize (IH es1 b' HC' ltac:(lia)).
    destruct (read_loop fuel es1 b') as [[out es2] evs2]. exact IH.
Qed.

(** X17.  Every finite body ends the attempt.  Whatever bytes an accepted
    response holds, well-formed or not, and in whatever non-empty pieces
    they arrive, the read loop of [processRequest] comes to its end after
    at most one iteration per byte and one more, and the attempt returns
    [true]: the worker is told to connect again. *)
Theorem X17_attempt_ends_on_finite_body (d : list byte) (sc : list nat)
  (fuel : nat) (es : EventSource) (client : Request -> DoResult ChunkReader) :
  progressing sc = true ->
  0 <= MaxReadBuffer (bp es) ->
  client (newRequest es) =
    DoResponse 200 "text/event-stream" (mkChunkReader d sc) ->
  (length d < fuel)%nat ->
  fst (fst (processRequest fuel es client)) = Returns true.
Proof.
  intros Hsc Hpos Hcl Hfuel.
  rewrite (@processRequest_body fuel es client _ Hcl Hpos).
  pose proof (@read_loop_ends fuel (perRequestReset es)
                (Buffer.New (mkChunkReader d sc)
                   (Z.to_nat (MaxReadBuffer (bp es))))
                (New_InvC _ (progressing_spec d sc Hsc)) Hfuel) as Hend.
  destruct (read_loop fuel _ _) as [[out es'] evs]. exact Hend.
Qed.

Lemma X17_witness :
  fst (fst (processRequest 12 client0
              (fun _ => DoResponse 200 "text/event-stream"
                          (mkChunkReader
                             (bytes "x" ++ [CR; CR; LF; LF] ++ bytes ":::" ++ [LF]
                              ++ bytes "id")
                             [1; 2; 3]%nat)))) = Returns true.
Proof.
  apply (@X17_attempt_ends_on_finite_body
           (bytes "x" ++ [CR; CR; LF; LF] ++ bytes ":::" ++ [LF] ++ bytes "id")
           [1; 2; 3]%nat 12 client0).
  - reflexivity.
  - cbn. lia.
  - reflexivity.
  - cbn [length app bytes]. vm_compute. lia.
Defined.

(** *** The tests of the package *)

(** The checks of [TestSplitLine], on the embedding; the test takes the nil
    slice and the empty slice for equal. *)
Example TestSplitLine :
  splitLine (bytes ":bar") = ([], Some (bytes "bar")) /\
  splitLine (bytes "foo:  bar") = (bytes "foo", Some (bytes " bar")) /\
  splitLine (bytes "foo: bar") = (bytes "foo", Some (bytes "bar")) /\
  splitLine (bytes "foo:bar") = (bytes "foo", Some (bytes "bar")) /\
  splitLine (bytes "foo: ") = (bytes "foo", Some []) /\
  splitLine (bytes "foo:") = (bytes "foo", Some []) /\
  splitLine (bytes "foo") = (bytes "foo", None).
Proof. split_and; reflexivity. Qed.

End EventSourceMore.
